(** * SimpleVector over ArrayPtr: a shallow embedding and its properties

    The development follows the two headers of the repository:
    - array_ptr.h   : [ArrayPtr], an owning pointer to a heap array;
    - simple_vector.h : [SimpleVector], the resizable sequence built on it.

    C++ objects live in an explicit state: a heap of array blocks, a store of
    vector objects addressed by identity (so that two references may alias),
    and a plan of the outcomes of the coming [new[]] expressions.  Methods are
    computations in a state-and-outcome monad; a computation may return,
    throw, abort on a failed [assert], or run into undefined behaviour. *)

From stdpp Require Import base numbers option list gmap strings.

Local Open Scope Z_scope.

(** ** Machine integers *)

(** [size_t] is a 64-bit unsigned integer: arithmetic wraps modulo 2^64. *)
Definition size_t_modulus : Z := 18446744073709551616.

Definition wrap (z : Z) : Z := z mod size_t_modulus.

(** No array object has more than PTRDIFF_MAX elements; [new T[n]] with a
    larger [n] throws.  *)
Definition max_slots : Z := 9223372036854775807.

(** ** Pointers *)

Definition loc := positive.

(** A pointer is a block (none for pointers derived from the null pointer) and
    an element offset.  Arithmetic only moves the offset. *)
Record ptr := Ptr { blk : option loc; off : Z }.

Definition nullptr : ptr := Ptr None 0.

Global Instance ptr_eq_dec : EqDecision ptr.
Proof. solve_decision. Defined.

Definition ptr_add (p : ptr) (n : Z) : ptr := Ptr (blk p) (off p + n).

Infix "+ₚ" := ptr_add (at level 50, left associativity).

Definition ptr_leb (p q : ptr) : bool :=
  bool_decide (blk p = blk q) && (off p <=? off q).

Definition ptr_ltb (p q : ptr) : bool :=
  bool_decide (blk p = blk q) && (off p <? off q).

(** ** Element types *)

(** What the templates ask of [Type]: value initialisation [Type()], the state
    an object is left in by a move, [operator==] and [operator<]. *)
Class Element (T : Type) := {
  T_default : T;
  moved_from : T → T;
  T_eqb : T → T → bool;
  T_ltb : T → T → bool
}.

(** [int]: moving an [int] copies it. *)
Global Instance int_Element : Element Z := {|
  T_default := 0;
  moved_from := λ x, x;
  T_eqb := Z.eqb;
  T_ltb := Z.ltb
|}.

(** Whether [assert] is compiled out. *)
Class Build := { NDEBUG : bool }.

(** ** Objects and state *)

Record ArrayPtr := mkArrayPtr { raw_ptr_ : ptr }.

Record SimpleVector := mkSimpleVector {
  items_ : ArrayPtr;
  size_ : Z;
  capacity_ : Z
}.

Definition vid := positive.

Inductive exn :=
| bad_alloc
| bad_array_new_length
| element_ctor_failure
| out_of_range (what : string).

(** The outcome of one [new T[n]()]: success, no memory, or a throwing
    element constructor. *)
Inductive new_outcome := new_ok | new_no_memory | new_ctor_throws.

Record state (T : Type) := mkState {
  heap : gmap loc (list T);
  vecs : gmap vid SimpleVector;
  plan : list new_outcome
}.
Arguments mkState {T} _ _ _.
Arguments heap {T} _.
Arguments vecs {T} _.
Arguments plan {T} _.

Definition set_heap {T} (f : gmap loc (list T) → gmap loc (list T)) (σ : state T) : state T :=
  mkState (f (heap σ)) (vecs σ) (plan σ).

Definition set_vecs {T} (f : gmap vid SimpleVector → gmap vid SimpleVector) (σ : state T) : state T :=
  mkState (heap σ) (f (vecs σ)) (plan σ).

Definition set_plan {T} (p : list new_outcome) (σ : state T) : state T :=
  mkState (heap σ) (vecs σ) p.

(** ** The monad *)

Inductive outcome (A : Type) :=
| Ret (a : A)
| Throw (e : exn)
| Abort
| UB.
Arguments Ret {A} a.
Arguments Throw {A} e.
Arguments Abort {A}.
Arguments UB {A}.

Definition M (T A : Type) : Type := state T → outcome A * state T.

Definition ret {T A} (a : A) : M T A := λ σ, (Ret a, σ).

Definition bind {T A B} (m : M T A) (f : A → M T B) : M T B := λ σ,
  match m σ with
  | (Ret a, σ') => f a σ'
  | (Throw e, σ') => (Throw e, σ')
  | (Abort, σ') => (Abort, σ')
  | (UB, σ') => (UB, σ')
  end.

Definition throw {T A} (e : exn) : M T A := λ σ, (Throw e, σ).
Definition undefined {T A} : M T A := λ σ, (UB, σ).

(** Runs [cleanup] when [m] throws, then rethrows (stack unwinding). *)
Definition unwinding {T A} (m : M T A) (cleanup : M T unit) : M T A := λ σ,
  match m σ with
  | (Throw e, σ') =>
      match cleanup σ' with
      | (Ret _, σ'') => (Throw e, σ'')
      | (Throw e', σ'') => (Abort, σ'')
      | (Abort, σ'') => (Abort, σ'')
      | (UB, σ'') => (UB, σ'')
      end
  | r => r
  end.

Notation "x <- c1 ;; c2" := (bind c1 (λ x, c2))
  (at level 100, c1 at next level, right associativity).
Notation "c1 ;; c2" := (bind c1 (λ _, c2))
  (at level 100, right associativity).

Definition assert_ {T} {B : Build} (c : bool) : M T unit := λ σ,
  if NDEBUG || c then (Ret tt, σ) else (Abort, σ).

(** ** Memory *)

Section memory.
Context {T : Type} {E : Element T}.

(** The block, its contents and the index a pointer designates, when it
    points to an element of a live array. *)
Definition slot (σ : state T) (p : ptr) : option (loc * list T * nat) :=
  match blk p with
  | Some l =>
      match heap σ !! l with
      | Some buf =>
          if bool_decide (0 ≤ off p < Z.of_nat (length buf))
          then Some (l, buf, Z.to_nat (off p))
          else None
      | None => None
      end
  | None => None
  end.

Definition load (p : ptr) : M T T := λ σ,
  match slot σ p with
  | Some (_, buf, i) =>
      match buf !! i with
      | Some x => (Ret x, σ)
      | None => (UB, σ)
      end
  | None => (UB, σ)
  end.

Definition store (p : ptr) (x : T) : M T unit := λ σ,
  match slot σ p with
  | Some (l, buf, i) => (Ret tt, set_heap (λ h, <[l := <[i := x]> buf]> h) σ)
  | None => (UB, σ)
  end.

(** [new Type[n]()] for [n ≠ 0]: [n] value-initialised elements in a fresh
    block, unless the size is too large, memory is exhausted or an element
    constructor throws; the three failures leave the heap as it was.  The
    head of the plan tells which; an exhausted plan means success. *)
Definition new_array (n : Z) : M T ptr := λ σ,
  if bool_decide (max_slots < n) then (Throw bad_array_new_length, σ)
  else
    match head (plan σ) with
    | Some new_no_memory => (Throw bad_alloc, set_plan (tail (plan σ)) σ)
    | Some new_ctor_throws => (Throw element_ctor_failure, set_plan (tail (plan σ)) σ)
    | _ =>
        let l := fresh (dom (heap σ)) in
        (Ret (Ptr (Some l) 0),
         mkState (<[l := replicate (Z.to_nat n) T_default]> (heap σ)) (vecs σ)
                 (tail (plan σ)))
    end.

(** [delete[] p]: nothing for the null pointer; otherwise [p] must be what
    [new[]] returned for a block that is still live. *)
Definition delete_array (p : ptr) : M T unit := λ σ,
  if decide (p = nullptr) then (Ret tt, σ)
  else
    match blk p with
    | Some l =>
        if bool_decide (off p = 0) then
          match heap σ !! l with
          | Some _ => (Ret tt, set_heap (λ h, delete l h) σ)
          | None => (UB, σ)
          end
        else (UB, σ)
    | None => (UB, σ)
    end.

(** The number of iterations of [for (; first != last; ++first)]: the two
    pointers must delimit a range. *)
Definition distance (first last : ptr) : M T nat :=
  if bool_decide (blk first = blk last ∧ off first ≤ off last)
  then ret (Z.to_nat (off last - off first))
  else undefined.

(** [p - q] on pointers into the same array. *)
Definition ptr_diff (p q : ptr) : M T Z :=
  if bool_decide (blk p = blk q) then ret (off p - off q) else undefined.

(** One assignment through two iterators.  When the source iterator is a
    move iterator the element is moved: the source is then left in its
    moved-from state. *)
Definition assign (moving : bool) (dst src : ptr) : M T unit :=
  x <- load src ;;
  store dst x ;;
  if moving then store src (moved_from x) else ret tt.

(** <algorithm>, after the standard's reference implementations. *)

Fixpoint copy_loop (moving : bool) (n : nat) (first d_first : ptr) : M T unit :=
  match n with
  | O => ret tt
  | S n' =>
      assign moving d_first first ;;
      copy_loop moving n' (first +ₚ 1) (d_first +ₚ 1)
  end.

Definition std_copy (moving : bool) (first last d_first : ptr) : M T unit :=
  n <- distance first last ;;
  copy_loop moving n first d_first.

Fixpoint copy_backward_loop (moving : bool) (n : nat) (last d_last : ptr) : M T unit :=
  match n with
  | O => ret tt
  | S n' =>
      assign moving (d_last +ₚ (-1)) (last +ₚ (-1)) ;;
      copy_backward_loop moving n' (last +ₚ (-1)) (d_last +ₚ (-1))
  end.

Definition std_copy_backward (moving : bool) (first last d_last : ptr) : M T unit :=
  n <- distance first last ;;
  copy_backward_loop moving n last d_last.

Fixpoint fill_loop (n : nat) (first : ptr) (value : T) : M T unit :=
  match n with
  | O => ret tt
  | S n' => store first value ;; fill_loop n' (first +ₚ 1) value
  end.

Definition std_fill (first last : ptr) (value : T) : M T unit :=
  n <- distance first last ;;
  fill_loop n first value.

Fixpoint equal_loop (n : nat) (first1 first2 : ptr) : M T bool :=
  match n with
  | O => ret true
  | S n' =>
      x <- load first1 ;;
      y <- load first2 ;;
      if T_eqb x y then equal_loop n' (first1 +ₚ 1) (first2 +ₚ 1)
      else ret false
  end.

Definition std_equal (first1 last1 first2 : ptr) : M T bool :=
  n <- distance first1 last1 ;;
  equal_loop n first1 first2.

(** [n1], [n2]: the elements left in each range. *)
Fixpoint lexicographical_loop (n1 n2 : nat) (first1 first2 : ptr) : M T bool :=
  match n1, n2 with
  | S n1', S n2' =>
      x <- load first1 ;;
      y <- load first2 ;;
      if T_ltb x y then ret true
      else if T_ltb y x then ret false
      else lexicographical_loop n1' n2' (first1 +ₚ 1) (first2 +ₚ 1)
  | O, S _ => ret true
  | _, O => ret false
  end.

Definition std_lexicographical_compare (first1 last1 first2 last2 : ptr) : M T bool :=
  n1 <- distance first1 last1 ;;
  n2 <- distance first2 last2 ;;
  lexicographical_loop n1 n2 first1 first2.
End memory.

(** ** array_ptr.h *)

Section array_ptr.
Context {T : Type} {E : Element T}.

(** [explicit ArrayPtr(size_t size)] *)
Definition ArrayPtr_ctor (size : Z) : M T ArrayPtr :=
  if decide (size = 0) then ret (mkArrayPtr nullptr)
  else p <- new_array size ;; ret (mkArrayPtr p).

(** [~ArrayPtr()] *)
Definition ArrayPtr_dtor (a : ArrayPtr) : M T unit :=
  delete_array (raw_ptr_ a).

(** [Release()]: the pointer handed out and the emptied object. *)
Definition ArrayPtr_Release (a : ArrayPtr) : ptr * ArrayPtr :=
  (raw_ptr_ a, mkArrayPtr nullptr).

(** [operator[]]: the reference [*(raw_ptr_ + index)], as an address. *)
Definition ArrayPtr_index (a : ArrayPtr) (index : Z) : ptr :=
  raw_ptr_ a +ₚ index.

Definition ArrayPtr_bool (a : ArrayPtr) : bool :=
  bool_decide (raw_ptr_ a ≠ nullptr).

Definition ArrayPtr_Get (a : ArrayPtr) : ptr := raw_ptr_ a.
End array_ptr.

(** ** simple_vector.h *)

Record ReserveProxyObj := mkReserveProxyObj { reserve_capacity_ : Z }.

Definition ReserveProxyObj_GetCapacity (obj : ReserveProxyObj) : Z :=
  reserve_capacity_ obj.

(** The free function [Reserve(size_t)]. *)
Definition Reserve_request (capacity_to_reserve : Z) : ReserveProxyObj :=
  mkReserveProxyObj capacity_to_reserve.

Section simple_vector.
Context {T : Type} {E : Element T} {B : Build}.

(** *** Member access, by object identity *)

Definition get_vec (v : vid) : M T SimpleVector := λ σ,
  match vecs σ !! v with
  | Some sv => (Ret sv, σ)
  | None => (UB, σ)
  end.

Definition put_vec (v : vid) (sv : SimpleVector) : M T unit := λ σ,
  (Ret tt, set_vecs (λ m, <[v := sv]> m) σ).

Definition get_items (v : vid) : M T ArrayPtr := sv <- get_vec v ;; ret (items_ sv).
Definition get_size (v : vid) : M T Z := sv <- get_vec v ;; ret (size_ sv).
Definition get_capacity (v : vid) : M T Z := sv <- get_vec v ;; ret (capacity_ sv).

Definition set_items (v : vid) (a : ArrayPtr) : M T unit :=
  sv <- get_vec v ;; put_vec v (mkSimpleVector a (size_ sv) (capacity_ sv)).
Definition set_size (v : vid) (n : Z) : M T unit :=
  sv <- get_vec v ;; put_vec v (mkSimpleVector (items_ sv) n (capacity_ sv)).
Definition set_capacity (v : vid) (n : Z) : M T unit :=
  sv <- get_vec v ;; put_vec v (mkSimpleVector (items_ sv) (size_ sv) n).

(** [std::exchange(obj, new_value)] on each member. *)
Definition exchange_raw_ptr (v : vid) (new_value : ptr) : M T ptr :=
  a <- get_items v ;; set_items v (mkArrayPtr new_value) ;; ret (raw_ptr_ a).
Definition exchange_size (v : vid) (new_value : Z) : M T Z :=
  old <- get_size v ;; set_size v new_value ;; ret old.
Definition exchange_capacity (v : vid) (new_value : Z) : M T Z :=
  old <- get_capacity v ;; set_capacity v new_value ;; ret old.

(** [ArrayPtr::operator=(ArrayPtr&&)] from [rhs.items_] to [this->items_]. *)
Definition items_move_assign (this rhs : vid) : M T unit :=
  p <- exchange_raw_ptr rhs nullptr ;;
  set_items this (mkArrayPtr p).

(** [tmp.swap(items_)] for a local [tmp]: the new value of [tmp]. *)
Definition ArrayPtr_swap_items (tmp : ArrayPtr) (this : vid) : M T ArrayPtr :=
  a <- get_items this ;;
  set_items this tmp ;;
  ret a.

(** *** Iterators *)

Definition begin (this : vid) : M T ptr :=
  sz <- get_size this ;;
  if decide (sz = 0) then ret nullptr
  else a <- get_items this ;; ret (ArrayPtr_index a 0).

Definition end_ (this : vid) : M T ptr :=
  sz <- get_size this ;;
  if decide (sz = 0) then ret nullptr
  else a <- get_items this ;; ret (ArrayPtr_index a 0 +ₚ sz).

Definition cbegin (this : vid) : M T ptr := begin this.
Definition cend (this : vid) : M T ptr := end_ this.

(** *** Construction, assignment, destruction *)

(** [~SimpleVector()] *)
Definition SimpleVector_dtor (this : vid) : M T unit :=
  a <- get_items this ;;
  ArrayPtr_dtor a ;;
  λ σ, (Ret tt, set_vecs (λ m, delete this m) σ).

(** [SimpleVector()] *)
Definition SimpleVector_default (this : vid) : M T unit :=
  put_vec this (mkSimpleVector (mkArrayPtr nullptr) 0 0).

(** [SimpleVector(size_t size)] *)
Definition SimpleVector_sized (this : vid) (size : Z) : M T unit :=
  a <- ArrayPtr_ctor size ;;
  put_vec this (mkSimpleVector a size size) ;;
  b <- begin this ;;
  e <- end_ this ;;
  std_fill b e T_default.

(** [SimpleVector(size_t size, const Type& value)] *)
Definition SimpleVector_filled (this : vid) (size : Z) (value : T) : M T unit :=
  a <- ArrayPtr_ctor size ;;
  put_vec this (mkSimpleVector a size size) ;;
  b <- begin this ;;
  e <- end_ this ;;
  std_fill b e value.

Fixpoint init_loop (a : ArrayPtr) (i : Z) (init : list T) : M T unit :=
  match init with
  | [] => ret tt
  | val :: rest => store (ArrayPtr_index a i) val ;; init_loop a (i + 1) rest
  end.

(** [SimpleVector(std::initializer_list<Type> init)] *)
Definition SimpleVector_init (this : vid) (init : list T) : M T unit :=
  let n := Z.of_nat (length init) in
  a <- ArrayPtr_ctor n ;;
  put_vec this (mkSimpleVector a n n) ;;
  a <- get_items this ;;
  init_loop a 0 init.

(** [SimpleVector(const SimpleVector& other)] *)
Definition SimpleVector_copy (this other : vid) : M T unit :=
  n <- get_size other ;;
  SimpleVector_sized this n ;;
  unwinding
    (n <- get_size other ;;
     tmp <- ArrayPtr_ctor n ;;
     b <- begin other ;;
     e <- end_ other ;;
     std_copy false b e (ArrayPtr_index tmp 0) ;;
     tmp <- ArrayPtr_swap_items tmp this ;;
     ArrayPtr_dtor tmp)
    (SimpleVector_dtor this).

(** [operator=(const SimpleVector& rhs)] *)
Definition copy_assign (this rhs : vid) : M T unit :=
  ra <- get_items rhs ;;
  a <- get_items this ;;
  assert_ (bool_decide (ArrayPtr_index ra 0 ≠ ArrayPtr_index a 0)) ;;
  n <- get_size rhs ;;
  tmp <- ArrayPtr_ctor n ;;
  b <- begin rhs ;;
  e <- end_ rhs ;;
  std_copy false b e (ArrayPtr_index tmp 0) ;;
  tmp <- ArrayPtr_swap_items tmp this ;;
  n <- get_size rhs ;;
  set_size this n ;;
  c <- get_capacity rhs ;;
  set_capacity this c ;;
  ArrayPtr_dtor tmp.

(** [SimpleVector(SimpleVector&& other)] *)
Definition SimpleVector_move (this other : vid) : M T unit :=
  put_vec this (mkSimpleVector (mkArrayPtr nullptr) 0 0) ;;
  items_move_assign this other ;;
  n <- exchange_size other 0 ;;
  set_size this n ;;
  c <- exchange_capacity other 0 ;;
  set_capacity this c.

(** [operator=(SimpleVector&& rhs)] *)
Definition move_assign (this rhs : vid) : M T unit :=
  items_move_assign this rhs ;;
  n <- exchange_size rhs 0 ;;
  set_size this n ;;
  c <- exchange_capacity rhs 0 ;;
  set_capacity this c.

(** *** Queries and element access *)

Definition GetSize (this : vid) : M T Z := get_size this.
Definition GetCapacity (this : vid) : M T Z := get_capacity this.
Definition IsEmpty (this : vid) : M T bool :=
  sz <- get_size this ;; ret (bool_decide (sz = 0)).

(** [operator[]]: the reference returned, as an address. *)
Definition op_index (this : vid) (index : Z) : M T ptr :=
  sz <- get_size this ;;
  assert_ (bool_decide (index < sz)) ;;
  a <- get_items this ;;
  ret (ArrayPtr_index a index).

Definition At (this : vid) (index : Z) : M T ptr :=
  sz <- get_size this ;;
  if decide (index >= sz) then
    throw (out_of_range "Method At(index): index >= size")
  else
    a <- get_items this ;;
    ret (ArrayPtr_index a index).

(** *** Modifiers *)

Definition Clear (this : vid) : M T unit := set_size this 0.

Definition Resize (this : vid) (new_size : Z) : M T unit :=
  sz <- get_size this ;;
  if decide (new_size <= sz) then set_size this new_size
  else
    cap <- get_capacity this ;;
    if decide (sz < new_size ∧ new_size <= cap) then set_size this new_size
    else if decide (new_size > cap) then
      let new_capacity := Z.max new_size (wrap (2 * cap)) in
      tmp <- ArrayPtr_ctor new_capacity ;;
      b <- begin this ;;
      e <- end_ this ;;
      std_copy true b e (ArrayPtr_index tmp 0) ;;
      tmp <- ArrayPtr_swap_items tmp this ;;
      set_size this new_size ;;
      set_capacity this new_capacity ;;
      ArrayPtr_dtor tmp
    else ret tt.

Definition PushBack (this : vid) (item : T) : M T unit :=
  sz <- get_size this ;;
  cap <- get_capacity this ;;
  if decide (sz ≠ cap) then
    a <- get_items this ;;
    set_size this (wrap (sz + 1)) ;;
    store (ArrayPtr_index a sz) item
  else
    let new_capacity := Z.max (wrap (2 * cap)) 1 in
    tmp <- ArrayPtr_ctor new_capacity ;;
    b <- begin this ;;
    e <- end_ this ;;
    std_copy true b e (ArrayPtr_index tmp 0) ;;
    store (ArrayPtr_index tmp sz) item ;;
    tmp <- ArrayPtr_swap_items tmp this ;;
    set_size this (wrap (sz + 1)) ;;
    set_capacity this new_capacity ;;
    ArrayPtr_dtor tmp.

Definition Insert (this : vid) (pos : ptr) (value : T) : M T ptr :=
  b <- begin this ;;
  e <- end_ this ;;
  assert_ (ptr_leb b pos && ptr_leb pos e) ;;
  sz <- get_size this ;;
  cap <- get_capacity this ;;
  if decide (sz ≠ cap) then
    p <- ptr_diff pos b ;;
    std_copy_backward true (b +ₚ p) e (e +ₚ 1) ;;
    a <- get_items this ;;
    store (ArrayPtr_index a (wrap p)) value ;;
    set_size this (wrap (sz + 1)) ;;
    b <- begin this ;;
    ret (b +ₚ p)
  else
    p <- ptr_diff pos b ;;
    let new_capacity := Z.max (wrap (2 * cap)) 1 in
    tmp <- ArrayPtr_ctor new_capacity ;;
    std_copy true b (b +ₚ p) (ArrayPtr_index tmp 0) ;;
    store (ArrayPtr_index tmp (wrap p)) value ;;
    std_copy_backward true (b +ₚ p) e (ArrayPtr_index tmp sz +ₚ 1) ;;
    tmp <- ArrayPtr_swap_items tmp this ;;
    set_capacity this new_capacity ;;
    set_size this (wrap (sz + 1)) ;;
    b <- begin this ;;
    ArrayPtr_dtor tmp ;;
    ret (b +ₚ p).

Definition PopBack (this : vid) : M T unit :=
  sz <- get_size this ;;
  assert_ (bool_decide (sz ≠ 0)) ;;
  set_size this (wrap (sz - 1)).

Definition Erase (this : vid) (pos : ptr) : M T ptr :=
  b <- begin this ;;
  e <- end_ this ;;
  assert_ (ptr_leb b pos && ptr_ltb pos e) ;;
  p <- ptr_diff pos b ;;
  std_copy true (b +ₚ p +ₚ 1) e (b +ₚ p) ;;
  sz <- get_size this ;;
  set_size this (wrap (sz - 1)) ;;
  b <- begin this ;;
  ret (b +ₚ p).

(** [swap(SimpleVector& other)]: three [std::swap]s, member by member. *)
Definition swap (this other : vid) : M T unit :=
  a <- get_items this ;;
  oa <- get_items other ;;
  set_items other a ;;
  set_items this oa ;;
  n <- get_size this ;;
  on <- get_size other ;;
  set_size this on ;;
  set_size other n ;;
  c <- get_capacity this ;;
  oc <- get_capacity other ;;
  set_capacity this oc ;;
  set_capacity other c.

Definition Reserve (this : vid) (new_capacity : Z) : M T unit :=
  cap <- get_capacity this ;;
  if decide (new_capacity <= cap) then ret tt
  else
    tmp <- ArrayPtr_ctor new_capacity ;;
    b <- begin this ;;
    e <- end_ this ;;
    std_copy false b e (ArrayPtr_index tmp 0) ;;
    tmp <- ArrayPtr_swap_items tmp this ;;
    set_capacity this new_capacity ;;
    ArrayPtr_dtor tmp.

(** [SimpleVector(const ReserveProxyObj& obj)] *)
Definition SimpleVector_reserved (this : vid) (obj : ReserveProxyObj) : M T unit :=
  SimpleVector_default this ;;
  unwinding (Reserve this (ReserveProxyObj_GetCapacity obj)) (SimpleVector_dtor this).

(** *** Comparison operators *)

Definition op_eq (lhs rhs : vid) : M T bool :=
  n <- GetSize lhs ;;
  m <- GetSize rhs ;;
  if decide (n = m) then
    b <- begin lhs ;;
    e <- end_ lhs ;;
    b' <- begin rhs ;;
    std_equal b e b'
  else ret false.

Definition op_ne (lhs rhs : vid) : M T bool :=
  r <- op_eq lhs rhs ;; ret (negb r).

Definition op_lt (lhs rhs : vid) : M T bool :=
  b <- begin lhs ;;
  e <- end_ lhs ;;
  b' <- begin rhs ;;
  e' <- end_ rhs ;;
  std_lexicographical_compare b e b' e'.

Definition op_le (lhs rhs : vid) : M T bool :=
  r <- op_lt rhs lhs ;; ret (negb r).

Definition op_gt (lhs rhs : vid) : M T bool := op_lt rhs lhs.

Definition op_ge (lhs rhs : vid) : M T bool :=
  r <- op_lt lhs rhs ;; ret (negb r).
End simple_vector.

(** ** Observations on a state *)

Section observations.
Context {T : Type} {E : Element T} {B : Build}.

(** The array a vector's [items_] owns: empty for the null pointer, the
    block's contents for a pointer to the start of a live block. *)
Definition buffer_of (σ : state T) (sv : SimpleVector) : option (list T) :=
  let p := raw_ptr_ (items_ sv) in
  if bool_decide (off p = 0) then
    match blk p with
    | None => Some []
    | Some l => heap σ !! l
    end
  else None.

(** The number of storage slots allocated in the backing buffer. *)
Definition slots (σ : state T) (v : vid) : Z :=
  match vecs σ !! v with
  | Some sv =>
      match buffer_of σ sv with
      | Some buf => Z.of_nat (length buf)
      | None => 0
      end
  | None => 0
  end.

(** The class invariant: [0 ≤ size_ ≤ capacity_], and [capacity_] is the
    number of slots of the owned array. *)
Definition validb (σ : state T) (v : vid) : bool :=
  match vecs σ !! v with
  | Some sv =>
      match buffer_of σ sv with
      | Some buf =>
          (0 <=? size_ sv) && (size_ sv <=? capacity_ sv)
          && (capacity_ sv =? Z.of_nat (length buf))
          && (capacity_ sv <=? max_slots)
      | None => false
      end
  | None => false
  end.

Definition valid (σ : state T) (v : vid) : Prop := validb σ v = true.

(** Vector [v] has size [sz], capacity [cap] and owns an array holding
    [buf]. *)
Definition holds (σ : state T) (v : vid) (sz cap : Z) (buf : list T) : Prop :=
  ∃ a, vecs σ !! v = Some (mkSimpleVector a sz cap)
       ∧ buffer_of σ (mkSimpleVector a sz cap) = Some buf.

(** The live elements, in order. *)
Definition contents (σ : state T) (v : vid) : list T :=
  match vecs σ !! v with
  | Some sv =>
      match buffer_of σ sv with
      | Some buf => take (Z.to_nat (size_ sv)) buf
      | None => []
      end
  | None => []
  end.

(** Reading through the reference [At] returns. *)
Definition read_at (this : vid) (index : Z) : M T T :=
  r <- At this index ;; load r.

(** Whether the next [new Type[n]()] succeeds. *)
Definition will_allocate (σ : state T) (n : Z) : bool :=
  bool_decide (n ≤ max_slots) &&
  match head (plan σ) with
  | Some new_no_memory | Some new_ctor_throws => false
  | _ => true
  end.

(** The reallocating operations, as one family. *)
Inductive growth :=
| grow_Resize (new_size : Z)
| grow_Reserve (new_capacity : Z)
| grow_PushBack (item : T)
| grow_Insert (pos : ptr) (value : T).

Definition run_growth (this : vid) (g : growth) : M T unit :=
  match g with
  | grow_Resize new_size => Resize this new_size
  | grow_Reserve new_capacity => Reserve this new_capacity
  | grow_PushBack item => PushBack this item
  | grow_Insert pos value => Insert this pos value ;; ret tt
  end.

(** *** What the copying loops leave in a buffer *)

(** [dst] after [n] elements of [src] from index [s] were assigned to it
    from index [d]. *)
Definition blit (src : list T) (s : nat) (dst : list T) (d n : nat) : list T :=
  imap (λ j y, if decide (d ≤ j < d + n)%nat
               then default y (src !! (j - d + s)%nat) else y) dst.

(** [src] after [n] elements from index [s] were moved out of it. *)
Definition mark_moved (src : list T) (s n : nat) : list T :=
  imap (λ j y, if decide (s ≤ j < s + n)%nat then moved_from y else y) src.

(** [buf] after the [n] elements from index [i + 1] were moved one slot
    down. *)
Definition shift_left (buf : list T) (i n : nat) : list T :=
  imap (λ j y, if decide (i ≤ j < i + n)%nat then default y (buf !! S j)
               else if decide (j = i + n ∧ 0 < n)%nat then moved_from y
               else y) buf.

(** [buf] after the [n] elements from index [s] were moved one slot up,
    last one first. *)
Definition shift_right (buf : list T) (s n : nat) : list T :=
  imap (λ j y, if decide (s < j ≤ s + n)%nat then default y (buf !! pred j)
               else if decide (j = s ∧ 0 < n)%nat then moved_from y
               else y) buf.

(** *** Comparisons of element lists *)

(** What [std::equal] computes on two ranges of the same length. *)
Fixpoint equal_lists (l1 l2 : list T) : bool :=
  match l1, l2 with
  | x :: l1', y :: l2' => if T_eqb x y then equal_lists l1' l2' else false
  | _, _ => true
  end.

(** What [std::lexicographical_compare] computes. *)
Fixpoint lex_lists (l1 l2 : list T) : bool :=
  match l1, l2 with
  | x :: l1', y :: l2' =>
      if T_ltb x y then true
      else if T_ltb y x then false
      else lex_lists l1' l2'
  | [], _ :: _ => true
  | _, [] => false
  end.

(** Same size and pairwise-equal elements in order. *)
Definition pairwise_equal (l1 l2 : list T) : Prop :=
  length l1 = length l2 ∧
  ∀ i x y, l1 !! i = Some x → l2 !! i = Some y → T_eqb x y = true.

(** The lexicographic order: after a common prefix of [k] elements none of
    which is below its counterpart, either the first list ends and the
    second does not, or the first list's next element is the smaller. *)
Definition lex_less (l1 l2 : list T) : Prop :=
  ∃ k : nat,
    (∀ i x y, (i < k)%nat → l1 !! i = Some x → l2 !! i = Some y →
              T_ltb x y = false ∧ T_ltb y x = false) ∧
    (k ≤ length l1)%nat ∧ (k ≤ length l2)%nat ∧
    ((k = length l1 ∧ (k < length l2)%nat) ∨
     (∃ x y, l1 !! k = Some x ∧ l2 !! k = Some y ∧ T_ltb x y = true)).

(** *** How a computation may end *)

(** [m] never throws. *)
Definition no_throw {A} (m : M T A) : Prop :=
  ∀ σ e σ', m σ ≠ (Throw e, σ').

(** [m] leaves the state as it found it, however it ends. *)
Definition reader {A} (m : M T A) : Prop :=
  ∀ σ r σ', m σ = (r, σ') → σ' = σ.

(** When [m] throws, no array and no vector object has changed. *)
Definition atomic {A} (m : M T A) : Prop :=
  ∀ σ e σ', m σ = (Throw e, σ') → heap σ' = heap σ ∧ vecs σ' = vecs σ.

(** The elements of [l] can be read in order from [p] on. *)
Fixpoint reads (σ : state T) (p : ptr) (l : list T) : Prop :=
  match l with
  | [] => True
  | x :: l' => load p σ = (Ret x, σ) ∧ reads σ (p +ₚ 1) l'
  end.
End observations.

(** ** Sample builds and states *)

Definition debug_build : Build := {| NDEBUG := false |}.
Definition release_build : Build := {| NDEBUG := true |}.

Definition no_objects : state Z := mkState ∅ ∅ [].

(** Vector 1 is [{1, 2, 3}] with capacity 3. *)
Definition full_of_three : state Z :=
  mkState {[ 1%positive := [1; 2; 3] ]}
          {[ 1%positive := mkSimpleVector (mkArrayPtr (Ptr (Some 1%positive) 0)) 3 3 ]}
          [].

(** Vector 1 is [{1, 2, 3}] with capacity 4, vector 2 is [{1, 5}] with
    capacity 2. *)
Definition two_vectors : state Z :=
  mkState {[ 1%positive := [1; 2; 3; 0]; 2%positive := [1; 5] ]}
          {[ 1%positive := mkSimpleVector (mkArrayPtr (Ptr (Some 1%positive) 0)) 3 4;
             2%positive := mkSimpleVector (mkArrayPtr (Ptr (Some 2%positive) 0)) 2 2 ]}
          [].

(** Vector 1 is empty with capacity 4. *)
Definition cleared : state Z :=
  mkState {[ 1%positive := [1; 2; 3; 0] ]}
          {[ 1%positive := mkSimpleVector (mkArrayPtr (Ptr (Some 1%positive) 0)) 0 4 ]}
          [].

(** [full_of_three] when the next allocation finds no memory. *)
Definition out_of_memory : state Z :=
  mkState (heap full_of_three) (vecs full_of_three) [new_no_memory].

(** * Properties *)

(** ** Machine integers *)

Lemma wrap_small z : 0 ≤ z < size_t_modulus → wrap z = z.
Proof. intros Hz. unfold wrap. by apply Z.mod_small. Qed.

Lemma max_slots_double z : 0 ≤ z ≤ max_slots → wrap (2 * z) = 2 * z.
Proof.
  intros Hz. apply wrap_small. unfold max_slots, size_t_modulus in *. lia.
Qed.

Lemma max_slots_succ z : 0 ≤ z ≤ max_slots → wrap (z + 1) = z + 1.
Proof.
  intros Hz. apply wrap_small. unfold max_slots, size_t_modulus in *. lia.
Qed.

(** ** Running computations *)

Section running.
Context {T : Type} {E : Element T}.
Implicit Types (h : gmap loc (list T)) (vs : gmap vid SimpleVector).
Implicit Types (pl : list new_outcome) (buf bs bd : list T).

Lemma bind_Ret {A B} (m : M T A) (f : A → M T B) (σ σ' : state T) a :
  m σ = (Ret a, σ') → bind m f σ = f a σ'.
Proof. unfold bind. by intros ->. Qed.

Lemma bind_Throw {A B} (m : M T A) (f : A → M T B) (σ σ' : state T) e :
  m σ = (Throw e, σ') → bind m f σ = (Throw e, σ').
Proof. unfold bind. by intros ->. Qed.

Lemma load_ok h vs pl l buf i x :
  h !! l = Some buf → 0 ≤ i → buf !! Z.to_nat i = Some x →
  load (Ptr (Some l) i) (mkState h vs pl) = (Ret x, mkState h vs pl).
Proof.
  intros Hl Hi Hx. unfold load, slot; simpl. rewrite Hl.
  apply lookup_lt_Some in Hx as Hlt.
  rewrite bool_decide_eq_true_2 by lia. by rewrite Hx.
Qed.

Lemma store_ok h vs pl l buf i x :
  h !! l = Some buf → 0 ≤ i < Z.of_nat (length buf) →
  store (Ptr (Some l) i) x (mkState h vs pl)
  = (Ret tt, mkState (<[l := <[Z.to_nat i := x]> buf]> h) vs pl).
Proof.
  intros Hl Hi. unfold store, slot; simpl. rewrite Hl.
  by rewrite bool_decide_eq_true_2 by lia.
Qed.

Lemma distance_ok (σ : state T) b s e :
  s ≤ e → distance (Ptr b s) (Ptr b e) σ = (Ret (Z.to_nat (e - s)), σ).
Proof.
  intros Hse. unfold distance; simpl.
  by rewrite bool_decide_eq_true_2 by done.
Qed.

(** One assignment between two different blocks. *)
Lemma assign_blocks moving h vs pl ls ld bs bd s d x :
  ls ≠ ld → h !! ls = Some bs → h !! ld = Some bd →
  0 ≤ s → bs !! Z.to_nat s = Some x → 0 ≤ d < Z.of_nat (length bd) →
  assign moving (Ptr (Some ld) d) (Ptr (Some ls) s) (mkState h vs pl)
  = (Ret tt,
     mkState (<[ls := if moving then <[Z.to_nat s := moved_from x]> bs else bs]>
                (<[ld := <[Z.to_nat d := x]> bd]> h)) vs pl).
Proof.
  intros Hne Hs Hd Hs0 Hx Hd0. unfold assign.
  erewrite bind_Ret by (eapply load_ok; eauto).
  erewrite bind_Ret by (eapply store_ok; eauto).
  destruct moving.
  - erewrite store_ok; [done| |].
    + by rewrite lookup_insert_ne.
    + apply lookup_lt_Some in Hx. lia.
  - unfold ret. do 2 f_equal.
    symmetry. apply insert_id. by rewrite lookup_insert_ne.
Qed.

(** One move within a block, between two different slots. *)
Lemma assign_within h vs pl l buf s d x :
  h !! l = Some buf → s ≠ d →
  0 ≤ s → buf !! Z.to_nat s = Some x → 0 ≤ d < Z.of_nat (length buf) →
  assign true (Ptr (Some l) d) (Ptr (Some l) s) (mkState h vs pl)
  = (Ret tt,
     mkState (<[l := <[Z.to_nat s := moved_from x]> (<[Z.to_nat d := x]> buf)]> h)
             vs pl).
Proof.
  intros Hl Hne Hs0 Hx Hd0. unfold assign.
  erewrite bind_Ret by (eapply load_ok; eauto).
  erewrite bind_Ret by (eapply store_ok; eauto).
  erewrite store_ok.
  - by rewrite insert_insert_eq.
  - by rewrite lookup_insert_eq.
  - rewrite length_insert. apply lookup_lt_Some in Hx. lia.
Qed.
End running.

Ltac lookup_cases :=
  repeat match goal with
  | |- context [?l !! ?k] =>
      let E := fresh "E" in
      destruct (l !! k) eqn:E;
      [ apply lookup_lt_Some in E as ? | apply lookup_ge_None in E as ? ]
  end;
  simplify_eq/=; try done; try lia;
  try match goal with
  | E1 : ?l !! ?a = Some _, E2 : ?l !! ?b = Some _ |- _ =>
      replace a with b in E1 by lia; congruence
  end.

(** ** The copying loops *)

Section buffers.
Context {T : Type} {E : Element T}.
Implicit Types (src dst buf : list T).

Lemma blit_0 src s dst d : blit src s dst d 0 = dst.
Proof.
  apply list_eq; intros j. unfold blit. rewrite list_lookup_imap.
  destruct (dst !! j); simpl; [|done]. case_decide; [lia|done].
Qed.

Lemma mark_moved_0 src s : mark_moved src s 0 = src.
Proof.
  apply list_eq; intros j. unfold mark_moved. rewrite list_lookup_imap.
  destruct (src !! j); simpl; [|done]. case_decide; [lia|done].
Qed.

Lemma blit_src_insert src i z s dst d n :
  (i < s)%nat → blit (<[i := z]> src) s dst d n = blit src s dst d n.
Proof.
  intros Hi. apply list_eq; intros j. unfold blit. rewrite !list_lookup_imap.
  destruct (dst !! j); simpl; [|done]. case_decide; [|done].
  by rewrite list_lookup_insert_ne by lia.
Qed.

Lemma blit_S src s dst d n x :
  src !! s = Some x → (d < length dst)%nat →
  blit src (S s) (<[d := x]> dst) (S d) n = blit src s dst d (S n).
Proof.
  intros Hx Hd. apply list_eq; intros j. unfold blit. rewrite !list_lookup_imap.
  destruct (decide (j = d)) as [->|Hne].
  - rewrite list_lookup_insert_eq by done.
    destruct (lookup_lt_is_Some_2 dst d Hd) as [y Hy]. rewrite Hy. simpl.
    rewrite decide_False by lia. rewrite decide_True by lia.
    replace (d - d + s)%nat with s by lia. by rewrite Hx.
  - rewrite list_lookup_insert_ne by done.
    destruct (dst !! j); simpl; [|done].
    repeat case_decide; try lia; try done.
    by replace (j - S d + S s)%nat with (j - d + s)%nat by lia.
Qed.

Lemma mark_moved_S src s n x :
  src !! s = Some x →
  mark_moved (<[s := moved_from x]> src) (S s) n = mark_moved src s (S n).
Proof.
  intros Hx. apply list_eq; intros j. unfold mark_moved. rewrite !list_lookup_imap.
  destruct (decide (j = s)) as [->|Hne].
  - rewrite list_lookup_insert_eq by (by eapply lookup_lt_Some).
    rewrite Hx. simpl. rewrite decide_False by lia. by rewrite decide_True by lia.
  - rewrite list_lookup_insert_ne by done.
    destruct (src !! j); simpl; [|done].
    repeat case_decide; try lia; done.
Qed.

Lemma length_blit src s dst d n : length (blit src s dst d n) = length dst.
Proof. apply length_imap. Qed.
Lemma length_mark_moved src s n : length (mark_moved src s n) = length src.
Proof. apply length_imap. Qed.

Lemma heap_two_inserts (h : gmap loc (list T)) ls ld A B C D :
  ls ≠ ld →
  <[ld := A]> (<[ls := B]> (<[ls := C]> (<[ld := D]> h)))
  = <[ld := A]> (<[ls := B]> h).
Proof.
  intros Hne. apply map_eq; intros k. rewrite !lookup_insert.
  repeat case_decide; congruence.
Qed.

Lemma copy_loop_blocks moving vs pl ls ld n : ∀ h s d bs bd,
  ls ≠ ld → h !! ls = Some bs → h !! ld = Some bd →
  0 ≤ s → 0 ≤ d →
  s + Z.of_nat n ≤ Z.of_nat (length bs) → d + Z.of_nat n ≤ Z.of_nat (length bd) →
  copy_loop moving n (Ptr (Some ls) s) (Ptr (Some ld) d) (mkState h vs pl)
  = (Ret tt,
     mkState (<[ld := blit bs (Z.to_nat s) bd (Z.to_nat d) n]>
                (<[ls := if moving then mark_moved bs (Z.to_nat s) n else bs]> h))
             vs pl).
Proof.
  induction n as [|n IH]; intros h s d bs bd Hne Hs Hd Hs0 Hd0 Hsn Hdn.
  - simpl. unfold ret. do 2 f_equal.
    rewrite blit_0.
    replace (if moving then mark_moved bs (Z.to_nat s) 0 else bs) with bs
      by (destruct moving; by rewrite ?mark_moved_0).
    rewrite (insert_id h ls bs) by done.
    by rewrite insert_id.
  - simpl.
    destruct (lookup_lt_is_Some_2 bs (Z.to_nat s)) as [x Hx]; [lia|].
    erewrite bind_Ret by (eapply assign_blocks; eauto; lia).
    unfold ptr_add; simpl.
    set (bs1 := if moving then <[Z.to_nat s := moved_from x]> bs else bs).
    assert (length bs1 = length bs) as Hlen
      by (unfold bs1; destruct moving; by rewrite ?length_insert).
    rewrite (IH _ (s + 1) (d + 1) bs1 (<[Z.to_nat d := x]> bd));
      [ | done | by rewrite lookup_insert_eq
        | by rewrite lookup_insert_ne, lookup_insert_eq
        | lia | lia | lia | rewrite length_insert; lia ].
    rewrite heap_two_inserts by done.
    replace (Z.to_nat (s + 1)) with (S (Z.to_nat s)) by lia.
    replace (Z.to_nat (d + 1)) with (S (Z.to_nat d)) by lia.
    do 3 f_equal.
    + unfold bs1. destruct moving.
      * rewrite blit_src_insert by lia. apply blit_S; [done|lia].
      * apply blit_S; [done|lia].
    + unfold bs1. destruct moving; [|done].
      f_equal. by apply mark_moved_S.
Qed.

Lemma blit_src_insert_ge src i z s dst d n :
  (s + n ≤ i)%nat → blit (<[i := z]> src) s dst d n = blit src s dst d n.
Proof.
  intros Hi. apply list_eq; intros j. unfold blit. rewrite !list_lookup_imap.
  destruct (dst !! j); simpl; [|done]. case_decide; [|done].
  by rewrite list_lookup_insert_ne by lia.
Qed.

Lemma blit_snoc src s dst d n x :
  src !! (s + n)%nat = Some x → (d + n < length dst)%nat →
  blit src s (<[(d + n)%nat := x]> dst) d n = blit src s dst d (S n).
Proof.
  intros Hx Hd. apply list_eq; intros j. unfold blit. rewrite !list_lookup_imap.
  destruct (decide (j = d + n)%nat) as [->|Hne].
  - rewrite list_lookup_insert_eq by done.
    destruct (lookup_lt_is_Some_2 dst (d + n)%nat Hd) as [y Hy]. rewrite Hy. simpl.
    rewrite decide_False by lia. rewrite decide_True by lia.
    replace (d + n - d + s)%nat with (s + n)%nat by lia. by rewrite Hx.
  - rewrite list_lookup_insert_ne by done.
    destruct (dst !! j); simpl; [|done].
    repeat case_decide; try lia; done.
Qed.

Lemma mark_moved_snoc src s n x :
  src !! (s + n)%nat = Some x →
  mark_moved (<[(s + n)%nat := moved_from x]> src) s n = mark_moved src s (S n).
Proof.
  intros Hx. apply list_eq; intros j. unfold mark_moved. rewrite !list_lookup_imap.
  destruct (decide (j = s + n)%nat) as [->|Hne].
  - rewrite list_lookup_insert_eq by (by eapply lookup_lt_Some).
    rewrite Hx. simpl. rewrite decide_False by lia. by rewrite decide_True by lia.
  - rewrite list_lookup_insert_ne by done.
    destruct (src !! j); simpl; [|done].
    repeat case_decide; try lia; done.
Qed.

Lemma copy_backward_loop_blocks moving vs pl ls ld n : ∀ h s d bs bd,
  ls ≠ ld → h !! ls = Some bs → h !! ld = Some bd →
  0 ≤ s → 0 ≤ d →
  s + Z.of_nat n ≤ Z.of_nat (length bs) → d + Z.of_nat n ≤ Z.of_nat (length bd) →
  copy_backward_loop moving n (Ptr (Some ls) (s + Z.of_nat n))
    (Ptr (Some ld) (d + Z.of_nat n)) (mkState h vs pl)
  = (Ret tt,
     mkState (<[ld := blit bs (Z.to_nat s) bd (Z.to_nat d) n]>
                (<[ls := if moving then mark_moved bs (Z.to_nat s) n else bs]> h))
             vs pl).
Proof.
  induction n as [|n IH]; intros h s d bs bd Hne Hs Hd Hs0 Hd0 Hsn Hdn.
  - simpl. unfold ret. do 2 f_equal.
    rewrite blit_0.
    replace (if moving then mark_moved bs (Z.to_nat s) 0 else bs) with bs
      by (destruct moving; by rewrite ?mark_moved_0).
    rewrite (insert_id h ls bs) by done.
    by rewrite insert_id.
  - simpl copy_backward_loop. unfold ptr_add; simpl blk; simpl off.
    replace (s + Z.of_nat (S n) + -1) with (s + Z.of_nat n) by lia.
    replace (d + Z.of_nat (S n) + -1) with (d + Z.of_nat n) by lia.
    destruct (lookup_lt_is_Some_2 bs (Z.to_nat (s + Z.of_nat n))) as [x Hx]; [lia|].
    erewrite bind_Ret by (eapply assign_blocks; eauto; lia).
    set (bs1 := if moving then <[Z.to_nat (s + Z.of_nat n) := moved_from x]> bs else bs).
    assert (length bs1 = length bs) as Hlen
      by (unfold bs1; destruct moving; by rewrite ?length_insert).
    rewrite (IH _ s d bs1 (<[Z.to_nat (d + Z.of_nat n) := x]> bd));
      [ | done | by rewrite lookup_insert_eq
        | by rewrite lookup_insert_ne, lookup_insert_eq
        | lia | lia | lia | rewrite length_insert; lia ].
    rewrite heap_two_inserts by done.
    subst bs1.
    replace (Z.to_nat (s + Z.of_nat n)) with (Z.to_nat s + n)%nat in * by lia.
    replace (Z.to_nat (d + Z.of_nat n)) with (Z.to_nat d + n)%nat in * by lia.
    do 3 f_equal.
    + destruct moving.
      * rewrite blit_src_insert_ge by lia. apply blit_snoc; [done|lia].
      * apply blit_snoc; [done|lia].
    + destruct moving; [|done].
      f_equal. by apply mark_moved_snoc.
Qed.

Lemma shift_left_0 buf i : shift_left buf i 0 = buf.
Proof.
  apply list_eq; intros j. unfold shift_left. rewrite list_lookup_imap.
  destruct (buf !! j); simpl; [|done]. repeat case_decide; try lia; done.
Qed.

Lemma shift_right_0 buf s : shift_right buf s 0 = buf.
Proof.
  apply list_eq; intros j. unfold shift_right. rewrite list_lookup_imap.
  destruct (buf !! j); simpl; [|done]. repeat case_decide; try lia; done.
Qed.

Lemma shift_left_S buf i n x :
  buf !! S i = Some x → (S (S i) + n ≤ length buf)%nat →
  shift_left (<[S i := moved_from x]> (<[i := x]> buf)) (S i) n
  = shift_left buf i (S n).
Proof.
  intros Hx Hlen. apply lookup_lt_Some in Hx as Hlt.
  apply list_eq; intros j. unfold shift_left. rewrite !list_lookup_imap.
  rewrite ?list_lookup_insert. rewrite ?length_insert.
  repeat case_decide; destruct_and?; simplify_eq/=; try lia; lookup_cases.
Qed.

Lemma shift_right_S buf s n x :
  buf !! (s + n)%nat = Some x → (S (s + n) < length buf)%nat →
  shift_right (<[(s + n)%nat := moved_from x]> (<[S (s + n) := x]> buf)) s n
  = shift_right buf s (S n).
Proof.
  intros Hx Hlt.
  apply list_eq; intros j. unfold shift_right. rewrite !list_lookup_imap.
  rewrite ?list_lookup_insert. rewrite ?length_insert.
  repeat case_decide; destruct_and?; simplify_eq/=; try lia; lookup_cases.
Qed.

Lemma copy_loop_shift_left vs pl l n : ∀ h i buf,
  h !! l = Some buf → 0 ≤ i →
  i + 1 + Z.of_nat n ≤ Z.of_nat (length buf) →
  copy_loop true n (Ptr (Some l) (i + 1)) (Ptr (Some l) i) (mkState h vs pl)
  = (Ret tt, mkState (<[l := shift_left buf (Z.to_nat i) n]> h) vs pl).
Proof.
  induction n as [|n IH]; intros h i buf Hl Hi Hn.
  - simpl. unfold ret. rewrite shift_left_0. by rewrite insert_id.
  - simpl.
    destruct (lookup_lt_is_Some_2 buf (Z.to_nat (i + 1))) as [x Hx]; [lia|].
    erewrite bind_Ret by (eapply assign_within; eauto; lia).
    unfold ptr_add; simpl.
    rewrite (IH _ (i + 1) (<[Z.to_nat (i + 1) := moved_from x]> (<[Z.to_nat i := x]> buf)));
      [ | by rewrite lookup_insert_eq | lia | rewrite !length_insert; lia ].
    rewrite insert_insert_eq.
    replace (Z.to_nat (i + 1)) with (S (Z.to_nat i)) in * by lia.
    rewrite shift_left_S; [done..|lia].
Qed.

Lemma copy_backward_loop_shift_right vs pl l n : ∀ h s buf,
  h !! l = Some buf → 0 ≤ s →
  s + Z.of_nat n + 1 ≤ Z.of_nat (length buf) →
  copy_backward_loop true n (Ptr (Some l) (s + Z.of_nat n))
    (Ptr (Some l) (s + Z.of_nat n + 1)) (mkState h vs pl)
  = (Ret tt, mkState (<[l := shift_right buf (Z.to_nat s) n]> h) vs pl).
Proof.
  induction n as [|n IH]; intros h s buf Hl Hs Hn.
  - simpl. unfold ret. rewrite shift_right_0. by rewrite insert_id.
  - simpl copy_backward_loop. unfold ptr_add; simpl blk; simpl off.
    replace (s + Z.of_nat (S n) + -1) with (s + Z.of_nat n) by lia.
    replace (s + Z.of_nat (S n) + 1 + -1) with (s + Z.of_nat n + 1) by lia.
    destruct (lookup_lt_is_Some_2 buf (Z.to_nat (s + Z.of_nat n))) as [x Hx]; [lia|].
    erewrite bind_Ret by (eapply assign_within; eauto; lia).
    rewrite (IH _ s (<[Z.to_nat (s + Z.of_nat n) := moved_from x]>
                       (<[Z.to_nat (s + Z.of_nat n + 1) := x]> buf)));
      [ | by rewrite lookup_insert_eq | lia | rewrite !length_insert; lia ].
    rewrite insert_insert_eq.
    replace (Z.to_nat (s + Z.of_nat n + 1)) with (S (Z.to_nat s + n)) in * by lia.
    replace (Z.to_nat (s + Z.of_nat n)) with (Z.to_nat s + n)%nat in * by lia.
    rewrite shift_right_S; [done..|lia].
Qed.
End buffers.

(** ** Members, iterators, allocation *)

Section members.
Context {T : Type} {E : Element T}.
Implicit Types (h : gmap loc (list T)) (vs : gmap vid SimpleVector).
Implicit Types (pl : list new_outcome) (buf bs bd : list T) (sv : SimpleVector).

Lemma get_vec_ok h vs pl v sv :
  vs !! v = Some sv → get_vec v (mkState h vs pl) = (Ret sv, mkState h vs pl).
Proof. intros Hv. unfold get_vec; simpl. by rewrite Hv. Qed.

Lemma get_items_ok h vs pl v sv :
  vs !! v = Some sv →
  get_items v (mkState h vs pl) = (Ret (items_ sv), mkState h vs pl).
Proof. intros Hv. unfold get_items. by erewrite bind_Ret by by apply get_vec_ok. Qed.

Lemma get_size_ok h vs pl v sv :
  vs !! v = Some sv →
  get_size v (mkState h vs pl) = (Ret (size_ sv), mkState h vs pl).
Proof. intros Hv. unfold get_size. by erewrite bind_Ret by by apply get_vec_ok. Qed.

Lemma get_capacity_ok h vs pl v sv :
  vs !! v = Some sv →
  get_capacity v (mkState h vs pl) = (Ret (capacity_ sv), mkState h vs pl).
Proof. intros Hv. unfold get_capacity. by erewrite bind_Ret by by apply get_vec_ok. Qed.

Lemma set_items_ok h vs pl v sv a :
  vs !! v = Some sv →
  set_items v a (mkState h vs pl)
  = (Ret tt, mkState h (<[v := mkSimpleVector a (size_ sv) (capacity_ sv)]> vs) pl).
Proof. intros Hv. unfold set_items. by erewrite bind_Ret by by apply get_vec_ok. Qed.

Lemma set_size_ok h vs pl v sv n :
  vs !! v = Some sv →
  set_size v n (mkState h vs pl)
  = (Ret tt, mkState h (<[v := mkSimpleVector (items_ sv) n (capacity_ sv)]> vs) pl).
Proof. intros Hv. unfold set_size. by erewrite bind_Ret by by apply get_vec_ok. Qed.

Lemma set_capacity_ok h vs pl v sv n :
  vs !! v = Some sv →
  set_capacity v n (mkState h vs pl)
  = (Ret tt, mkState h (<[v := mkSimpleVector (items_ sv) (size_ sv) n]> vs) pl).
Proof. intros Hv. unfold set_capacity. by erewrite bind_Ret by by apply get_vec_ok. Qed.

Lemma begin_ok h vs pl v sv :
  vs !! v = Some sv →
  begin v (mkState h vs pl)
  = (Ret (if decide (size_ sv = 0) then nullptr else raw_ptr_ (items_ sv) +ₚ 0),
     mkState h vs pl).
Proof.
  intros Hv. unfold begin. erewrite bind_Ret by by apply get_size_ok.
  case_decide; [done|]. by erewrite bind_Ret by by apply get_items_ok.
Qed.

Lemma end_ok h vs pl v sv :
  vs !! v = Some sv →
  end_ v (mkState h vs pl)
  = (Ret (if decide (size_ sv = 0) then nullptr
          else raw_ptr_ (items_ sv) +ₚ 0 +ₚ size_ sv),
     mkState h vs pl).
Proof.
  intros Hv. unfold end_. erewrite bind_Ret by by apply get_size_ok.
  case_decide; [done|]. by erewrite bind_Ret by by apply get_items_ok.
Qed.

Lemma ArrayPtr_swap_items_ok h vs pl v sv tmp :
  vs !! v = Some sv →
  ArrayPtr_swap_items tmp v (mkState h vs pl)
  = (Ret (items_ sv),
     mkState h (<[v := mkSimpleVector tmp (size_ sv) (capacity_ sv)]> vs) pl).
Proof.
  intros Hv. unfold ArrayPtr_swap_items.
  erewrite bind_Ret by by apply get_items_ok.
  by erewrite bind_Ret by by apply set_items_ok.
Qed.

Lemma ArrayPtr_ctor_ok h vs pl n :
  n ≠ 0 → will_allocate (mkState h vs pl) n = true →
  ∃ l, h !! l = None ∧
    ArrayPtr_ctor n (mkState h vs pl)
    = (Ret (mkArrayPtr (Ptr (Some l) 0)),
       mkState (<[l := replicate (Z.to_nat n) T_default]> h) vs (tail pl)).
Proof.
  intros Hn Hal. exists (fresh (dom h)). split.
  { apply not_elem_of_dom, is_fresh. }
  unfold ArrayPtr_ctor. rewrite decide_False by done.
  unfold will_allocate in Hal. simpl in Hal.
  apply andb_prop in Hal as [Hmax Hplan]. apply bool_decide_eq_true in Hmax.
  unfold bind, new_array; simpl.
  rewrite bool_decide_eq_false_2 by lia.
  destruct (head pl) as [[]|]; done.
Qed.

Lemma ArrayPtr_dtor_null (σ : state T) :
  ArrayPtr_dtor (mkArrayPtr nullptr) σ = (Ret tt, σ).
Proof. done. Qed.

Lemma ArrayPtr_dtor_block h vs pl l buf :
  h !! l = Some buf →
  ArrayPtr_dtor (mkArrayPtr (Ptr (Some l) 0)) (mkState h vs pl)
  = (Ret tt, mkState (delete l h) vs pl).
Proof.
  intros Hl. unfold ArrayPtr_dtor, delete_array; simpl.
  by rewrite Hl.
Qed.

Lemma std_copy_null moving (σ : state T) d :
  std_copy moving nullptr nullptr d σ = (Ret tt, σ).
Proof. done. Qed.

Lemma std_copy_blocks moving h vs pl ls ld bs bd n :
  ls ≠ ld → h !! ls = Some bs → h !! ld = Some bd →
  0 ≤ n ≤ Z.of_nat (length bs) → n ≤ Z.of_nat (length bd) →
  std_copy moving (Ptr (Some ls) 0) (Ptr (Some ls) n) (Ptr (Some ld) 0)
    (mkState h vs pl)
  = (Ret tt,
     mkState (<[ld := blit bs 0 bd 0 (Z.to_nat n)]>
                (<[ls := if moving then mark_moved bs 0 (Z.to_nat n) else bs]> h))
             vs pl).
Proof.
  intros Hne Hs Hd Hn Hn'. unfold std_copy.
  erewrite bind_Ret by (apply distance_ok; lia).
  rewrite Z.sub_0_r.
  erewrite copy_loop_blocks by (done || lia). done.
Qed.

Lemma take_blit (src dst : list T) n :
  (n ≤ length src)%nat → (n ≤ length dst)%nat →
  take n (blit src 0 dst 0 n) = take n src.
Proof.
  intros Hs Hd. apply list_eq; intros j. unfold blit.
  destruct (decide (j < n)%nat).
  - rewrite !lookup_take_lt by done. rewrite list_lookup_imap.
    destruct (lookup_lt_is_Some_2 dst j) as [y Hy]; [lia|].
    destruct (lookup_lt_is_Some_2 src j) as [x Hx]; [lia|].
    rewrite Hy; simpl. rewrite decide_True by lia.
    replace (j - 0 + 0)%nat with j by lia. by rewrite Hx.
  - by rewrite !lookup_take_ge by lia.
Qed.

Lemma holds_inv h vs pl v sz cap buf :
  holds (mkState h vs pl) v sz cap buf →
  (vs !! v = Some (mkSimpleVector (mkArrayPtr nullptr) sz cap) ∧ buf = []) ∨
  (∃ l, vs !! v = Some (mkSimpleVector (mkArrayPtr (Ptr (Some l) 0)) sz cap)
        ∧ h !! l = Some buf).
Proof.
  intros ([[b o]] & Hv & Hb). unfold buffer_of in Hb; simpl in Hb.
  case_bool_decide; [subst o|done]. destruct b as [l|].
  - right. by exists l.
  - left. by simplify_eq.
Qed.
End members.

Ltac vlookup := first [ eassumption | apply lookup_insert_eq ].
Ltac prim :=
  first [ apply get_size_ok; vlookup | apply get_capacity_ok; vlookup
        | apply get_items_ok; vlookup | apply set_size_ok; vlookup
        | apply set_capacity_ok; vlookup | apply set_items_ok; vlookup
        | apply begin_ok; vlookup | apply end_ok; vlookup
        | apply ArrayPtr_swap_items_ok; vlookup ].
Ltac norm :=
  unfold ArrayPtr_index, ptr_add;
  cbn [size_ capacity_ items_ raw_ptr_ blk off];
  rewrite ?Z.add_0_l, ?Z.sub_0_r.
Ltac hlookup :=
  repeat first [ rewrite lookup_insert_ne by done
               | rewrite lookup_delete_ne by done ];
  first [ apply lookup_insert_eq | eassumption ].
Ltac step := erewrite bind_Ret by prim; norm.

(** ** The sequence operations *)

Section modifiers.
Context {T : Type} {E : Element T} {B : Build}.
Implicit Types (h : gmap loc (list T)) (vs : gmap vid SimpleVector).
Implicit Types (pl : list new_outcome) (buf bs bd : list T) (sv : SimpleVector).
Implicit Types (σ : state T).

Lemma holds_null h vs pl v sz cap :
  vs !! v = Some (mkSimpleVector (mkArrayPtr nullptr) sz cap) →
  holds (mkState h vs pl) v sz cap [].
Proof. intros Hv. by exists (mkArrayPtr nullptr). Qed.

Lemma holds_block h vs pl v l sz cap buf :
  vs !! v = Some (mkSimpleVector (mkArrayPtr (Ptr (Some l) 0)) sz cap) →
  h !! l = Some buf →
  holds (mkState h vs pl) v sz cap buf.
Proof. intros Hv Hl. by exists (mkArrayPtr (Ptr (Some l) 0)). Qed.

(** Copying a vector's live range to the start of another block; the
    range is given the way [begin] and [end_] return it. *)
Lemma std_copy_live moving h vs pl ls ld bs bd n :
  ls ≠ ld → h !! ls = Some bs → h !! ld = Some bd →
  0 ≤ n ≤ Z.of_nat (length bs) → n ≤ Z.of_nat (length bd) →
  std_copy moving
    (if decide (n = 0) then nullptr else Ptr (Some ls) 0 +ₚ 0)
    (if decide (n = 0) then nullptr else Ptr (Some ls) 0 +ₚ 0 +ₚ n)
    (Ptr (Some ld) 0) (mkState h vs pl)
  = (Ret tt,
     mkState (<[ld := blit bs 0 bd 0 (Z.to_nat n)]>
                (<[ls := if moving then mark_moved bs 0 (Z.to_nat n) else bs]> h))
             vs pl).
Proof.
  intros Hne Hs Hd Hn Hn'. case_decide as Hz.
  - subst n. rewrite std_copy_null. simpl. rewrite blit_0.
    replace (if moving then mark_moved bs 0 0 else bs) with bs
      by (destruct moving; by rewrite ?mark_moved_0).
    rewrite (insert_id h ls bs) by done. by rewrite insert_id.
  - unfold ptr_add; simpl. by apply std_copy_blocks.
Qed.

Lemma take_snoc_insert buf (n : nat) (x : T) :
  (n < length buf)%nat →
  take (S n) (<[n := x]> buf) = take n buf ++ [x].
Proof.
  intros Hn. erewrite take_S_r by (by apply list_lookup_insert_eq).
  by rewrite take_insert_ge by lia.
Qed.

Lemma PushBack_holds σ this item sz cap buf :
  holds σ this sz cap buf →
  0 ≤ sz ≤ cap → cap = Z.of_nat (length buf) → cap ≤ max_slots →
  (sz = cap → will_allocate σ (Z.max (2 * cap) 1) = true) →
  ∃ σ' cap' buf',
    PushBack this item σ = (Ret tt, σ') ∧
    holds σ' this (sz + 1) cap' buf' ∧
    cap' = Z.of_nat (length buf') ∧ sz + 1 ≤ cap' ≤ max_slots ∧
    take (Z.to_nat (sz + 1)) buf' = take (Z.to_nat sz) buf ++ [item].
Proof.
  destruct σ as [h vs pl]. intros Hh Hsz Hcap Hmax Hal.
  unfold PushBack.
  replace (Z.to_nat (sz + 1)) with (S (Z.to_nat sz)) by lia.
  apply holds_inv in Hh as [[Hv ->]|(l & Hv & Hl)].
  - (* nothing allocated yet *)
    simpl in Hcap. assert (sz = 0) as -> by lia. subst cap.
    do 2 step. rewrite decide_False by lia.
    destruct (ArrayPtr_ctor_ok h vs pl 1) as (l & Hfresh & Hctor);
      [done|by apply Hal|].
    change (Z.max (wrap (2 * 0)) 1) with 1.
    erewrite bind_Ret by exact Hctor.
    do 2 step. rewrite decide_True by done.
    erewrite bind_Ret by apply std_copy_null.
    erewrite bind_Ret by (eapply store_ok; [apply lookup_insert_eq|simpl; lia]).
    do 3 step. rewrite ArrayPtr_dtor_null.
    eexists _, 1, _. split; [done|]. split; [|split; [|split]].
    + eapply holds_block; [apply lookup_insert_eq|apply lookup_insert_eq].
    + done.
    + unfold max_slots. lia.
    + done.
  - destruct (decide (sz = cap)) as [Hfull|Hroom].
    + (* full: reallocate *)
      do 2 step. rewrite decide_False by lia.
      subst sz. rewrite max_slots_double by lia.
      remember (Z.max (2 * cap) 1) as new_capacity eqn:Hnc.
      assert (will_allocate (mkState h vs pl) new_capacity = true) as Hok
        by by apply Hal.
      destruct (ArrayPtr_ctor_ok h vs pl new_capacity) as (l' & Hfresh & Hctor);
        [lia|done|].
      assert (new_capacity ≤ max_slots) as Hnew.
      { unfold will_allocate in Hok. apply andb_prop in Hok as [Hok _].
        by apply bool_decide_eq_true in Hok. }
      assert (l ≠ l') as Hne by congruence.
      erewrite bind_Ret by exact Hctor.
      do 2 step.
      erewrite bind_Ret.
      2:{ apply (std_copy_live _ _ _ _ _ _ buf);
            [done|by rewrite lookup_insert_ne|apply lookup_insert_eq|lia|].
          rewrite length_replicate. lia. }
      norm.
      erewrite bind_Ret.
      2:{ eapply store_ok; [apply lookup_insert_eq|].
          rewrite length_blit, length_replicate. lia. }
      do 3 step.
      erewrite ArrayPtr_dtor_block.
      2:{ rewrite lookup_insert_ne by done. rewrite lookup_insert_ne by done.
          apply lookup_insert_eq. }
      rewrite max_slots_succ by lia.
      eexists _, new_capacity, _. split; [done|]. split; [|split; [|split]].
      * eapply holds_block; [apply lookup_insert_eq|].
        rewrite lookup_delete_ne by done. apply lookup_insert_eq.
      * rewrite length_insert, length_blit, length_replicate. lia.
      * lia.
      * rewrite take_snoc_insert.
        2:{ rewrite length_blit, length_replicate. lia. }
        f_equal. rewrite take_blit; [done|lia|rewrite length_replicate; lia].
    + (* room left: write in place *)
      do 2 step. rewrite decide_True by done.
      do 2 step.
      erewrite store_ok by (done || lia).
      rewrite max_slots_succ by lia.
      eexists _, cap, _. split; [done|]. split; [|split; [|split]].
      * eapply holds_block; [apply lookup_insert_eq|apply lookup_insert_eq].
      * rewrite length_insert. done.
      * lia.
      * apply take_snoc_insert. lia.
Qed.

(** *** From [holds] to what the public interface shows *)

Lemma valid_holds σ v :
  valid σ v ↔
  ∃ sz cap buf, holds σ v sz cap buf ∧ 0 ≤ sz ≤ cap
                ∧ cap = Z.of_nat (length buf) ∧ cap ≤ max_slots.
Proof.
  unfold valid, validb, holds. split.
  - destruct (vecs σ !! v) as [[a sz cap]|] eqn:Hv; [|done].
    destruct (buffer_of σ _) as [buf|] eqn:Hb; [|done].
    rewrite !andb_true_iff. intros [[[? ?] ?] ?].
    exists sz, cap, buf. split; [by exists a|]. simpl in *. lia.
  - intros (sz & cap & buf & (a & -> & ->) & ? & ? & ?).
    rewrite !andb_true_iff. simpl. lia.
Qed.

Lemma holds_GetSize σ v sz cap buf :
  holds σ v sz cap buf → GetSize v σ = (Ret sz, σ).
Proof.
  destruct σ. intros (a & Hv & _). unfold GetSize.
  by erewrite get_size_ok by done.
Qed.

Lemma holds_GetCapacity σ v sz cap buf :
  holds σ v sz cap buf → GetCapacity v σ = (Ret cap, σ).
Proof.
  destruct σ. intros (a & Hv & _). unfold GetCapacity.
  by erewrite get_capacity_ok by done.
Qed.

Lemma holds_contents σ v sz cap buf :
  holds σ v sz cap buf → contents σ v = take (Z.to_nat sz) buf.
Proof. intros (a & Hv & Hb). unfold contents. by rewrite Hv, Hb. Qed.

Lemma At_ok h vs pl v sv i :
  vs !! v = Some sv → i < size_ sv →
  At v i (mkState h vs pl) = (Ret (ArrayPtr_index (items_ sv) i), mkState h vs pl).
Proof.
  intros Hv Hi. unfold At. step. rewrite decide_False by lia. by step.
Qed.

Lemma At_throws h vs pl v sv i :
  vs !! v = Some sv → i >= size_ sv →
  At v i (mkState h vs pl)
  = (Throw (out_of_range "Method At(index): index >= size"), mkState h vs pl).
Proof.
  intros Hv Hi. unfold At. step. by rewrite decide_True by lia.
Qed.

Lemma holds_read_at σ v sz cap buf i x :
  holds σ v sz cap buf → 0 ≤ i < sz → buf !! Z.to_nat i = Some x →
  read_at v i σ = (Ret x, σ).
Proof.
  destruct σ as [h vs pl]. intros Hh Hi Hx. unfold read_at.
  apply holds_inv in Hh as [[Hv ->]|(l & Hv & Hl)]; [done|].
  erewrite bind_Ret by (eapply At_ok; [done|simpl; lia]).
  norm. by erewrite load_ok by (done || lia).
Qed.

Lemma holds_read_at_inv σ σ' v sz cap buf i x :
  holds σ v sz cap buf → 0 ≤ i → read_at v i σ = (Ret x, σ') →
  σ' = σ ∧ i < sz ∧ buf !! Z.to_nat i = Some x.
Proof.
  destruct σ as [h vs pl]. intros Hh Hi. unfold read_at.
  destruct (decide (i < sz)) as [Hlt|Hge].
  - apply holds_inv in Hh as [[Hv ->]|(l & Hv & Hl)].
    + erewrite bind_Ret by (eapply At_ok; [done|simpl; lia]). done.
    + erewrite bind_Ret by (eapply At_ok; [done|simpl; lia]).
      norm. unfold load, slot. simpl. rewrite Hl. case_bool_decide; [|done].
      destruct (buf !! Z.to_nat i) eqn:Hx; [|done].
      by intros [= -> <-].
  - destruct Hh as (a & Hv & _).
    erewrite bind_Throw by (eapply At_throws; [done|simpl; lia]). done.
Qed.

Lemma take_snoc_lookups buf buf' (n : nat) (x : T) :
  (n ≤ length buf)%nat → take (S n) buf' = take n buf ++ [x] →
  buf' !! n = Some x ∧ ∀ i, (i < n)%nat → buf' !! i = buf !! i.
Proof.
  intros Hn Heq. split.
  - rewrite <- (lookup_take_lt buf' (S n) n) by lia. rewrite Heq.
    rewrite lookup_app_r by (rewrite length_take; lia).
    rewrite length_take. by replace (n - n `min` length buf)%nat with 0%nat by lia.
  - intros i Hi. rewrite <- (lookup_take_lt buf' (S n) i) by lia. rewrite Heq.
    rewrite lookup_app_l by (rewrite length_take; lia).
    by rewrite lookup_take_lt by lia.
Qed.

(** C3. For every valid sequence and value, [PushBack] (given that the
    reallocation, when one is needed, gets its memory) returns with the
    size one larger, the value readable through [At] at the old size,
    every element below the old size unchanged, and a capacity that is
    at least the new size; the sequence is valid again. *)
Theorem PushBack_appends σ this item n c :
  valid σ this →
  GetSize this σ = (Ret n, σ) →
  GetCapacity this σ = (Ret c, σ) →
  (n = c → will_allocate σ (Z.max (2 * c) 1) = true) →
  ∃ σ', PushBack this item σ = (Ret tt, σ') ∧
        GetSize this σ' = (Ret (n + 1), σ') ∧
        read_at this n σ' = (Ret item, σ') ∧
        (∀ i, 0 ≤ i < n →
           ∃ x, read_at this i σ = (Ret x, σ) ∧ read_at this i σ' = (Ret x, σ')) ∧
        (∃ c', GetCapacity this σ' = (Ret c', σ') ∧ n + 1 ≤ c') ∧
        valid σ' this.
Proof.
  intros Hvalid Hn Hc Hal.
  apply valid_holds in Hvalid as (sz & cap & buf & Hh & Hsz & Hcap & Hmax).
  rewrite (holds_GetSize _ _ _ _ _ Hh) in Hn.
  rewrite (holds_GetCapacity _ _ _ _ _ Hh) in Hc.
  simplify_eq.
  destruct (PushBack_holds σ this item n (Z.of_nat (length buf)) buf)
    as (σ' & cap' & buf' & Hrun & Hh' & Hcap' & Hsz' & Htake); [done..|].
  replace (Z.to_nat (n + 1)) with (S (Z.to_nat n)) in Htake by lia.
  apply take_snoc_lookups in Htake as [Hlast Hprev]; [|lia].
  exists σ'. split; [done|]. split; [by eapply holds_GetSize|].
  split; [eapply holds_read_at; [done|lia|done]|].
  split; [|split].
  - intros i Hi.
    destruct (lookup_lt_is_Some_2 buf (Z.to_nat i)) as [x Hx]; [lia|].
    exists x. split.
    + eapply holds_read_at; [done|lia|done].
    + eapply holds_read_at; [done|lia|]. rewrite Hprev by lia. done.
  - exists cap'. split; [by eapply holds_GetCapacity|lia].
  - apply valid_holds. exists (n + 1), cap', buf'. repeat split; [done|lia..].
Qed.


Lemma holds_slots σ v sz cap buf :
  holds σ v sz cap buf → slots σ v = Z.of_nat (length buf).
Proof. intros (a & Hv & Hb). unfold slots. by rewrite Hv, Hb. Qed.

Lemma will_allocate_max σ n : will_allocate σ n = true → n ≤ max_slots.
Proof.
  unfold will_allocate. intros [Hn _]%andb_prop.
  by apply bool_decide_eq_true in Hn.
Qed.

Lemma Reserve_holds σ this n sz cap buf :
  holds σ this sz cap buf →
  0 ≤ sz ≤ cap → cap = Z.of_nat (length buf) →
  (cap < n → will_allocate σ n = true) →
  ∃ σ' buf',
    Reserve this n σ = (Ret tt, σ') ∧
    holds σ' this sz (Z.max cap n) buf' ∧
    Z.max cap n = Z.of_nat (length buf') ∧
    take (Z.to_nat sz) buf' = take (Z.to_nat sz) buf ∧
    (n ≤ cap → σ' = σ).
Proof.
  destruct σ as [h vs pl]. intros Hh Hsz Hcap Hal.
  unfold Reserve.
  destruct (decide (n ≤ cap)) as [Hle|Hgt].
  - exists (mkState h vs pl), buf.
    rewrite Z.max_l by lia. destruct Hh as (a & Hv & Hb).
    step. rewrite decide_True by done.
    repeat split; [|done]. by exists a.
  - assert (will_allocate (mkState h vs pl) n = true) as Hok by (apply Hal; lia).
    apply will_allocate_max in Hok as Hmax.
    destruct (ArrayPtr_ctor_ok h vs pl n) as (l' & Hfresh & Hctor); [lia|done|].
    rewrite Z.max_r by lia.
    apply holds_inv in Hh as [[Hv ->]|(l & Hv & Hl)].
    + simpl in Hcap. assert (sz = 0) as -> by lia. subst cap.
      step. rewrite decide_False by done.
      erewrite bind_Ret by exact Hctor.
      do 2 step. rewrite decide_True by done.
      erewrite bind_Ret by apply std_copy_null.
      do 2 step. rewrite ArrayPtr_dtor_null.
      eexists _, _. split; [done|]. split; [|split; [|split]].
      * eapply holds_block; [apply lookup_insert_eq|apply lookup_insert_eq].
      * rewrite length_replicate. lia.
      * done.
      * lia.
    + assert (l ≠ l') as Hne by congruence.
      step. rewrite decide_False by done.
      erewrite bind_Ret by exact Hctor.
      do 2 step.
      erewrite bind_Ret.
      2:{ apply (std_copy_live _ _ _ _ _ _ buf);
            [done|by rewrite lookup_insert_ne|apply lookup_insert_eq|lia|].
          rewrite length_replicate. lia. }
      norm. do 2 step.
      erewrite ArrayPtr_dtor_block.
      2:{ rewrite lookup_insert_ne by done. apply lookup_insert_eq. }
      eexists _, _. split; [done|]. split; [|split; [|split]].
      * eapply holds_block; [apply lookup_insert_eq|].
        rewrite lookup_delete_ne by done. apply lookup_insert_eq.
      * rewrite length_blit, length_replicate. lia.
      * apply take_blit; [lia|rewrite length_replicate; lia].
      * lia.
Qed.

(** C6. [Reserve(n)] on a valid sequence (given that the reallocation,
    when one is needed, gets its memory) returns; the capacity does not
    decrease; the size and the live elements, in their order, are the same;
    with [n] at most the capacity nothing at all changes; with [n] above
    it the capacity becomes [n], the number of slots of the buffer
    installed. *)
Theorem Reserve_frame σ this n sz c :
  valid σ this →
  GetSize this σ = (Ret sz, σ) →
  GetCapacity this σ = (Ret c, σ) →
  (c < n → will_allocate σ n = true) →
  ∃ σ' c', Reserve this n σ = (Ret tt, σ') ∧
        GetCapacity this σ' = (Ret c', σ') ∧ c ≤ c' ∧
        GetSize this σ' = (Ret sz, σ') ∧
        contents σ' this = contents σ this ∧
        (n ≤ c → σ' = σ) ∧
        (c < n → c' = n ∧ slots σ' this = n) ∧
        valid σ' this.
Proof.
  intros Hvalid Hn Hc Hal.
  apply valid_holds in Hvalid as (sz0 & cap & buf & Hh & Hsz & Hcap & Hmax).
  rewrite (holds_GetSize _ _ _ _ _ Hh) in Hn.
  rewrite (holds_GetCapacity _ _ _ _ _ Hh) in Hc.
  simplify_eq.
  destruct (Reserve_holds σ this n sz (Z.of_nat (length buf)) buf)
    as (σ' & buf' & Hrun & Hh' & Hcap' & Htake & Hnoop); [done..|].
  exists σ', (Z.max (Z.of_nat (length buf)) n).
  split; [done|]. split; [by eapply holds_GetCapacity|]. split; [lia|].
  split; [by eapply holds_GetSize|]. split.
  { by rewrite (holds_contents _ _ _ _ _ Hh), (holds_contents _ _ _ _ _ Hh'). }
  split; [done|]. split.
  - intros Hgt. split; [lia|]. rewrite (holds_slots _ _ _ _ _ Hh'). lia.
  - apply valid_holds. exists sz, (Z.max (Z.of_nat (length buf)) n), buf'.
    split; [done|]. split; [lia|]. split; [done|].
    destruct (decide (Z.of_nat (length buf) < n)) as [Hgt|Hle]; [|lia].
    apply Hal, will_allocate_max in Hgt. lia.
Qed.

(** *** Insert and Erase *)

Lemma assert_ok σ c : c = true → assert_ c σ = (Ret tt, σ).
Proof. intros ->. unfold assert_. by rewrite orb_true_r. Qed.

Lemma ptr_diff_ok σ b x y : ptr_diff (Ptr b x) (Ptr b y) σ = (Ret (x - y), σ).
Proof. unfold ptr_diff; simpl. by rewrite bool_decide_eq_true_2. Qed.

Lemma std_copy_backward_within h vs pl l buf p sz :
  h !! l = Some buf → 0 ≤ p ≤ sz → sz + 1 ≤ Z.of_nat (length buf) →
  std_copy_backward true (Ptr (Some l) p) (Ptr (Some l) sz) (Ptr (Some l) (sz + 1))
    (mkState h vs pl)
  = (Ret tt,
     mkState (<[l := shift_right buf (Z.to_nat p) (Z.to_nat (sz - p))]> h) vs pl).
Proof.
  intros Hl Hp Hsz. unfold std_copy_backward.
  erewrite bind_Ret by (apply distance_ok; lia).
  remember (Z.to_nat (sz - p)) as n eqn:Hn.
  replace sz with (p + Z.of_nat n) in * by lia.
  by erewrite copy_backward_loop_shift_right by (done || lia).
Qed.

Lemma std_copy_backward_blocks moving h vs pl ls ld bs bd p sz :
  ls ≠ ld → h !! ls = Some bs → h !! ld = Some bd →
  0 ≤ p ≤ sz → sz ≤ Z.of_nat (length bs) → sz + 1 ≤ Z.of_nat (length bd) →
  std_copy_backward moving (Ptr (Some ls) p) (Ptr (Some ls) sz)
    (Ptr (Some ld) (sz + 1)) (mkState h vs pl)
  = (Ret tt,
     mkState (<[ld := blit bs (Z.to_nat p) bd (Z.to_nat (p + 1)) (Z.to_nat (sz - p))]>
                (<[ls := if moving then mark_moved bs (Z.to_nat p) (Z.to_nat (sz - p))
                         else bs]> h))
             vs pl).
Proof.
  intros Hne Hs Hd Hp Hsz Hsz'. unfold std_copy_backward.
  erewrite bind_Ret by (apply distance_ok; lia).
  remember (Z.to_nat (sz - p)) as n eqn:Hn.
  replace (sz + 1) with (p + 1 + Z.of_nat n) by lia.
  replace sz with (p + Z.of_nat n) in * by lia.
  by erewrite copy_backward_loop_blocks by (done || lia).
Qed.

Lemma std_copy_shift h vs pl l buf p sz :
  h !! l = Some buf → 0 ≤ p < sz → sz ≤ Z.of_nat (length buf) →
  std_copy true (Ptr (Some l) (p + 1)) (Ptr (Some l) sz) (Ptr (Some l) p)
    (mkState h vs pl)
  = (Ret tt,
     mkState (<[l := shift_left buf (Z.to_nat p) (Z.to_nat (sz - (p + 1)))]> h) vs pl).
Proof.
  intros Hl Hp Hsz. unfold std_copy.
  erewrite bind_Ret by (apply distance_ok; lia).
  by erewrite copy_loop_shift_left by (done || lia).
Qed.

Lemma insert_at_lookup (l : list T) (p : nat) x j :
  (p ≤ length l)%nat →
  (take p l ++ x :: drop p l) !! j
  = if decide (j < p)%nat then l !! j
    else if decide (j = p) then Some x else l !! pred j.
Proof.
  intros Hp. repeat case_decide.
  - rewrite lookup_app_l by (rewrite length_take; lia).
    by rewrite lookup_take_lt.
  - subst j. rewrite lookup_app_r by (rewrite length_take; lia).
    rewrite length_take. by replace (p - p `min` length l)%nat with 0%nat by lia.
  - rewrite lookup_app_r by (rewrite length_take; lia).
    rewrite length_take. replace (j - p `min` length l)%nat with (S (j - p - 1)) by lia.
    simpl. rewrite lookup_drop. f_equal. lia.
Qed.

Lemma erase_at_lookup (l : list T) (p : nat) j :
  (p < length l)%nat →
  (take p l ++ drop (S p) l) !! j
  = if decide (j < p)%nat then l !! j else l !! S j.
Proof.
  intros Hp. case_decide.
  - rewrite lookup_app_l by (rewrite length_take; lia).
    by rewrite lookup_take_lt.
  - rewrite lookup_app_r by (rewrite length_take; lia).
    rewrite length_take, lookup_drop. f_equal. lia.
Qed.

Lemma erase_insert_at (l : list T) (p : nat) x :
  (p ≤ length l)%nat →
  take p (take p l ++ x :: drop p l) ++ drop (S p) (take p l ++ x :: drop p l) = l.
Proof.
  intros Hp.
  rewrite take_app_length' by (rewrite length_take; lia).
  replace (S p) with (p + 1)%nat by lia.
  rewrite drop_app_add' by (rewrite length_take; lia).
  simpl. rewrite drop_0. apply take_drop.
Qed.

Lemma insert_shift_right buf (P SZ : nat) (x : T) :
  (P ≤ SZ)%nat → (SZ < length buf)%nat →
  take (S SZ) (<[P := x]> (shift_right buf P (SZ - P)))
  = take P (take SZ buf) ++ x :: drop P (take SZ buf).
Proof.
  intros HP HSZ. apply list_eq; intros j.
  rewrite insert_at_lookup by (rewrite length_take; lia).
  rewrite !lookup_take. rewrite list_lookup_insert.
  unfold shift_right. rewrite length_imap, list_lookup_imap.
  repeat case_decide; destruct_and?; simplify_eq/=; try lia; lookup_cases.
Qed.

Lemma insert_blit buf dst (P SZ : nat) (x : T) :
  (P ≤ SZ)%nat → (SZ ≤ length buf)%nat → (SZ < length dst)%nat →
  take (S SZ)
    (blit (mark_moved buf 0 P) P (<[P := x]> (blit buf 0 dst 0 P)) (S P) (SZ - P))
  = take P (take SZ buf) ++ x :: drop P (take SZ buf).
Proof.
  intros HP HSZ Hdst. apply list_eq; intros j.
  rewrite insert_at_lookup by (rewrite length_take; lia).
  rewrite !lookup_take. unfold blit, mark_moved.
  rewrite list_lookup_imap, list_lookup_insert, length_imap, !list_lookup_imap.
  repeat case_decide; destruct_and?; simplify_eq/=; try lia; lookup_cases.
Qed.

Lemma erase_shift_left buf (P SZ : nat) :
  (P < SZ)%nat → (SZ ≤ length buf)%nat →
  take (SZ - 1) (shift_left buf P (SZ - S P))
  = take P (take SZ buf) ++ drop (S P) (take SZ buf).
Proof.
  intros HP HSZ. apply list_eq; intros j.
  rewrite erase_at_lookup by (rewrite length_take; lia).
  rewrite !lookup_take. unfold shift_left. rewrite list_lookup_imap.
  repeat case_decide; destruct_and?; simplify_eq/=; try lia; lookup_cases.
Qed.

Lemma ptr_leb_same b x y : x ≤ y → ptr_leb (Ptr b x) (Ptr b y) = true.
Proof.
  intros Hxy. unfold ptr_leb; simpl. rewrite bool_decide_eq_true_2 by done.
  by apply Z.leb_le.
Qed.

Lemma ptr_ltb_same b x y : x < y → ptr_ltb (Ptr b x) (Ptr b y) = true.
Proof.
  intros Hxy. unfold ptr_ltb; simpl. rewrite bool_decide_eq_true_2 by done.
  by apply Z.ltb_lt.
Qed.

Lemma std_copy_backward_null moving σ d :
  std_copy_backward moving nullptr nullptr d σ = (Ret tt, σ).
Proof. done. Qed.

Lemma Insert_holds σ this p value sz cap buf b :
  holds σ this sz cap buf →
  0 ≤ sz ≤ cap → cap = Z.of_nat (length buf) → cap ≤ max_slots →
  begin this σ = (Ret b, σ) → 0 ≤ p ≤ sz →
  (sz = cap → will_allocate σ (Z.max (2 * cap) 1) = true) →
  ∃ σ' cap' buf' b',
    Insert this (b +ₚ p) value σ = (Ret (b' +ₚ p), σ') ∧
    begin this σ' = (Ret b', σ') ∧
    holds σ' this (sz + 1) cap' buf' ∧
    cap' = Z.of_nat (length buf') ∧ sz + 1 ≤ cap' ≤ max_slots ∧
    take (Z.to_nat (sz + 1)) buf'
    = take (Z.to_nat p) (take (Z.to_nat sz) buf)
      ++ value :: drop (Z.to_nat p) (take (Z.to_nat sz) buf).
Proof.
  destruct σ as [h vs pl]. intros Hh Hsz Hcap Hmax Hb Hp Hal.
  replace (Z.to_nat (sz + 1)) with (S (Z.to_nat sz)) by lia.
  unfold Insert.
  apply holds_inv in Hh as [[Hv ->]|(l & Hv & Hl)].
  - (* nothing allocated yet *)
    simpl in Hcap. assert (sz = 0) as -> by lia. assert (p = 0) as -> by lia.
    subst cap. erewrite begin_ok in Hb by done. simpl in Hb.
    injection Hb as <-.
    destruct (ArrayPtr_ctor_ok h vs pl 1) as (l & Hfresh & Hctor);
      [done|by apply Hal|].
    do 2 step. rewrite !decide_True by done.
    erewrite bind_Ret by (by apply assert_ok).
    do 2 step. rewrite decide_False by lia.
    erewrite bind_Ret by apply ptr_diff_ok. norm.
    change (Z.max (wrap (2 * 0)) 1) with 1. change (wrap 0) with 0.
    erewrite bind_Ret by exact Hctor. norm.
    erewrite bind_Ret by apply std_copy_null.
    erewrite bind_Ret by (eapply store_ok; [apply lookup_insert_eq|simpl; lia]).
    erewrite bind_Ret by apply std_copy_backward_null.
    do 4 step. rewrite decide_False by done.
    erewrite bind_Ret by apply ArrayPtr_dtor_null.
    eexists _, 1, _, (Ptr (Some l) 0). split; [done|].
    split; [|split; [|split; [|split]]].
    + erewrite begin_ok by apply lookup_insert_eq. done.
    + eapply holds_block; [apply lookup_insert_eq|apply lookup_insert_eq].
    + done.
    + unfold max_slots. lia.
    + done.
  - erewrite begin_ok in Hb by done. simpl in Hb. injection Hb as <-.
    assert (wrap p = p) as Hwp
      by (apply wrap_small; unfold max_slots, size_t_modulus in *; lia).
    destruct (decide (sz = cap)) as [Hfull|Hroom];
      destruct (decide (sz = 0)) as [Hz|Hnz].
    + (* full and empty: an array of no elements *)
      assert (length buf = 0%nat) as Hlen0 by lia.
      destruct buf; [clear Hlen0|done].
      assert (cap = 0) as -> by (simpl in Hcap; lia).
      assert (sz = 0) as -> by lia. assert (p = 0) as -> by lia.
      destruct (ArrayPtr_ctor_ok h vs pl 1) as (l' & Hfresh & Hctor);
        [done|by apply Hal|].
      assert (l ≠ l') as Hne by congruence.
      do 2 step. rewrite !decide_True by done.
      erewrite bind_Ret by (by apply assert_ok).
      do 2 step. rewrite decide_False by lia.
      erewrite bind_Ret by apply ptr_diff_ok. norm.
      change (Z.max (wrap (2 * 0)) 1) with 1.
      change (wrap 0) with 0.
      erewrite bind_Ret by exact Hctor. norm.
      erewrite bind_Ret by apply std_copy_null.
      erewrite bind_Ret by (eapply store_ok; [apply lookup_insert_eq|simpl; lia]).
      erewrite bind_Ret by apply std_copy_backward_null.
      do 4 step. rewrite decide_False by done.
      erewrite bind_Ret.
      2:{ eapply ArrayPtr_dtor_block.
          rewrite !lookup_insert_ne by done. done. }
      eexists _, 1, _, (Ptr (Some l') 0). split; [done|].
      split; [|split; [|split; [|split]]].
      * erewrite begin_ok by apply lookup_insert_eq. done.
      * eapply holds_block; [apply lookup_insert_eq|].
        rewrite lookup_delete_ne by done. apply lookup_insert_eq.
      * done.
      * unfold max_slots. lia.
      * done.
    + (* full: reallocate *)
      assert (sz = Z.of_nat (length buf)) as -> by lia.
      assert (cap = Z.of_nat (length buf)) as -> by lia.
      remember (Z.max (2 * Z.of_nat (length buf)) 1) as new_capacity eqn:Hnc.
      assert (will_allocate (mkState h vs pl) new_capacity = true) as Hok
        by by apply Hal.
      apply will_allocate_max in Hok as Hnew.
      destruct (ArrayPtr_ctor_ok h vs pl new_capacity) as (l' & Hfresh & Hctor);
        [lia|done|].
      assert (l ≠ l') as Hne by congruence.
      do 2 step. rewrite !decide_False by done. norm.
      erewrite bind_Ret by (apply assert_ok; rewrite !ptr_leb_same by lia; done).
      do 2 step. rewrite decide_False by lia.
      erewrite bind_Ret by apply ptr_diff_ok. norm. rewrite Hwp.
      rewrite max_slots_double by lia. rewrite <- Hnc.
      rewrite max_slots_succ by lia.
      erewrite bind_Ret by exact Hctor. norm.
      erewrite bind_Ret.
      2:{ apply (std_copy_blocks _ _ _ _ _ _ buf);
            [done|by rewrite lookup_insert_ne|apply lookup_insert_eq|lia|].
          rewrite length_replicate. lia. }
      erewrite bind_Ret.
      2:{ eapply store_ok; [apply lookup_insert_eq|].
          rewrite length_blit, length_replicate. lia. }
      erewrite bind_Ret.
      2:{ eapply std_copy_backward_blocks; [done|hlookup|hlookup|lia| |].
          - rewrite length_mark_moved. lia.
          - rewrite length_insert, length_blit, length_replicate. lia. }
      do 4 step. rewrite decide_False by lia.
      erewrite bind_Ret.
      2:{ eapply ArrayPtr_dtor_block. hlookup. }
      eexists _, new_capacity, _, (Ptr (Some l') 0). split; [done|].
      split; [|split; [|split; [|split]]].
      * erewrite begin_ok by apply lookup_insert_eq.
        simpl. by rewrite decide_False by lia.
      * eapply holds_block; [apply lookup_insert_eq|].
        rewrite lookup_delete_ne by done. apply lookup_insert_eq.
      * rewrite length_blit, length_insert, length_blit, length_replicate. lia.
      * lia.
      * replace (Z.to_nat (p + 1)) with (S (Z.to_nat p)) by lia.
        replace (Z.to_nat (Z.of_nat (length buf) - p))
          with (Z.to_nat (Z.of_nat (length buf)) - Z.to_nat p)%nat by lia.
        apply insert_blit; [lia..|]. rewrite length_replicate. lia.
    + (* room left, no live element *)
      assert (sz = 0) as -> by lia. assert (p = 0) as -> by lia.
      do 2 step. rewrite !decide_True by done.
      erewrite bind_Ret by (by apply assert_ok).
      do 2 step. rewrite decide_True by done.
      erewrite bind_Ret by apply ptr_diff_ok. norm.
      erewrite bind_Ret by apply std_copy_backward_null.
      step. change (wrap 0) with 0. change (wrap (0 + 1)) with 1.
      erewrite bind_Ret by (eapply store_ok; [done|lia]).
      do 2 step. rewrite decide_False by done.
      eexists _, cap, _, (Ptr (Some l) 0). split; [done|].
      split; [|split; [|split; [|split]]].
      * erewrite begin_ok by apply lookup_insert_eq. done.
      * eapply holds_block; [apply lookup_insert_eq|apply lookup_insert_eq].
      * by rewrite length_insert.
      * lia.
      * simpl. rewrite take_snoc_insert by lia. done.
    + (* room left: shift the tail up *)
      do 2 step. rewrite !decide_False by done. norm.
      erewrite bind_Ret by (apply assert_ok; rewrite !ptr_leb_same by lia; done).
      do 2 step. rewrite decide_True by done.
      erewrite bind_Ret by apply ptr_diff_ok. norm. rewrite Hwp.
      rewrite max_slots_succ by lia.
      erewrite bind_Ret by (eapply std_copy_backward_within; [done|lia..]).
      step.
      erewrite bind_Ret.
      2:{ eapply store_ok; [apply lookup_insert_eq|].
          unfold shift_right. rewrite length_imap. lia. }
      do 2 step. rewrite decide_False by lia.
      eexists _, cap, _, (Ptr (Some l) 0). split; [done|].
      split; [|split; [|split; [|split]]].
      * erewrite begin_ok by apply lookup_insert_eq.
        simpl. by rewrite decide_False by lia.
      * eapply holds_block; [apply lookup_insert_eq|].
        rewrite insert_insert_eq. apply lookup_insert_eq.
      * unfold shift_right. rewrite length_insert, length_imap. done.
      * lia.
      * replace (Z.to_nat (sz - p)) with (Z.to_nat sz - Z.to_nat p)%nat by lia.
        apply insert_shift_right; lia.
Qed.

Lemma Erase_holds σ this p sz cap buf b :
  holds σ this sz cap buf →
  0 ≤ sz ≤ cap → cap = Z.of_nat (length buf) → cap ≤ max_slots →
  begin this σ = (Ret b, σ) → 0 ≤ p < sz →
  ∃ σ' buf' b',
    Erase this (b +ₚ p) σ = (Ret (b' +ₚ p), σ') ∧
    begin this σ' = (Ret b', σ') ∧
    holds σ' this (sz - 1) cap buf' ∧
    length buf' = length buf ∧
    take (Z.to_nat (sz - 1)) buf'
    = take (Z.to_nat p) (take (Z.to_nat sz) buf)
      ++ drop (S (Z.to_nat p)) (take (Z.to_nat sz) buf).
Proof.
  destruct σ as [h vs pl]. intros Hh Hsz Hcap Hmax Hb Hp.
  unfold Erase.
  apply holds_inv in Hh as [[Hv ->]|(l & Hv & Hl)]; [simpl in Hcap; lia|].
  erewrite begin_ok in Hb by done. simpl in Hb. injection Hb as <-.
  rewrite decide_False by lia.
  assert (wrap (sz - 1) = sz - 1) as Hw
    by (apply wrap_small; unfold max_slots, size_t_modulus in *; lia).
  do 2 step. rewrite !decide_False by lia. norm.
  erewrite bind_Ret.
  2:{ apply assert_ok. rewrite ptr_leb_same, ptr_ltb_same by lia. done. }
  erewrite bind_Ret by apply ptr_diff_ok. norm.
  erewrite bind_Ret by (eapply std_copy_shift; [done|lia..]).
  do 3 step. rewrite Hw.
  eexists _, _, (if decide (sz - 1 = 0) then nullptr else Ptr (Some l) 0).
  split; [|split; [|split; [|split]]].
  - unfold ret. case_decide; done.
  - erewrite begin_ok by apply lookup_insert_eq. simpl. case_decide; done.
  - eapply holds_block; [apply lookup_insert_eq|apply lookup_insert_eq].
  - unfold shift_left. by rewrite length_imap.
  - replace (Z.to_nat (sz - 1)) with (Z.to_nat sz - 1)%nat by lia.
    replace (Z.to_nat (sz - (p + 1))) with (Z.to_nat sz - S (Z.to_nat p))%nat by lia.
    apply erase_shift_left; lia.
Qed.

(** C4. On a valid sequence, inserting a value at a position [p] between
    [begin] and [end] (given that the reallocation, when one is needed,
    gets its memory) and then erasing at the position returned, which is
    position [p] of the grown sequence, both return, and leave a sequence
    with the size and the elements, in order, of the original. *)
Theorem Insert_then_Erase σ this p value n c b :
  valid σ this →
  GetSize this σ = (Ret n, σ) →
  GetCapacity this σ = (Ret c, σ) →
  begin this σ = (Ret b, σ) →
  0 ≤ p ≤ n →
  (n = c → will_allocate σ (Z.max (2 * c) 1) = true) →
  ∃ σ1 σ2 it it' b1,
    Insert this (b +ₚ p) value σ = (Ret it, σ1) ∧
    begin this σ1 = (Ret b1, σ1) ∧ it = b1 +ₚ p ∧
    Erase this it σ1 = (Ret it', σ2) ∧
    GetSize this σ2 = (Ret n, σ2) ∧
    contents σ2 this = contents σ this.
Proof.
  intros Hvalid Hn Hc Hb Hp Hal.
  apply valid_holds in Hvalid as (sz & cap & buf & Hh & Hsz & Hcap & Hmax).
  rewrite (holds_GetSize _ _ _ _ _ Hh) in Hn.
  rewrite (holds_GetCapacity _ _ _ _ _ Hh) in Hc.
  simplify_eq.
  destruct (Insert_holds σ this p value n (Z.of_nat (length buf)) buf b)
    as (σ1 & cap1 & buf1 & b1 & Hins & Hb1 & Hh1 & Hcap1 & Hsz1 & Htake1);
    [done..|].
  destruct (Erase_holds σ1 this p (n + 1) cap1 buf1 b1)
    as (σ2 & buf2 & b2 & Hera & Hb2 & Hh2 & Hlen2 & Htake2); [done|lia|done|lia|done|lia|].
  exists σ1, σ2, (b1 +ₚ p), (b2 +ₚ p), b1.
  split; [done|]. split; [done|]. split; [done|]. split; [done|].
  replace (n + 1 - 1) with n in * by lia.
  split; [by eapply holds_GetSize|].
  rewrite (holds_contents _ _ _ _ _ Hh), (holds_contents _ _ _ _ _ Hh2).
  rewrite Htake2, Htake1. apply erase_insert_at.
  rewrite length_take. lia.
Qed.
End modifiers.

(** ** Failure atomicity *)

Create HintDb no_throw.
Create HintDb reader.

Section failures.
Context {T : Type} {E : Element T} {B : Build}.
Implicit Types (σ : state T).

Lemma no_throw_ret {A} (a : A) : no_throw (T:=T) (ret a).
Proof. by intros σ e σ'. Qed.

Lemma no_throw_undefined {A} : no_throw (T:=T) (A:=A) undefined.
Proof. by intros σ e σ'. Qed.

Lemma no_throw_bind {A C} (m : M T A) (f : A → M T C) :
  no_throw m → (∀ a, no_throw (f a)) → no_throw (bind m f).
Proof.
  intros Hm Hf σ e σ'. unfold bind.
  destruct (m σ) as [[a|e1| |] σ1] eqn:Hrun; try done.
  - apply Hf.
  - by apply Hm in Hrun.
Qed.

Lemma no_throw_get_vec v : no_throw (T:=T) (get_vec v).
Proof. intros σ e σ'. unfold get_vec. by destruct (vecs σ !! v). Qed.

Lemma no_throw_put_vec v sv : no_throw (T:=T) (put_vec v sv).
Proof. by intros σ e σ'. Qed.

Lemma no_throw_load p : no_throw (T:=T) (load p).
Proof.
  intros σ e σ'. unfold load.
  destruct (slot σ p) as [[[l buf] i]|]; [|done]. by destruct (buf !! i).
Qed.

Lemma no_throw_store p x : no_throw (T:=T) (store p x).
Proof.
  intros σ e σ'. unfold store. by destruct (slot σ p) as [[[l buf] i]|].
Qed.

Lemma no_throw_delete_array p : no_throw (T:=T) (delete_array p).
Proof.
  intros σ e σ'. unfold delete_array.
  case_decide; [done|]. destruct (blk p); [|done].
  case_bool_decide; [|done]. by destruct (heap σ !! _).
Qed.

Lemma no_throw_distance p q : no_throw (T:=T) (distance p q).
Proof. intros σ e σ'. unfold distance. by case_bool_decide. Qed.

Lemma no_throw_ptr_diff p q : no_throw (T:=T) (ptr_diff p q).
Proof. intros σ e σ'. unfold ptr_diff. by case_bool_decide. Qed.

Lemma no_throw_assert c : no_throw (T:=T) (assert_ c).
Proof. intros σ e σ'. unfold assert_. by destruct (NDEBUG || c). Qed.

#[local] Hint Resolve no_throw_ret no_throw_undefined no_throw_get_vec no_throw_put_vec
  no_throw_load no_throw_store no_throw_delete_array no_throw_distance
  no_throw_ptr_diff no_throw_assert : no_throw.

Ltac no_throw_tac :=
  repeat first
    [ progress eauto with no_throw
    | apply no_throw_bind; [|intros ?]
    | case_decide
    | match goal with |- no_throw (if ?b then _ else _) => destruct b end ].

Lemma no_throw_assign moving dst src : no_throw (T:=T) (assign moving dst src).
Proof. unfold assign. no_throw_tac. Qed.

Lemma no_throw_copy_loop moving n : ∀ first d_first,
  no_throw (T:=T) (copy_loop moving n first d_first).
Proof.
  induction n; intros; simpl; [apply no_throw_ret|].
  apply no_throw_bind; [apply no_throw_assign|done].
Qed.

Lemma no_throw_copy_backward_loop moving n : ∀ last d_last,
  no_throw (T:=T) (copy_backward_loop moving n last d_last).
Proof.
  induction n; intros; simpl; [apply no_throw_ret|].
  apply no_throw_bind; [apply no_throw_assign|done].
Qed.

#[local] Hint Resolve no_throw_assign no_throw_copy_loop no_throw_copy_backward_loop
  : no_throw.

Lemma no_throw_std_copy moving first last d_first :
  no_throw (T:=T) (std_copy moving first last d_first).
Proof. unfold std_copy. no_throw_tac. Qed.

Lemma no_throw_std_copy_backward moving first last d_last :
  no_throw (T:=T) (std_copy_backward moving first last d_last).
Proof. unfold std_copy_backward. no_throw_tac. Qed.

Lemma no_throw_get_items v : no_throw (T:=T) (get_items v).
Proof. unfold get_items. no_throw_tac. Qed.
Lemma no_throw_get_size v : no_throw (T:=T) (get_size v).
Proof. unfold get_size. no_throw_tac. Qed.
Lemma no_throw_get_capacity v : no_throw (T:=T) (get_capacity v).
Proof. unfold get_capacity. no_throw_tac. Qed.
Lemma no_throw_set_items v a : no_throw (T:=T) (set_items v a).
Proof. unfold set_items. no_throw_tac. Qed.
Lemma no_throw_set_size v n : no_throw (T:=T) (set_size v n).
Proof. unfold set_size. no_throw_tac. Qed.
Lemma no_throw_set_capacity v n : no_throw (T:=T) (set_capacity v n).
Proof. unfold set_capacity. no_throw_tac. Qed.

#[local] Hint Resolve no_throw_std_copy no_throw_std_copy_backward no_throw_get_items
  no_throw_get_size no_throw_get_capacity no_throw_set_items no_throw_set_size
  no_throw_set_capacity : no_throw.

Lemma no_throw_begin v : no_throw (T:=T) (begin v).
Proof. unfold begin. no_throw_tac. Qed.
Lemma no_throw_end v : no_throw (T:=T) (end_ v).
Proof. unfold end_. no_throw_tac. Qed.
Lemma no_throw_swap_items tmp v : no_throw (T:=T) (ArrayPtr_swap_items tmp v).
Proof. unfold ArrayPtr_swap_items. no_throw_tac. Qed.
Lemma no_throw_dtor a : no_throw (T:=T) (ArrayPtr_dtor a).
Proof. unfold ArrayPtr_dtor. no_throw_tac. Qed.

#[local] Hint Resolve no_throw_begin no_throw_end no_throw_swap_items no_throw_dtor
  : no_throw.

(** *** Readers *)

Lemma reader_get_vec v : reader (T:=T) (get_vec v).
Proof.
  intros σ r σ'. unfold get_vec. destruct (vecs σ !! v); by intros [= _ <-].
Qed.

Lemma reader_ret {A} (a : A) : reader (T:=T) (ret a).
Proof. by intros σ r σ' [= _ <-]. Qed.

Lemma reader_bind {A C} (m : M T A) (f : A → M T C) :
  reader m → (∀ a, reader (f a)) → reader (bind m f).
Proof.
  intros Hm Hf σ r σ'. unfold bind.
  destruct (m σ) as [[a|e1| |] σ1] eqn:Hrun; apply Hm in Hrun as ->.
  - apply Hf.
  - by intros [= _ <-].
  - by intros [= _ <-].
  - by intros [= _ <-].
Qed.

Lemma reader_assert c : reader (T:=T) (assert_ c).
Proof.
  intros σ r σ'. unfold assert_. destruct (NDEBUG || c); by intros [= _ <-].
Qed.

Lemma reader_ptr_diff p q : reader (T:=T) (ptr_diff p q).
Proof.
  intros σ r σ'. unfold ptr_diff. case_bool_decide; by intros [= _ <-].
Qed.

#[local] Hint Resolve reader_get_vec reader_ret reader_assert reader_ptr_diff : reader.

Ltac reader_tac :=
  repeat first
    [ progress eauto with reader
    | apply reader_bind; [|intros ?]
    | case_decide ].

Lemma reader_get_items v : reader (T:=T) (get_items v).
Proof. unfold get_items. reader_tac. Qed.
Lemma reader_get_size v : reader (T:=T) (get_size v).
Proof. unfold get_size. reader_tac. Qed.
Lemma reader_get_capacity v : reader (T:=T) (get_capacity v).
Proof. unfold get_capacity. reader_tac. Qed.
#[local] Hint Resolve reader_get_items reader_get_size reader_get_capacity : reader.
Lemma reader_begin v : reader (T:=T) (begin v).
Proof. unfold begin. reader_tac. Qed.
Lemma reader_end v : reader (T:=T) (end_ v).
Proof. unfold end_. reader_tac. Qed.
#[local] Hint Resolve reader_begin reader_end : reader.

(** *** Atomic computations *)

Lemma atomic_no_throw {A} (m : M T A) : no_throw m → atomic m.
Proof. intros Hm σ e σ' Hrun. by apply Hm in Hrun. Qed.

Lemma atomic_after_reader {A C} (m : M T A) (f : A → M T C) :
  reader m → (∀ a, atomic (f a)) → atomic (bind m f).
Proof.
  intros Hm Hf σ e σ'. unfold bind.
  destruct (m σ) as [[a|e1| |] σ1] eqn:Hrun; apply Hm in Hrun as ->; try done.
  - apply Hf.
  - by intros [= _ <-].
Qed.

Lemma atomic_then_no_throw {A C} (m : M T A) (f : A → M T C) :
  atomic m → (∀ a, no_throw (f a)) → atomic (bind m f).
Proof.
  intros Hm Hf σ e σ'. unfold bind.
  destruct (m σ) as [[a|e1| |] σ1] eqn:Hrun; try done.
  - intros Hrun'. by apply Hf in Hrun'.
  - intros [= <- <-]. by eapply Hm.
Qed.

(** A failing [new[]] changes neither an array nor a vector object. *)
Lemma atomic_ArrayPtr_ctor n : atomic (T:=T) (ArrayPtr_ctor n).
Proof.
  intros σ e σ'. unfold ArrayPtr_ctor. case_decide; [done|].
  unfold bind, new_array. case_bool_decide.
  - by intros [= _ <-].
  - destruct (head (plan σ)) as [[]|]; try done; by intros [= _ <-].
Qed.

Ltac atomic_tac :=
  repeat first
    [ apply atomic_no_throw; solve [no_throw_tac]
    | apply atomic_after_reader; [solve [reader_tac]|intros ?]
    | apply atomic_then_no_throw; [apply atomic_ArrayPtr_ctor|intros ?; solve [no_throw_tac]]
    | case_decide ].

Lemma atomic_Resize this new_size : atomic (T:=T) (Resize this new_size).
Proof. unfold Resize. atomic_tac. Qed.

Lemma atomic_Reserve this new_capacity : atomic (T:=T) (Reserve this new_capacity).
Proof. unfold Reserve. atomic_tac. Qed.

Lemma atomic_PushBack this item : atomic (T:=T) (PushBack this item).
Proof. unfold PushBack. atomic_tac. Qed.

Lemma atomic_Insert this pos value : atomic (T:=T) (Insert this pos value).
Proof. unfold Insert. atomic_tac. Qed.

Lemma atomic_copy_assign this rhs : atomic (T:=T) (copy_assign this rhs).
Proof. unfold copy_assign. atomic_tac. Qed.

(** C5. Whenever one of the reallocating operations ends with an
    exception (the allocation of the replacement buffer found no memory,
    or an element constructor threw while the buffer was being built), no
    array and no vector object has changed: the sequence has the size, the
    capacity and the elements it had. *)
Theorem growth_failure_atomic σ this g e σ' :
  run_growth this g σ = (Throw e, σ') →
  heap σ' = heap σ ∧ vecs σ' = vecs σ ∧
  (∀ n, GetSize this σ = (Ret n, σ) → GetSize this σ' = (Ret n, σ')) ∧
  (∀ c, GetCapacity this σ = (Ret c, σ) → GetCapacity this σ' = (Ret c, σ')) ∧
  contents σ' this = contents σ this.
Proof.
  intros Hrun.
  assert (heap σ' = heap σ ∧ vecs σ' = vecs σ) as [Hheap Hvecs].
  { destruct g; simpl in Hrun.
    - by eapply atomic_Resize.
    - by eapply atomic_Reserve.
    - by eapply atomic_PushBack.
    - eapply (atomic_then_no_throw (Insert this pos value) (λ _, ret tt));
        [apply atomic_Insert|intros; apply no_throw_ret|done]. }
  split; [done|]. split; [done|].
  unfold GetSize, GetCapacity, get_size, get_capacity, get_vec, bind, contents,
    buffer_of.
  rewrite Hheap, Hvecs.
  destruct (vecs σ !! this); repeat split; try done; by intros ? [= <-].
Qed.
End failures.

(** ** Access, iteration, assignment *)

Section access.
Context {T : Type} {E : Element T} {B : Build}.
Implicit Types (h : gmap loc (list T)) (vs : gmap vid SimpleVector).
Implicit Types (pl : list new_outcome) (buf : list T) (sv : SimpleVector).
Implicit Types (σ : state T).

Lemma GetSize_inv σ this sz :
  GetSize this σ = (Ret sz, σ) →
  ∃ sv, vecs σ !! this = Some sv ∧ size_ sv = sz.
Proof.
  unfold GetSize, get_size, bind, get_vec, ret.
  destruct (vecs σ !! this) as [sv|]; [|done]. intros [= <-]. by exists sv.
Qed.

(** C7. [At(index)] throws [out_of_range] exactly when [index ≥ size],
    and then changes nothing; otherwise it returns the address of slot
    [index] of the array, which on a valid sequence holds element [index];
    the unchecked [operator[]] never throws, and with assertions compiled
    out hands out the address whatever the index. *)
Theorem At_checked σ this index sz :
  GetSize this σ = (Ret sz, σ) →
  0 ≤ index →
  ((∃ e, At this index σ = (Throw e, σ)) ↔ index >= sz) ∧
  (index >= sz →
     At this index σ
     = (Throw (out_of_range "Method At(index): index >= size"), σ)) ∧
  (index < sz →
     ∃ a, get_items this σ = (Ret a, σ) ∧
          At this index σ = (Ret (ArrayPtr_index a index), σ) ∧
          (valid σ this →
             ∃ x, load (ArrayPtr_index a index) σ = (Ret x, σ) ∧
                  contents σ this !! Z.to_nat index = Some x)) ∧
  (∀ e σ', op_index this index σ ≠ (Throw e, σ')) ∧
  (NDEBUG = true →
     ∃ a, get_items this σ = (Ret a, σ) ∧
          op_index this index σ = (Ret (ArrayPtr_index a index), σ)).
Proof.
  intros Hsz Hidx. apply GetSize_inv in Hsz as (sv & Hv & <-).
  destruct σ as [h vs pl]. simpl in Hv.
  split; [|split; [|split; [|split]]].
  - split.
    + intros [e He]. destruct (decide (index >= size_ sv)); [done|].
      rewrite (At_ok h vs pl this sv index) in He by (done || lia). done.
    + intros Hge. eexists. by apply (At_throws h vs pl this sv).
  - intros Hge. by apply (At_throws h vs pl this sv).
  - intros Hlt. exists (items_ sv). split; [by apply get_items_ok|].
    split; [by apply At_ok|].
    intros Hvalid. apply valid_holds in Hvalid
      as (sz & cap & buf & Hh & Hsz & Hcap & Hmax).
    rewrite (holds_contents _ _ _ _ _ Hh).
    apply holds_inv in Hh as [[Hv' ->]|(l & Hv' & Hl)];
      rewrite Hv in Hv'; injection Hv' as ->; simpl in *; [lia|].
    destruct (lookup_lt_is_Some_2 buf (Z.to_nat index)) as [x Hx]; [lia|].
    exists x. norm. split; [by eapply load_ok|].
    by rewrite lookup_take_lt by lia.
  - intros e σ'. unfold op_index. step. unfold bind, assert_.
    destruct (NDEBUG || _); [|done].
    by erewrite get_items_ok by done.
  - intros Hnd. exists (items_ sv). split; [by apply get_items_ok|].
    unfold op_index. step. unfold bind at 1, assert_. rewrite Hnd. simpl.
    by step.
Qed.

(** C9. On a valid sequence [begin] and [end] return without touching the
    state, as do [cbegin] and [cend] with the same results; they are both
    the null pointer when the size is 0, whatever the capacity, and
    otherwise [end] is [begin] advanced by the size; the [i]-th position
    from [begin], for [i] below the size, holds the [i]-th live element. *)
Theorem begin_end_range σ this sz :
  valid σ this →
  GetSize this σ = (Ret sz, σ) →
  ∃ b e, begin this σ = (Ret b, σ) ∧ end_ this σ = (Ret e, σ) ∧
         cbegin this σ = (Ret b, σ) ∧ cend this σ = (Ret e, σ) ∧
         (sz = 0 → b = nullptr ∧ e = nullptr) ∧
         (sz ≠ 0 → b ≠ nullptr ∧ e = b +ₚ sz) ∧
         distance b e σ = (Ret (length (contents σ this)), σ) ∧
         (∀ i x, contents σ this !! i = Some x →
                 load (b +ₚ Z.of_nat i) σ = (Ret x, σ)).
Proof.
  intros Hvalid Hn.
  apply valid_holds in Hvalid as (sz0 & cap & buf & Hh & Hsz & Hcap & Hmax).
  rewrite (holds_GetSize _ _ _ _ _ Hh) in Hn. injection Hn as ->.
  rewrite (holds_contents _ _ _ _ _ Hh).
  destruct σ as [h vs pl].
  apply holds_inv in Hh as [[Hv ->]|(l & Hv & Hl)].
  - simpl in Hcap. assert (sz = 0) as -> by lia.
    exists nullptr, nullptr. unfold cbegin, cend.
    erewrite begin_ok, end_ok by done. simpl.
    repeat split; done.
  - unfold cbegin, cend. erewrite begin_ok, end_ok by done. simpl.
    destruct (decide (sz = 0)) as [->|Hnz].
    + exists nullptr, nullptr. repeat split; done.
    + exists (Ptr (Some l) 0), (Ptr (Some l) sz).
      split; [done|]. split; [unfold ptr_add; simpl; do 3 f_equal; lia|].
      split; [done|]. split; [unfold ptr_add; simpl; do 3 f_equal; lia|].
      split; [done|]. split; [done|]. split.
      * rewrite distance_ok by lia. rewrite length_take. do 2 f_equal. lia.
      * intros i x Hx. apply lookup_take_Some in Hx as [Hx Hi].
        norm. eapply load_ok; [done|lia|]. by rewrite Nat2Z.id.
Qed.

Lemma exchange_raw_ptr_ok h vs pl v sv p :
  vs !! v = Some sv →
  exchange_raw_ptr v p (mkState h vs pl)
  = (Ret (raw_ptr_ (items_ sv)),
     mkState h (<[v := mkSimpleVector (mkArrayPtr p) (size_ sv) (capacity_ sv)]> vs) pl).
Proof. intros Hv. unfold exchange_raw_ptr. by do 2 step. Qed.

Lemma exchange_size_ok h vs pl v sv n :
  vs !! v = Some sv →
  exchange_size v n (mkState h vs pl)
  = (Ret (size_ sv),
     mkState h (<[v := mkSimpleVector (items_ sv) n (capacity_ sv)]> vs) pl).
Proof. intros Hv. unfold exchange_size. by do 2 step. Qed.

Lemma exchange_capacity_ok h vs pl v sv n :
  vs !! v = Some sv →
  exchange_capacity v n (mkState h vs pl)
  = (Ret (capacity_ sv),
     mkState h (<[v := mkSimpleVector (items_ sv) (size_ sv) n]> vs) pl).
Proof. intros Hv. unfold exchange_capacity. by do 2 step. Qed.

(** C10. Move-assigning a sequence to itself returns and leaves the whole
    state as it was: the buffer pointer, the size and the capacity of the
    sequence keep their values. *)
Theorem move_assign_self σ this sv :
  vecs σ !! this = Some sv →
  move_assign this this σ = (Ret tt, σ) ∧
  get_items this σ = (Ret (items_ sv), σ) ∧
  GetSize this σ = (Ret (size_ sv), σ) ∧
  GetCapacity this σ = (Ret (capacity_ sv), σ).
Proof.
  intros Hv. destruct σ as [h vs pl]. simpl in Hv.
  split; [|by erewrite get_items_ok, (get_size_ok _ _ _ _ sv),
                        (get_capacity_ok _ _ _ _ sv) by done].
  unfold move_assign, items_move_assign.
  erewrite bind_Ret.
  2:{ erewrite bind_Ret by (by apply exchange_raw_ptr_ok).
      apply set_items_ok. vlookup. }
  norm.
  erewrite bind_Ret by (apply exchange_size_ok; vlookup). norm.
  step.
  erewrite bind_Ret by (apply exchange_capacity_ok; vlookup). norm.
  erewrite set_capacity_ok by vlookup. norm.
  rewrite !insert_insert_eq. destruct sv as [[p] sz cap]. simpl.
  by rewrite insert_id.
Qed.
End access.

(** ** Comparisons *)

Section comparisons.
Context {T : Type} {E : Element T} {B : Build}.
Implicit Types (h : gmap loc (list T)) (vs : gmap vid SimpleVector).
Implicit Types (pl : list new_outcome) (buf : list T) (sv : SimpleVector).
Implicit Types (σ : state T).

Lemma reads_block h vs pl l buf n : ∀ s,
  h !! l = Some buf → 0 ≤ s →
  reads (mkState h vs pl) (Ptr (Some l) s) (take n (drop (Z.to_nat s) buf)).
Proof.
  induction n as [|n IH]; intros s Hl Hs; [done|].
  destruct (buf !! Z.to_nat s) as [x|] eqn:Hx.
  - rewrite (drop_S _ _ _ Hx). simpl. split; [by eapply load_ok|].
    unfold ptr_add; simpl.
    replace (S (Z.to_nat s)) with (Z.to_nat (s + 1)) by lia.
    apply IH; [done|lia].
  - rewrite drop_ge by (by apply lookup_ge_None). by rewrite take_nil.
Qed.

Lemma equal_loop_reads σ (l1 : list T) : ∀ l2 p1 p2,
  length l1 = length l2 → reads σ p1 l1 → reads σ p2 l2 →
  equal_loop (length l1) p1 p2 σ = (Ret (equal_lists l1 l2), σ).
Proof.
  induction l1 as [|x l1 IH]; intros [|y l2] p1 p2 Hlen Hr1 Hr2; try done.
  simpl in *. destruct Hr1 as [Hx Hr1], Hr2 as [Hy Hr2].
  erewrite bind_Ret by done. erewrite bind_Ret by done.
  destruct (T_eqb x y); [|done]. apply IH; [lia|done..].
Qed.

Lemma lexicographical_loop_reads σ (l1 : list T) : ∀ l2 p1 p2,
  reads σ p1 l1 → reads σ p2 l2 →
  lexicographical_loop (length l1) (length l2) p1 p2 σ
  = (Ret (lex_lists l1 l2), σ).
Proof.
  induction l1 as [|x l1 IH]; intros [|y l2] p1 p2 Hr1 Hr2; try done.
  simpl in *. destruct Hr1 as [Hx Hr1], Hr2 as [Hy Hr2].
  erewrite bind_Ret by done. erewrite bind_Ret by done.
  destruct (T_ltb x y); [done|]. destruct (T_ltb y x); [done|].
  by apply IH.
Qed.

Lemma equal_lists_spec (l1 : list T) : ∀ l2,
  length l1 = length l2 →
  equal_lists l1 l2 = true ↔ pairwise_equal l1 l2.
Proof.
  unfold pairwise_equal.
  induction l1 as [|x l1 IH]; intros [|y l2] Hlen; try done.
  simpl in *. destruct (T_eqb x y) eqn:Hxy.
  - rewrite IH by lia. split.
    + intros [_ Hall]. split; [done|]. intros [|i] x' y' Hx' Hy'.
      * by simplify_eq/=.
      * by eapply Hall.
    + intros [_ Hall]. split; [lia|]. intros i x' y' Hx' Hy'.
      by apply (Hall (S i)).
  - split; [done|]. intros [_ Hall].
    specialize (Hall 0%nat x y eq_refl eq_refl). congruence.
Qed.

Lemma lex_lists_spec (l1 : list T) : ∀ l2, lex_lists l1 l2 = true ↔ lex_less l1 l2.
Proof.
  unfold lex_less.
  induction l1 as [|x l1 IH]; intros [|y l2].
  - split; [done|]. intros (k & _ & _ & _ & [[_ Hk]|(x & y & Hx & _)]).
    + simpl in Hk. lia.
    + by destruct k.
  - split; [|done]. intros _. exists 0%nat.
    split; [intros; lia|]. simpl. split; [lia|]. split; [lia|]. left. lia.
  - split; [done|]. intros (k & _ & _ & Hk & [[Hk' _]|(x' & y & _ & Hy & _)]).
    + simpl in *. lia.
    + by destruct k.
  - simpl. destruct (T_ltb x y) eqn:Hxy; [|destruct (T_ltb y x) eqn:Hyx].
    + split; [|done]. intros _. exists 0%nat.
      split; [intros; lia|]. split; [lia|]. split; [lia|].
      right. by exists x, y.
    + split; [done|].
      intros ([|k] & Hpre & _ & _ & [[Hk _]|(x' & y' & Hx' & Hy' & Hlt)]).
      * simpl in Hk. lia.
      * simplify_eq/=. congruence.
      * destruct (Hpre 0%nat x y) as [_ ?]; [lia|done..|congruence].
      * destruct (Hpre 0%nat x y) as [_ ?]; [lia|done..|congruence].
    + rewrite IH. split.
      * intros (k & Hpre & Hk1 & Hk2 & Hend). exists (S k).
        split; [|split; [lia|split; [lia|]]].
        -- intros [|i] x' y' Hi Hx' Hy'.
           ++ by simplify_eq/=.
           ++ apply (Hpre i); [lia|done..].
        -- destruct Hend as [[-> Hlt]|Hend]; [left; lia|by right].
      * intros ([|k] & Hpre & Hk1 & Hk2 & Hend).
        -- destruct Hend as [[Hk _]|(x' & y' & Hx' & Hy' & Hlt)].
           ++ simpl in Hk. lia.
           ++ simplify_eq/=. congruence.
        -- exists k. split; [|split; [lia|split; [lia|]]].
           ++ intros i x' y' Hi Hx' Hy'. apply (Hpre (S i)); [lia|done..].
           ++ destruct Hend as [[Hk Hlt]|Hend]; [left; lia|by right].
Qed.

(** What a valid sequence offers to the algorithms. *)
Lemma valid_range σ v :
  valid σ v →
  ∃ b e, begin v σ = (Ret b, σ) ∧ end_ v σ = (Ret e, σ) ∧
         distance b e σ = (Ret (length (contents σ v)), σ) ∧
         reads σ b (contents σ v) ∧
         GetSize v σ = (Ret (Z.of_nat (length (contents σ v))), σ).
Proof.
  intros Hvalid.
  apply valid_holds in Hvalid as (sz & cap & buf & Hh & Hsz & Hcap & Hmax).
  rewrite (holds_contents _ _ _ _ _ Hh), (holds_GetSize _ _ _ _ _ Hh).
  rewrite length_take. replace (Z.of_nat (Z.to_nat sz `min` length buf)) with sz by lia.
  destruct σ as [h vs pl].
  apply holds_inv in Hh as [[Hv ->]|(l & Hv & Hl)].
  - simpl in Hcap. assert (sz = 0) as -> by lia.
    exists nullptr, nullptr. erewrite begin_ok, end_ok by done. done.
  - erewrite begin_ok, end_ok by done. simpl.
    destruct (decide (sz = 0)) as [->|Hnz].
    + exists nullptr, nullptr. done.
    + exists (Ptr (Some l) 0), (Ptr (Some l) sz). unfold ptr_add; simpl.
      split; [done|]. split; [done|].
      split; [|split; [|done]].
      * rewrite distance_ok by lia. do 3 f_equal. lia.
      * by apply (reads_block h vs pl l buf (Z.to_nat sz) 0).
Qed.

(** C8. On valid sequences the six operators return without touching the
    state: [==] is true exactly when the sizes are the same and the
    elements pairwise equal in order, [<] exactly when the left elements
    come lexicographically before the right ones, and [!=], [<=], [>],
    [>=] are [!(l == r)], [!(r < l)], [r < l] and [!(l < r)]. *)
Theorem comparison_operators σ lhs rhs :
  valid σ lhs → valid σ rhs →
  ∃ beq blt bgt,
    op_eq lhs rhs σ = (Ret beq, σ) ∧
    (beq = true ↔ pairwise_equal (contents σ lhs) (contents σ rhs)) ∧
    op_lt lhs rhs σ = (Ret blt, σ) ∧
    (blt = true ↔ lex_less (contents σ lhs) (contents σ rhs)) ∧
    op_lt rhs lhs σ = (Ret bgt, σ) ∧
    (bgt = true ↔ lex_less (contents σ rhs) (contents σ lhs)) ∧
    op_ne lhs rhs σ = (Ret (negb beq), σ) ∧
    op_le lhs rhs σ = (Ret (negb bgt), σ) ∧
    op_gt lhs rhs σ = (Ret bgt, σ) ∧
    op_ge lhs rhs σ = (Ret (negb blt), σ).
Proof.
  intros Hl Hr.
  destruct (valid_range σ lhs Hl) as (b1 & e1 & Hb1 & He1 & Hd1 & Hr1 & Hn1).
  destruct (valid_range σ rhs Hr) as (b2 & e2 & Hb2 & He2 & Hd2 & Hr2 & Hn2).
  set (c1 := contents σ lhs) in *. set (c2 := contents σ rhs) in *.
  assert (op_lt lhs rhs σ = (Ret (lex_lists c1 c2), σ)) as Hlt.
  { unfold op_lt, std_lexicographical_compare.
    erewrite !bind_Ret by done. by apply lexicographical_loop_reads. }
  assert (op_lt rhs lhs σ = (Ret (lex_lists c2 c1), σ)) as Hgt.
  { unfold op_lt, std_lexicographical_compare.
    erewrite !bind_Ret by done. by apply lexicographical_loop_reads. }
  assert (∃ beq, op_eq lhs rhs σ = (Ret beq, σ)
                 ∧ (beq = true ↔ pairwise_equal c1 c2)) as (beq & Heq & Hspec).
  { unfold op_eq. erewrite !bind_Ret by done. case_decide as Hlen.
    - apply Nat2Z.inj in Hlen.
      exists (equal_lists c1 c2). split; [|by apply equal_lists_spec].
      unfold std_equal. erewrite !bind_Ret by done.
      by apply equal_loop_reads.
    - exists false. split; [done|]. split; [done|].
      intros [Hlen' _]. congruence. }
  exists beq, (lex_lists c1 c2), (lex_lists c2 c1).
  split; [done|]. split; [done|]. split; [done|].
  split; [apply lex_lists_spec|]. split; [done|].
  split; [apply lex_lists_spec|].
  unfold op_ne, op_le, op_gt, op_ge.
  by erewrite !bind_Ret by done.
Qed.
End comparisons.

(** ** Resizing, clearing, removing the last element *)

Section sizing.
Context {T : Type} {E : Element T} {B : Build}.
Implicit Types (h : gmap loc (list T)) (vs : gmap vid SimpleVector).
Implicit Types (pl : list new_outcome) (buf : list T) (sv : SimpleVector).
Implicit Types (σ : state T).

(** Within the capacity [Resize] only writes [size_]. *)
Lemma Resize_holds_within σ this n sz cap buf :
  holds σ this sz cap buf → n ≤ cap →
  ∃ σ', Resize this n σ = (Ret tt, σ') ∧ holds σ' this n cap buf ∧
        heap σ' = heap σ ∧ plan σ' = plan σ.
Proof.
  destruct σ as [h vs pl]. intros (a & Hv & Hb) Hn. unfold Resize.
  step. destruct (decide (n ≤ sz)) as [Hle|Hgt].
  - erewrite set_size_ok by done. eexists. split; [done|].
    split; [|done]. exists a. split; [apply lookup_insert_eq|done].
  - step. rewrite decide_True by lia.
    erewrite set_size_ok by done. eexists. split; [done|].
    split; [|done]. exists a. split; [apply lookup_insert_eq|done].
Qed.

Lemma take_blit_longer (src dst : list T) (n m : nat) :
  (n ≤ length src)%nat → (n ≤ m)%nat → (m ≤ length dst)%nat →
  take m (blit src 0 dst 0 n) = take n src ++ take (m - n) (drop n dst).
Proof.
  intros Hs Hnm Hd. apply list_eq; intros j. unfold blit.
  rewrite lookup_take, list_lookup_imap, lookup_app, length_take, !lookup_take,
    lookup_drop.
  repeat case_decide; destruct_and?; simplify_eq/=; try lia; lookup_cases.
Qed.

Lemma Resize_holds_beyond σ this n sz cap buf :
  holds σ this sz cap buf →
  0 ≤ sz ≤ cap → cap = Z.of_nat (length buf) → cap ≤ max_slots → cap < n →
  will_allocate σ (Z.max n (2 * cap)) = true →
  ∃ σ' buf',
    Resize this n σ = (Ret tt, σ') ∧
    holds σ' this n (Z.max n (2 * cap)) buf' ∧
    Z.max n (2 * cap) = Z.of_nat (length buf') ∧
    take (Z.to_nat n) buf'
    = take (Z.to_nat sz) buf ++ replicate (Z.to_nat (n - sz)) T_default.
Proof.
  destruct σ as [h vs pl]. intros Hh Hsz Hcap Hmax Hn Hal.
  unfold Resize.
  apply will_allocate_max in Hal as Hnew.
  remember (Z.max n (2 * cap)) as new_capacity eqn:Hnc.
  destruct (ArrayPtr_ctor_ok h vs pl new_capacity) as (l' & Hfresh & Hctor);
    [lia|done|].
  apply holds_inv in Hh as [[Hv ->]|(l & Hv & Hl)].
  - assert (cap = 0) as -> by (simpl in Hcap; lia). assert (sz = 0) as -> by lia.
    step. rewrite decide_False by lia. step.
    rewrite decide_False by lia. rewrite decide_True by lia.
    change (wrap (2 * 0)) with 0. replace (Z.max n 0) with new_capacity by lia.
    erewrite bind_Ret by exact Hctor.
    do 2 step. rewrite decide_True by done.
    erewrite bind_Ret by apply std_copy_null.
    do 3 step. rewrite ArrayPtr_dtor_null.
    eexists _, _. split; [done|]. split; [|split].
    + eapply holds_block; [apply lookup_insert_eq|apply lookup_insert_eq].
    + rewrite length_replicate. lia.
    + simpl. rewrite take_replicate. f_equal. lia.
  - assert (l ≠ l') as Hne by congruence.
    step. rewrite decide_False by lia. step.
    rewrite decide_False by lia. rewrite decide_True by lia.
    rewrite max_slots_double by lia. rewrite <- Hnc.
    erewrite bind_Ret by exact Hctor.
    do 2 step.
    erewrite bind_Ret.
    2:{ apply (std_copy_live _ _ _ _ _ _ buf);
          [done|by rewrite lookup_insert_ne|apply lookup_insert_eq|lia|].
        rewrite length_replicate. lia. }
    norm. do 3 step.
    erewrite ArrayPtr_dtor_block by hlookup.
    eexists _, _. split; [done|]. split; [|split].
    + eapply holds_block; [apply lookup_insert_eq|hlookup].
    + rewrite length_blit, length_replicate. lia.
    + rewrite take_blit_longer; [|lia|lia|rewrite length_replicate; lia].
      f_equal. rewrite drop_replicate, take_replicate. f_equal. lia.
Qed.

Lemma valid_intro σ v sz cap buf :
  holds σ v sz cap buf → 0 ≤ sz ≤ cap → cap = Z.of_nat (length buf) →
  cap ≤ max_slots → valid σ v.
Proof. intros. apply valid_holds. by exists sz, cap, buf. Qed.

(** X1. [Resize(n)] with [n] at most the size truncates: the sequence keeps
    its first [n] elements, its capacity and its arrays. *)
Theorem Resize_truncates σ this n sz c :
  valid σ this →
  GetSize this σ = (Ret sz, σ) → GetCapacity this σ = (Ret c, σ) →
  0 ≤ n ≤ sz →
  ∃ σ', Resize this n σ = (Ret tt, σ') ∧
        GetSize this σ' = (Ret n, σ') ∧ GetCapacity this σ' = (Ret c, σ') ∧
        contents σ' this = take (Z.to_nat n) (contents σ this) ∧
        heap σ' = heap σ ∧ valid σ' this.
Proof.
  intros Hvalid Hsz Hc Hn.
  apply valid_holds in Hvalid as (sz0 & cap & buf & Hh & Hb & Hcap & Hmax).
  rewrite (holds_GetSize _ _ _ _ _ Hh) in Hsz.
  rewrite (holds_GetCapacity _ _ _ _ _ Hh) in Hc. simplify_eq.
  destruct (Resize_holds_within σ this n sz (Z.of_nat (length buf)) buf)
    as (σ' & Hrun & Hh' & Hheap & _); [done|lia|].
  exists σ'. split; [done|]. split; [by eapply holds_GetSize|].
  split; [by eapply holds_GetCapacity|]. split.
  { rewrite (holds_contents _ _ _ _ _ Hh), (holds_contents _ _ _ _ _ Hh').
    rewrite take_take. f_equal. lia. }
  split; [done|]. eapply valid_intro; [done|lia|done|lia].
Qed.

(** X2. Two truncations compose: [Resize(n)] then [Resize(m)] with
    [m ≤ n ≤ size] leaves the first [m] elements of the original. *)
Theorem Resize_truncates_twice σ this n m sz :
  valid σ this →
  GetSize this σ = (Ret sz, σ) →
  0 ≤ m ≤ n → n ≤ sz →
  ∃ σ1 σ2, Resize this n σ = (Ret tt, σ1) ∧ Resize this m σ1 = (Ret tt, σ2) ∧
           GetSize this σ2 = (Ret m, σ2) ∧
           contents σ2 this = take (Z.to_nat m) (contents σ this).
Proof.
  intros Hvalid Hsz Hm Hn.
  apply valid_holds in Hvalid as (sz0 & cap & buf & Hh & Hb & Hcap & Hmax).
  rewrite (holds_GetSize _ _ _ _ _ Hh) in Hsz. simplify_eq.
  destruct (Resize_holds_within σ this n sz (Z.of_nat (length buf)) buf)
    as (σ1 & Hrun1 & Hh1 & _); [done|lia|].
  destruct (Resize_holds_within σ1 this m n (Z.of_nat (length buf)) buf)
    as (σ2 & Hrun2 & Hh2 & _); [done|lia|].
  exists σ1, σ2. split; [done|]. split; [done|].
  split; [by eapply holds_GetSize|].
  rewrite (holds_contents _ _ _ _ _ Hh), (holds_contents _ _ _ _ _ Hh2).
  rewrite take_take. f_equal. lia.
Qed.

(** X3. [Resize(n)] with [size < n ≤ capacity] allocates nothing and writes
    no element: the arrays and the allocation plan are as before, the
    capacity is the same, the size is [n] and the first [size] elements are
    the old ones. *)
Theorem Resize_grows_in_place σ this n sz c :
  valid σ this →
  GetSize this σ = (Ret sz, σ) → GetCapacity this σ = (Ret c, σ) →
  sz < n ≤ c →
  ∃ σ', Resize this n σ = (Ret tt, σ') ∧
        GetSize this σ' = (Ret n, σ') ∧ GetCapacity this σ' = (Ret c, σ') ∧
        take (Z.to_nat sz) (contents σ' this) = contents σ this ∧
        heap σ' = heap σ ∧ plan σ' = plan σ ∧ valid σ' this.
Proof.
  intros Hvalid Hsz Hc Hn.
  apply valid_holds in Hvalid as (sz0 & cap & buf & Hh & Hb & Hcap & Hmax).
  rewrite (holds_GetSize _ _ _ _ _ Hh) in Hsz.
  rewrite (holds_GetCapacity _ _ _ _ _ Hh) in Hc. simplify_eq.
  destruct (Resize_holds_within σ this n sz (Z.of_nat (length buf)) buf)
    as (σ' & Hrun & Hh' & Hheap & Hplan); [done|lia|].
  exists σ'. split; [done|]. split; [by eapply holds_GetSize|].
  split; [by eapply holds_GetCapacity|]. split.
  { rewrite (holds_contents _ _ _ _ _ Hh), (holds_contents _ _ _ _ _ Hh').
    rewrite take_take. f_equal. lia. }
  split; [done|]. split; [done|]. eapply valid_intro; [done|lia|done|lia].
Qed.

(** X4. [Resize(n)] with [n] above the capacity (given that the allocation
    succeeds) installs a buffer of [max(n, 2 * capacity)] slots holding the
    old elements followed by [n - size] default values. *)
Theorem Resize_reallocates σ this n sz c :
  valid σ this →
  GetSize this σ = (Ret sz, σ) → GetCapacity this σ = (Ret c, σ) →
  c < n →
  will_allocate σ (Z.max n (2 * c)) = true →
  ∃ σ', Resize this n σ = (Ret tt, σ') ∧
        GetSize this σ' = (Ret n, σ') ∧
        GetCapacity this σ' = (Ret (Z.max n (2 * c)), σ') ∧
        slots σ' this = Z.max n (2 * c) ∧
        contents σ' this
        = contents σ this ++ replicate (Z.to_nat (n - sz)) T_default ∧
        valid σ' this.
Proof.
  intros Hvalid Hsz Hc Hn Hal.
  apply valid_holds in Hvalid as (sz0 & cap & buf & Hh & Hb & Hcap & Hmax).
  rewrite (holds_GetSize _ _ _ _ _ Hh) in Hsz.
  rewrite (holds_GetCapacity _ _ _ _ _ Hh) in Hc. simplify_eq.
  destruct (Resize_holds_beyond σ this n sz (Z.of_nat (length buf)) buf)
    as (σ' & buf' & Hrun & Hh' & Hcap' & Htake); [done..|].
  exists σ'. split; [done|]. split; [by eapply holds_GetSize|].
  split; [by eapply holds_GetCapacity|].
  split; [by rewrite (holds_slots _ _ _ _ _ Hh')|]. split.
  { by rewrite (holds_contents _ _ _ _ _ Hh), (holds_contents _ _ _ _ _ Hh'). }
  apply will_allocate_max in Hal.
  eapply valid_intro; [done|lia|done|lia].
Qed.

(** X5. [Clear] empties the sequence and keeps its storage: size 0, the
    capacity and the arrays as before, [IsEmpty] true, and [begin] and
    [end] both null. *)
Theorem Clear_empties σ this c :
  valid σ this → GetCapacity this σ = (Ret c, σ) →
  ∃ σ', Clear this σ = (Ret tt, σ') ∧
        GetSize this σ' = (Ret 0, σ') ∧ IsEmpty this σ' = (Ret true, σ') ∧
        GetCapacity this σ' = (Ret c, σ') ∧
        contents σ' this = [] ∧
        begin this σ' = (Ret nullptr, σ') ∧ end_ this σ' = (Ret nullptr, σ') ∧
        heap σ' = heap σ ∧ valid σ' this.
Proof.
  intros Hvalid Hc.
  apply valid_holds in Hvalid as (sz & cap & buf & Hh & Hb & Hcap & Hmax).
  rewrite (holds_GetCapacity _ _ _ _ _ Hh) in Hc. simplify_eq.
  destruct σ as [h vs pl]. destruct Hh as (a & Hv & Hbuf).
  unfold Clear. erewrite set_size_ok by done.
  exists (mkState h (<[this := mkSimpleVector a 0 (Z.of_nat (length buf))]> vs) pl).
  split; [done|].
  assert (holds (mkState h (<[this := mkSimpleVector a 0 (Z.of_nat (length buf))]> vs) pl)
            this 0 (Z.of_nat (length buf)) buf) as Hh'.
  { exists a. split; [apply lookup_insert_eq|done]. }
  split; [by eapply holds_GetSize|]. split.
  { unfold IsEmpty. by erewrite bind_Ret by (apply get_size_ok, lookup_insert_eq). }
  split; [by eapply holds_GetCapacity|].
  split; [by rewrite (holds_contents _ _ _ _ _ Hh')|].
  split; [by erewrite begin_ok by apply lookup_insert_eq|].
  split; [by erewrite end_ok by apply lookup_insert_eq|].
  split; [done|]. eapply valid_intro; [done|lia|done|lia].
Qed.

Lemma PopBack_holds σ this sz cap buf :
  holds σ this sz cap buf → 0 < sz ≤ cap → cap ≤ max_slots →
  ∃ σ', PopBack this σ = (Ret tt, σ') ∧ holds σ' this (sz - 1) cap buf ∧
        heap σ' = heap σ.
Proof.
  destruct σ as [h vs pl]. intros (a & Hv & Hb) Hsz Hmax. unfold PopBack.
  step. erewrite bind_Ret.
  2:{ apply assert_ok. apply bool_decide_eq_true_2. lia. }
  erewrite set_size_ok by done.
  rewrite wrap_small by (unfold max_slots, size_t_modulus in *; lia).
  eexists. split; [done|]. split; [|done].
  exists a. split; [apply lookup_insert_eq|done].
Qed.

(** X6. [PopBack] on a non-empty valid sequence removes exactly the last
    element and keeps the capacity and the arrays. *)
Theorem PopBack_drops_last σ this sz c :
  valid σ this →
  GetSize this σ = (Ret sz, σ) → GetCapacity this σ = (Ret c, σ) →
  sz ≠ 0 →
  ∃ σ' x, PopBack this σ = (Ret tt, σ') ∧
        GetSize this σ' = (Ret (sz - 1), σ') ∧
        GetCapacity this σ' = (Ret c, σ') ∧
        contents σ this = contents σ' this ++ [x] ∧
        heap σ' = heap σ ∧ valid σ' this.
Proof.
  intros Hvalid Hsz Hc Hnz.
  apply valid_holds in Hvalid as (sz0 & cap & buf & Hh & Hb & Hcap & Hmax).
  rewrite (holds_GetSize _ _ _ _ _ Hh) in Hsz.
  rewrite (holds_GetCapacity _ _ _ _ _ Hh) in Hc. simplify_eq.
  destruct (PopBack_holds σ this sz (Z.of_nat (length buf)) buf)
    as (σ' & Hrun & Hh' & Hheap); [done|lia|done|].
  destruct (lookup_lt_is_Some_2 buf (Z.to_nat (sz - 1))) as [x Hx]; [lia|].
  exists σ', x. split; [done|]. split; [by eapply holds_GetSize|].
  split; [by eapply holds_GetCapacity|]. split.
  { rewrite (holds_contents _ _ _ _ _ Hh), (holds_contents _ _ _ _ _ Hh').
    replace (Z.to_nat sz) with (S (Z.to_nat (sz - 1))) by lia.
    by apply take_S_r. }
  split; [done|]. eapply valid_intro; [done|lia|done|lia].
Qed.

(** X7. [PopBack] on an empty sequence: with assertions on, the program
    aborts with the state untouched; with assertions compiled out, the size
    wraps around to 2^64 - 1 and the sequence is no longer valid. *)
Theorem PopBack_on_empty σ this :
  GetSize this σ = (Ret 0, σ) →
  (NDEBUG = false → PopBack this σ = (Abort, σ)) ∧
  (NDEBUG = true →
     ∃ σ', PopBack this σ = (Ret tt, σ') ∧
           GetSize this σ' = (Ret 18446744073709551615, σ') ∧
           ¬ valid σ' this).
Proof.
  intros Hsz. apply GetSize_inv in Hsz as (sv & Hv & Hz).
  destruct σ as [h vs pl]. simpl in Hv. unfold PopBack. split.
  - intros Hnd. step. rewrite Hz. unfold bind, assert_. by rewrite Hnd.
  - intros Hnd. step. rewrite Hz. unfold bind at 1, assert_. rewrite Hnd. simpl.
    erewrite set_size_ok by done. eexists. split; [done|]. split.
    + unfold GetSize. by erewrite get_size_ok by apply lookup_insert_eq.
    + intros Hvalid. apply valid_holds in Hvalid
        as (sz & cap & buf & (a & Hv' & _) & Hb & _ & Hmax).
      simpl in Hv'. rewrite lookup_insert_eq in Hv'.
      injection Hv' as _ Hsz' _. unfold max_slots in Hmax.
      change (wrap (0 - 1)) with 18446744073709551615 in Hsz'. lia.
Qed.

(** X8. [PushBack] followed by [PopBack] gives back the original elements
    (the capacity may have grown). *)
Theorem PushBack_then_PopBack σ this item n c :
  valid σ this →
  GetSize this σ = (Ret n, σ) → GetCapacity this σ = (Ret c, σ) →
  (n = c → will_allocate σ (Z.max (2 * c) 1) = true) →
  ∃ σ1 σ2, PushBack this item σ = (Ret tt, σ1) ∧
           PopBack this σ1 = (Ret tt, σ2) ∧
           GetSize this σ2 = (Ret n, σ2) ∧
           contents σ2 this = contents σ this ∧ valid σ2 this.
Proof.
  intros Hvalid Hn Hc Hal.
  apply valid_holds in Hvalid as (sz & cap & buf & Hh & Hsz & Hcap & Hmax).
  rewrite (holds_GetSize _ _ _ _ _ Hh) in Hn.
  rewrite (holds_GetCapacity _ _ _ _ _ Hh) in Hc. simplify_eq.
  destruct (PushBack_holds σ this item n (Z.of_nat (length buf)) buf)
    as (σ1 & cap1 & buf1 & Hrun1 & Hh1 & Hcap1 & Hsz1 & Htake); [done..|].
  destruct (PopBack_holds σ1 this (n + 1) cap1 buf1)
    as (σ2 & Hrun2 & Hh2 & _); [done|lia|lia|].
  replace (n + 1 - 1) with n in Hh2 by lia.
  exists σ1, σ2. split; [done|]. split; [done|].
  split; [by eapply holds_GetSize|]. split.
  - rewrite (holds_contents _ _ _ _ _ Hh), (holds_contents _ _ _ _ _ Hh2).
    replace (Z.to_nat (n + 1)) with (S (Z.to_nat n)) in Htake by lia.
    apply (f_equal (take (Z.to_nat n))) in Htake.
    rewrite take_take in Htake.
    rewrite take_app_length' in Htake by (rewrite length_take; lia).
    by replace (Z.to_nat n `min` S (Z.to_nat n))%nat with (Z.to_nat n) in Htake by lia.
  - eapply valid_intro; [done|lia|done|lia].
Qed.
End sizing.

(** ** Insertion, removal and growth, seen from outside *)

Section positions.
Context {T : Type} {E : Element T} {B : Build}.
Implicit Types (h : gmap loc (list T)) (vs : gmap vid SimpleVector).
Implicit Types (pl : list new_outcome) (buf : list T) (sv : SimpleVector).
Implicit Types (σ : state T).

Lemma holds_load_begin σ v sz cap buf b i x :
  holds σ v sz cap buf → begin v σ = (Ret b, σ) →
  0 ≤ i < sz → buf !! Z.to_nat i = Some x →
  load (b +ₚ i) σ = (Ret x, σ).
Proof.
  destruct σ as [h vs pl]. intros Hh Hb Hi Hx.
  apply holds_inv in Hh as [[Hv ->]|(l & Hv & Hl)]; [done|].
  erewrite begin_ok in Hb by done. simpl in Hb.
  rewrite decide_False in Hb by lia. injection Hb as <-.
  norm. by eapply load_ok; [|lia|].
Qed.

(** X9. [Insert] at position [p] of a valid sequence (given that the
    reallocation, when one is needed, gets its memory) returns an iterator
    to the inserted value; the elements are the first [p] old ones, the
    value, then the remaining old ones; the size grows by one. *)
Theorem Insert_places σ this p value n c b :
  valid σ this →
  GetSize this σ = (Ret n, σ) → GetCapacity this σ = (Ret c, σ) →
  begin this σ = (Ret b, σ) → 0 ≤ p ≤ n →
  (n = c → will_allocate σ (Z.max (2 * c) 1) = true) →
  ∃ σ' it, Insert this (b +ₚ p) value σ = (Ret it, σ') ∧
           load it σ' = (Ret value, σ') ∧
           GetSize this σ' = (Ret (n + 1), σ') ∧
           contents σ' this
           = take (Z.to_nat p) (contents σ this)
             ++ value :: drop (Z.to_nat p) (contents σ this) ∧
           valid σ' this.
Proof.
  intros Hvalid Hn Hc Hb Hp Hal.
  apply valid_holds in Hvalid as (sz & cap & buf & Hh & Hsz & Hcap & Hmax).
  rewrite (holds_GetSize _ _ _ _ _ Hh) in Hn.
  rewrite (holds_GetCapacity _ _ _ _ _ Hh) in Hc. simplify_eq.
  destruct (Insert_holds σ this p value n (Z.of_nat (length buf)) buf b)
    as (σ' & cap' & buf' & b' & Hins & Hb' & Hh' & Hcap' & Hsz' & Htake);
    [done..|].
  exists σ', (b' +ₚ p). split; [done|]. split.
  { eapply holds_load_begin; [done|done|lia|].
    rewrite <- (lookup_take_lt buf' (Z.to_nat (n + 1))) by lia.
    rewrite Htake, insert_at_lookup by (rewrite length_take; lia).
    rewrite decide_False by lia. by rewrite decide_True. }
  split; [by eapply holds_GetSize|]. split.
  { by rewrite (holds_contents _ _ _ _ _ Hh), (holds_contents _ _ _ _ _ Hh'). }
  eapply valid_intro; [done|lia|done|lia].
Qed.

(** X10. [Erase] at a live position [p] of a valid sequence removes that
    element and keeps the others in order, with the capacity unchanged; the
    iterator returned is position [p] of the result, and it is null when the
    only element was erased. *)
Theorem Erase_removes σ this p n c b :
  valid σ this →
  GetSize this σ = (Ret n, σ) → GetCapacity this σ = (Ret c, σ) →
  begin this σ = (Ret b, σ) → 0 ≤ p < n →
  ∃ σ' b', Erase this (b +ₚ p) σ = (Ret (b' +ₚ p), σ') ∧
           begin this σ' = (Ret b', σ') ∧
           (n = 1 → b' +ₚ p = nullptr) ∧
           GetSize this σ' = (Ret (n - 1), σ') ∧
           GetCapacity this σ' = (Ret c, σ') ∧
           contents σ' this
           = take (Z.to_nat p) (contents σ this)
             ++ drop (S (Z.to_nat p)) (contents σ this) ∧
           valid σ' this.
Proof.
  intros Hvalid Hn Hc Hb Hp.
  apply valid_holds in Hvalid as (sz & cap & buf & Hh & Hsz & Hcap & Hmax).
  rewrite (holds_GetSize _ _ _ _ _ Hh) in Hn.
  rewrite (holds_GetCapacity _ _ _ _ _ Hh) in Hc. simplify_eq.
  destruct (Erase_holds σ this p n (Z.of_nat (length buf)) buf b)
    as (σ' & buf' & b' & Hera & Hb' & Hh' & Hlen & Htake); [done..|].
  exists σ', b'. split; [done|]. split; [done|]. split.
  { intros ->. assert (p = 0) as -> by lia.
    destruct σ' as [h' vs' pl']. destruct Hh' as (a & Hv' & _).
    erewrite begin_ok in Hb' by done. simpl in Hb'. by injection Hb' as <-. }
  split; [by eapply holds_GetSize|]. split; [by eapply holds_GetCapacity|].
  split.
  { by rewrite (holds_contents _ _ _ _ _ Hh), (holds_contents _ _ _ _ _ Hh'). }
  eapply valid_intro; [done|lia|lia|lia].
Qed.

(** X11. [PushBack] on a sequence with room left allocates nothing: it
    returns even when no memory is available, the buffer pointer, the
    capacity and the allocation plan are as before, and the value is
    appended. *)
Theorem PushBack_in_place σ this item n c a :
  valid σ this →
  GetSize this σ = (Ret n, σ) → GetCapacity this σ = (Ret c, σ) →
  get_items this σ = (Ret a, σ) →
  n ≠ c →
  ∃ σ', PushBack this item σ = (Ret tt, σ') ∧
        get_items this σ' = (Ret a, σ') ∧
        GetCapacity this σ' = (Ret c, σ') ∧
        plan σ' = plan σ ∧
        contents σ' this = contents σ this ++ [item] ∧
        valid σ' this.
Proof.
  intros Hvalid Hn Hc Ha Hroom.
  apply valid_holds in Hvalid as (sz & cap & buf & Hh & Hsz & Hcap & Hmax).
  rewrite (holds_GetSize _ _ _ _ _ Hh) in Hn.
  rewrite (holds_GetCapacity _ _ _ _ _ Hh) in Hc. simplify_eq.
  rewrite (holds_contents _ _ _ _ _ Hh).
  destruct σ as [h vs pl].
  apply holds_inv in Hh as [[Hv ->]|(l & Hv & Hl)]; [simpl in *; lia|].
  erewrite get_items_ok in Ha by done. injection Ha as <-.
  unfold PushBack. do 2 step. rewrite decide_True by done. do 2 step.
  erewrite store_ok by (done || lia). rewrite max_slots_succ by lia.
  eexists. split; [done|].
  assert (holds (mkState (<[l := <[Z.to_nat n := item]> buf]> h)
                   (<[this := mkSimpleVector (mkArrayPtr (Ptr (Some l) 0)) (n + 1)
                                (Z.of_nat (length buf))]> vs) pl)
            this (n + 1) (Z.of_nat (length buf)) (<[Z.to_nat n := item]> buf)) as Hh'.
  { eapply holds_block; apply lookup_insert_eq. }
  split; [by erewrite get_items_ok by apply lookup_insert_eq|].
  split; [by eapply holds_GetCapacity|]. split; [done|]. split.
  - rewrite (holds_contents _ _ _ _ _ Hh').
    replace (Z.to_nat (n + 1)) with (S (Z.to_nat n)) by lia.
    apply take_snoc_insert. lia.
  - eapply valid_intro; [done|lia|by rewrite length_insert|lia].
Qed.

(** X12. [PushBack] on a full valid sequence (given that the allocation
    succeeds) moves to a buffer of exactly [max(2 * capacity, 1)] slots,
    appends the value and releases the old array. *)
Theorem PushBack_doubles σ this item c a :
  valid σ this →
  GetSize this σ = (Ret c, σ) → GetCapacity this σ = (Ret c, σ) →
  get_items this σ = (Ret a, σ) →
  will_allocate σ (Z.max (2 * c) 1) = true →
  ∃ σ', PushBack this item σ = (Ret tt, σ') ∧
        GetCapacity this σ' = (Ret (Z.max (2 * c) 1), σ') ∧
        slots σ' this = Z.max (2 * c) 1 ∧
        contents σ' this = contents σ this ++ [item] ∧
        (∀ l, blk (raw_ptr_ a) = Some l → heap σ' !! l = None) ∧
        valid σ' this.
Proof.
  intros Hvalid Hn Hc Ha Hal.
  apply valid_holds in Hvalid as (sz & cap & buf & Hh & Hsz & Hcap & Hmax).
  rewrite (holds_GetSize _ _ _ _ _ Hh) in Hn.
  rewrite (holds_GetCapacity _ _ _ _ _ Hh) in Hc. simplify_eq.
  rewrite (holds_contents _ _ _ _ _ Hh).
  apply will_allocate_max in Hal as Hnew.
  remember (Z.max (2 * Z.of_nat (length buf)) 1) as new_capacity eqn:Hnc.
  destruct σ as [h vs pl].
  destruct (ArrayPtr_ctor_ok h vs pl new_capacity) as (l' & Hfresh & Hctor);
    [lia|done|].
  unfold PushBack.
  apply holds_inv in Hh as [[Hv ->]|(l & Hv & Hl)].
  - erewrite get_items_ok in Ha by done. injection Ha as <-.
    simpl in Hnc, Hv. subst new_capacity.
    do 2 step. rewrite decide_False by (simpl; lia).
    change (Z.max (wrap (2 * Z.of_nat (length []))) 1) with 1.
    change (Z.max (2 * 0) 1) with 1 in *.
    erewrite bind_Ret by exact Hctor.
    do 2 step. rewrite decide_True by done.
    erewrite bind_Ret by apply std_copy_null. simpl length. simpl Z.of_nat.
    erewrite bind_Ret by (eapply store_ok; [apply lookup_insert_eq|simpl; lia]).
    do 3 step. rewrite ArrayPtr_dtor_null.
    eexists. split; [done|].
    match goal with |- context [GetCapacity this ?s] => set (σ' := s) end.
    assert (holds σ' this 1 1 [item]) as Hh'.
    { eapply holds_block; [apply lookup_insert_eq|].
      rewrite insert_insert_eq. apply lookup_insert_eq. }
    split; [by eapply holds_GetCapacity|].
    split; [by rewrite (holds_slots _ _ _ _ _ Hh')|].
    split; [by rewrite (holds_contents _ _ _ _ _ Hh')|].
    split; [done|]. eapply valid_intro; [done|lia|done|unfold max_slots; lia].
  - erewrite get_items_ok in Ha by done. injection Ha as <-.
    assert (l ≠ l') as Hne by congruence.
    do 2 step. rewrite decide_False by lia.
    rewrite max_slots_double by lia. rewrite <- Hnc.
    rewrite max_slots_succ by lia.
    erewrite bind_Ret by exact Hctor.
    do 2 step.
    erewrite bind_Ret.
    2:{ apply (std_copy_live _ _ _ _ _ _ buf);
          [done|by rewrite lookup_insert_ne|apply lookup_insert_eq|lia|].
        rewrite length_replicate. lia. }
    norm.
    erewrite bind_Ret.
    2:{ eapply store_ok; [apply lookup_insert_eq|].
        rewrite length_blit, length_replicate. lia. }
    do 3 step.
    erewrite ArrayPtr_dtor_block by hlookup.
    eexists. split; [done|].
    match goal with |- context [GetCapacity this ?s] => set (σ' := s) end.
    set (buf' := <[Z.to_nat (Z.of_nat (length buf)) := item]>
                   (blit buf 0 (replicate (Z.to_nat new_capacity) T_default) 0
                      (Z.to_nat (Z.of_nat (length buf))))).
    assert (holds σ' this (Z.of_nat (length buf) + 1) new_capacity buf') as Hh'.
    { eapply holds_block; [apply lookup_insert_eq|]. hlookup. }
    assert (length buf' = Z.to_nat new_capacity) as Hlen'.
    { unfold buf'. by rewrite length_insert, length_blit, length_replicate. }
    split; [by eapply holds_GetCapacity|].
    split; [rewrite (holds_slots _ _ _ _ _ Hh'); lia|].
    split.
    { rewrite (holds_contents _ _ _ _ _ Hh').
      replace (Z.to_nat (Z.of_nat (length buf) + 1))
        with (S (Z.to_nat (Z.of_nat (length buf)))) by lia.
      unfold buf'. rewrite take_snoc_insert.
      2:{ rewrite length_blit, length_replicate. lia. }
      f_equal. apply take_blit; [lia|rewrite length_replicate; lia]. }
    split.
    { intros l0 [= <-]. simpl. apply lookup_delete_eq. }
    eapply valid_intro; [done|lia|lia|lia].
Qed.
End positions.

(** ** Construction *)

Section construction.
Context {T : Type} {E : Element T} {B : Build}.
Implicit Types (h : gmap loc (list T)) (vs : gmap vid SimpleVector).
Implicit Types (pl : list new_outcome) (buf : list T) (sv : SimpleVector).
Implicit Types (σ : state T).

Lemma fill_loop_block vs pl l value n : ∀ h s buf,
  h !! l = Some buf → 0 ≤ s → s + Z.of_nat n ≤ Z.of_nat (length buf) →
  fill_loop n (Ptr (Some l) s) value (mkState h vs pl)
  = (Ret tt,
     mkState (<[l := list_inserts (Z.to_nat s) (replicate n value) buf]> h) vs pl).
Proof.
  induction n as [|n IH]; intros h s buf Hl Hs Hn.
  - simpl. unfold ret. by rewrite insert_id.
  - simpl fill_loop. erewrite bind_Ret by (eapply store_ok; [done|lia]).
    unfold ptr_add; simpl blk; simpl off.
    rewrite (IH _ (s + 1) (<[Z.to_nat s := value]> buf));
      [|apply lookup_insert_eq|lia|rewrite length_insert; lia].
    rewrite insert_insert_eq. simpl.
    replace (Z.to_nat (s + 1)) with (S (Z.to_nat s)) by lia.
    by rewrite list_insert_inserts_lt by lia.
Qed.


Lemma list_inserts_all (k buf : list T) :
  length k = length buf → list_inserts 0 k buf = k.
Proof.
  intros Hlen. apply list_eq; intros j.
  destruct (decide (j < length k)%nat).
  - rewrite list_lookup_inserts by lia. f_equal. lia.
  - rewrite list_lookup_inserts_ge by lia.
    rewrite !lookup_ge_None_2 by lia. done.
Qed.

(** The two sized constructors differ only in the fill value. *)
Lemma sized_ctor_run h vs pl this n value :
  0 ≤ n → (n ≠ 0 → will_allocate (mkState h vs pl) n = true) →
  ∃ p h' pl',
    (a <- ArrayPtr_ctor n ;;
     put_vec this (mkSimpleVector a n n) ;;
     b <- begin this ;; e <- end_ this ;; std_fill b e value) (mkState h vs pl)
    = (Ret tt, mkState h' (<[this := mkSimpleVector (mkArrayPtr p) n n]> vs) pl') ∧
    ((n = 0 ∧ p = nullptr ∧ h' = h ∧ pl' = pl) ∨
     (n ≠ 0 ∧ ∃ l, p = Ptr (Some l) 0 ∧ h !! l = None ∧
                   h' = <[l := replicate (Z.to_nat n) value]> h ∧ pl' = tail pl)).
Proof.
  intros Hn Hal.
  destruct (decide (n = 0)) as [->|Hnz].
  - unfold ArrayPtr_ctor. rewrite decide_True by done.
    erewrite bind_Ret by done. erewrite bind_Ret by done.
    unfold set_vecs; cbn [heap vecs plan].
    erewrite bind_Ret by (apply begin_ok, lookup_insert_eq).
    erewrite bind_Ret by (apply end_ok, lookup_insert_eq).
    simpl. eexists nullptr, h, pl. split; [done|]. by left.
  - destruct (ArrayPtr_ctor_ok h vs pl n) as (l & Hfresh & Hctor);
      [done|by apply Hal|].
    erewrite bind_Ret by exact Hctor.
    erewrite bind_Ret by done. unfold set_vecs; cbn [heap vecs plan].
    erewrite bind_Ret by (apply begin_ok, lookup_insert_eq).
    erewrite bind_Ret by (apply end_ok, lookup_insert_eq).
    simpl. rewrite !decide_False by done. unfold std_fill. norm.
    erewrite bind_Ret by (apply distance_ok; lia). rewrite Z.sub_0_r.
    erewrite fill_loop_block;
      [|apply lookup_insert_eq|lia|rewrite length_replicate; lia].
    rewrite insert_insert_eq.
    rewrite list_inserts_all by (by rewrite !length_replicate).
    eexists _, _, _. split; [done|]. right. split; [done|]. by exists l.
Qed.

Lemma sized_ctor_holds σ this n value :
  0 ≤ n → (n ≠ 0 → will_allocate σ n = true) →
  ∃ σ', (a <- ArrayPtr_ctor n ;;
         put_vec this (mkSimpleVector a n n) ;;
         b <- begin this ;; e <- end_ this ;; std_fill b e value) σ
        = (Ret tt, σ') ∧
        holds σ' this n n (replicate (Z.to_nat n) value) ∧
        (∀ v, v ≠ this → vecs σ' !! v = vecs σ !! v) ∧
        (∀ l buf, heap σ !! l = Some buf → heap σ' !! l = Some buf).
Proof.
  destruct σ as [h vs pl]. intros Hn Hal.
  destruct (sized_ctor_run h vs pl this n value)
    as (p & h' & pl' & Hrun & [(-> & -> & -> & ->)|(Hnz & l & -> & Hfresh & -> & ->)]);
    [done..| |].
  - eexists. split; [done|]. split; [|split].
    + apply holds_null. apply lookup_insert_eq.
    + intros v Hv. simpl. by rewrite lookup_insert_ne.
    + done.
  - eexists. split; [done|]. split; [|split].
    + eapply holds_block; apply lookup_insert_eq.
    + intros v Hv. simpl. by rewrite lookup_insert_ne.
    + intros l0 buf Hl0. simpl in *. rewrite lookup_insert_ne by congruence. done.
Qed.

(** A vector whose object and array are left alone is what it was. *)
Lemma untouched σ σ' v :
  vecs σ' !! v = vecs σ !! v →
  (∀ l buf, heap σ !! l = Some buf → heap σ' !! l = Some buf) →
  valid σ v →
  contents σ' v = contents σ v ∧ valid σ' v.
Proof.
  intros Hvecs Hheap Hvalid. unfold valid, validb, contents in *.
  rewrite Hvecs. destruct (vecs σ !! v) as [sv|] eqn:Hsv; [|done].
  unfold buffer_of in *. case_bool_decide; [|done].
  destruct (blk (raw_ptr_ (items_ sv))) as [l|]; [|done].
  destruct (heap σ !! l) as [buf|] eqn:Hl; [|done].
  by rewrite (Hheap _ _ Hl).
Qed.

(** X13. [SimpleVector(size)] builds [size] default values and
    [SimpleVector(size, value)] builds [size] copies of [value], each with
    capacity [size] (given that the allocation succeeds); every other valid
    sequence is left as it was. *)
Theorem sized_constructors σ this n value :
  0 ≤ n ≤ max_slots → (n ≠ 0 → will_allocate σ n = true) →
  (∃ σ', SimpleVector_sized this n σ = (Ret tt, σ') ∧
         contents σ' this = replicate (Z.to_nat n) T_default ∧
         GetSize this σ' = (Ret n, σ') ∧ GetCapacity this σ' = (Ret n, σ') ∧
         valid σ' this ∧
         (∀ v, v ≠ this → valid σ v →
               contents σ' v = contents σ v ∧ valid σ' v)) ∧
  (∃ σ', SimpleVector_filled this n value σ = (Ret tt, σ') ∧
         contents σ' this = replicate (Z.to_nat n) value ∧
         GetSize this σ' = (Ret n, σ') ∧ GetCapacity this σ' = (Ret n, σ') ∧
         valid σ' this ∧
         (∀ v, v ≠ this → valid σ v →
               contents σ' v = contents σ v ∧ valid σ' v)).
Proof.
  intros Hn Hal.
  assert (∀ x σ', holds σ' this n n (replicate (Z.to_nat n) x) →
            (∀ v, v ≠ this → vecs σ' !! v = vecs σ !! v) →
            (∀ l buf, heap σ !! l = Some buf → heap σ' !! l = Some buf) →
            contents σ' this = replicate (Z.to_nat n) x ∧
            GetSize this σ' = (Ret n, σ') ∧ GetCapacity this σ' = (Ret n, σ') ∧
            valid σ' this ∧
            (∀ v, v ≠ this → valid σ v →
                  contents σ' v = contents σ v ∧ valid σ' v)) as Hobs.
  { intros x σ' Hh Hvecs Hheap.
    split. { rewrite (holds_contents _ _ _ _ _ Hh). by rewrite take_replicate, Nat.min_id. }
    split; [by eapply holds_GetSize|]. split; [by eapply holds_GetCapacity|].
    split. { eapply valid_intro; [done|lia|rewrite length_replicate; lia|lia]. }
    intros v Hv Hvalid. apply untouched; auto. }
  split.
  - destruct (sized_ctor_holds σ this n T_default) as (σ' & Hrun & Hh & Hvecs & Hheap);
      [lia|done|].
    exists σ'. split; [done|]. by apply Hobs.
  - destruct (sized_ctor_holds σ this n value) as (σ' & Hrun & Hh & Hvecs & Hheap);
      [lia|done|].
    exists σ'. split; [done|]. by apply Hobs.
Qed.


Lemma unwinding_Ret {A} (m : M T A) (cleanup : M T unit) σ σ' a :
  m σ = (Ret a, σ') → unwinding m cleanup σ = (Ret a, σ').
Proof. unfold unwinding. by intros ->. Qed.

(** X15. [SimpleVector(Reserve(n))] is an empty sequence of capacity [n]
    over [n] allocated slots (given that the allocation succeeds). *)
Theorem reserving_constructor σ this n :
  0 ≤ n → (0 < n → will_allocate σ n = true) →
  ∃ σ', SimpleVector_reserved this (Reserve_request n) σ = (Ret tt, σ') ∧
        GetSize this σ' = (Ret 0, σ') ∧ GetCapacity this σ' = (Ret n, σ') ∧
        slots σ' this = n ∧ contents σ' this = [] ∧ valid σ' this.
Proof.
  destruct σ as [h vs pl]. intros Hn Hal. unfold SimpleVector_reserved.
  erewrite bind_Ret by done. simpl.
  set (σ0 := mkState h (<[this := mkSimpleVector (mkArrayPtr nullptr) 0 0]> vs) pl).
  assert (holds σ0 this 0 0 []) as Hh0 by apply holds_null, lookup_insert_eq.
  destruct (Reserve_holds σ0 this n 0 0 []) as (σ' & buf' & Hrun & Hh & Hcap & _);
    [done|lia|done|done|].
  rewrite Z.max_r in Hh, Hcap by lia.
  exists σ'. split; [by apply unwinding_Ret|].
  split; [by eapply holds_GetSize|]. split; [by eapply holds_GetCapacity|].
  split; [rewrite (holds_slots _ _ _ _ _ Hh); lia|].
  split; [by rewrite (holds_contents _ _ _ _ _ Hh)|].
  destruct (decide (n = 0)) as [->|Hnz].
  - eapply valid_intro; [done|lia|done|unfold max_slots; lia].
  - eapply valid_intro; [done|lia|done|].
    eapply will_allocate_max, Hal. lia.
Qed.
End construction.

(** ** Exchanging and transferring *)

Ltac vlookup2 :=
  repeat (rewrite lookup_insert_ne by done);
  first [ apply lookup_insert_eq | eassumption ].

Section transfers.
Context {T : Type} {E : Element T} {B : Build}.
Implicit Types (h : gmap loc (list T)) (vs : gmap vid SimpleVector).
Implicit Types (pl : list new_outcome) (buf : list T) (sv : SimpleVector).
Implicit Types (σ : state T).

(** What a vector shows depends on its object and on the arrays only. *)
Lemma same_object σ σ' v w :
  vecs σ' !! v = vecs σ !! w → heap σ' = heap σ →
  contents σ' v = contents σ w ∧ (valid σ w → valid σ' v).
Proof.
  intros Hvecs Hheap. unfold contents, valid, validb, buffer_of.
  by rewrite Hvecs, Hheap.
Qed.

Lemma swap_run h vs pl this other svt svo :
  vs !! this = Some svt → vs !! other = Some svo →
  ∃ vs', swap this other (mkState h vs pl) = (Ret tt, mkState h vs' pl) ∧
         vs' !! this = Some svo ∧ vs' !! other = Some svt ∧
         (∀ v, v ≠ this → v ≠ other → vs' !! v = vs !! v).
Proof.
  intros Ht Ho. unfold swap.
  destruct svt as [at_ nt ct], svo as [ao no co].
  destruct (decide (this = other)) as [->|Hne].
  - rewrite Ht in Ho. injection Ho as <- <- <-.
    do 2 step. do 2 (erewrite bind_Ret by (apply set_items_ok; vlookup)). norm.
    do 2 step. do 2 (erewrite bind_Ret by (apply set_size_ok; vlookup)). norm.
    do 2 step. erewrite bind_Ret by (apply set_capacity_ok; vlookup). norm.
    erewrite set_capacity_ok by vlookup. norm.
    eexists. split; [done|]. rewrite !insert_insert_eq.
    split; [apply lookup_insert_eq|]. split; [apply lookup_insert_eq|].
    intros v Hv _. by rewrite lookup_insert_ne.
  - erewrite bind_Ret by (apply get_items_ok; vlookup2).
    erewrite bind_Ret by (apply get_items_ok; vlookup2). norm.
    erewrite bind_Ret by (apply set_items_ok; vlookup2). norm.
    erewrite bind_Ret by (apply set_items_ok; vlookup2). norm.
    erewrite bind_Ret by (apply get_size_ok; vlookup2).
    erewrite bind_Ret by (apply get_size_ok; vlookup2). norm.
    erewrite bind_Ret by (apply set_size_ok; vlookup2). norm.
    erewrite bind_Ret by (apply set_size_ok; vlookup2). norm.
    erewrite bind_Ret by (apply get_capacity_ok; vlookup2).
    erewrite bind_Ret by (apply get_capacity_ok; vlookup2). norm.
    erewrite bind_Ret by (apply set_capacity_ok; vlookup2). norm.
    erewrite set_capacity_ok by vlookup2. norm.
    eexists. split; [done|].
    split; [vlookup2|]. split; [vlookup2|].
    intros v Hvt Hvo. by rewrite !lookup_insert_ne.
Qed.

(** X16. [swap] on two valid sequences exchanges their elements, sizes and
    capacities by exchanging the objects' members: no array is touched and
    every other object stays as it is.  Swapping a sequence with itself
    changes nothing it shows. *)
Theorem swap_exchanges σ this other :
  valid σ this → valid σ other →
  ∃ σ', swap this other σ = (Ret tt, σ') ∧
        vecs σ' !! this = vecs σ !! other ∧
        vecs σ' !! other = vecs σ !! this ∧
        (∀ v, v ≠ this → v ≠ other → vecs σ' !! v = vecs σ !! v) ∧
        heap σ' = heap σ ∧
        contents σ' this = contents σ other ∧
        contents σ' other = contents σ this ∧
        valid σ' this ∧ valid σ' other.
Proof.
  intros Ht Ho.
  assert (∃ svt, vecs σ !! this = Some svt) as [svt Hvt].
  { unfold valid, validb in Ht. destruct (vecs σ !! this); [eauto|done]. }
  assert (∃ svo, vecs σ !! other = Some svo) as [svo Hvo].
  { unfold valid, validb in Ho. destruct (vecs σ !! other); [eauto|done]. }
  destruct σ as [h vs pl]. simpl in Hvt, Hvo.
  destruct (swap_run h vs pl this other svt svo) as (vs' & Hrun & Ht' & Ho' & Hrest);
    [done..|].
  exists (mkState h vs' pl). split; [done|]. simpl.
  rewrite Ht', Ho', Hvt, Hvo. split; [done|]. split; [done|]. split; [done|].
  split; [done|].
  destruct (same_object (mkState h vs pl) (mkState h vs' pl) this other)
    as [Hc1 Hv1]; [simpl; congruence|done|].
  destruct (same_object (mkState h vs pl) (mkState h vs' pl) other this)
    as [Hc2 Hv2]; [simpl; congruence|done|].
  auto.
Qed.

(** X17. Swapping twice restores the state exactly. *)
Theorem swap_twice σ this other :
  is_Some (vecs σ !! this) → is_Some (vecs σ !! other) →
  ∃ σ', swap this other σ = (Ret tt, σ') ∧ swap this other σ' = (Ret tt, σ).
Proof.
  intros [svt Hvt] [svo Hvo]. destruct σ as [h vs pl]. simpl in Hvt, Hvo.
  destruct (swap_run h vs pl this other svt svo) as (vs1 & Hrun1 & Ht1 & Ho1 & Hrest1);
    [done..|].
  destruct (swap_run h vs1 pl this other svo svt) as (vs2 & Hrun2 & Ht2 & Ho2 & Hrest2);
    [done..|].
  exists (mkState h vs1 pl). split; [done|]. rewrite Hrun2. do 2 f_equal.
  apply map_eq; intros v.
  destruct (decide (v = this)) as [->|Hnt]; [congruence|].
  destruct (decide (v = other)) as [->|Hno]; [congruence|].
  by rewrite Hrest2, Hrest1.
Qed.

Lemma move_assign_run h vs pl this rhs svt svr :
  this ≠ rhs → vs !! this = Some svt → vs !! rhs = Some svr →
  ∃ vs', move_assign this rhs (mkState h vs pl) = (Ret tt, mkState h vs' pl) ∧
         vs' !! this = Some svr ∧
         vs' !! rhs = Some (mkSimpleVector (mkArrayPtr nullptr) 0 0) ∧
         (∀ v, v ≠ this → v ≠ rhs → vs' !! v = vs !! v).
Proof.
  intros Hne Ht Hr. unfold move_assign, items_move_assign.
  destruct svt as [at_ nt ct], svr as [[pr] nr cr].
  erewrite bind_Ret.
  2:{ erewrite bind_Ret by (by apply exchange_raw_ptr_ok).
      apply set_items_ok. vlookup2. }
  norm.
  erewrite bind_Ret by (apply exchange_size_ok; vlookup2). norm.
  erewrite bind_Ret by (apply set_size_ok; vlookup2). norm.
  erewrite bind_Ret by (apply exchange_capacity_ok; vlookup2). norm.
  erewrite set_capacity_ok by vlookup2. norm.
  eexists. split; [done|].
  split; [vlookup2|]. split; [vlookup2|].
  intros v Hvt Hvr. by rewrite !lookup_insert_ne.
Qed.

(** X18. Move-assignment from another valid sequence hands over its buffer:
    the destination shows the source's former elements, size and capacity,
    the source is left valid and empty with a null buffer and capacity 0,
    and no array is released, the destination's previous one included. *)
Theorem move_assign_transfers σ this rhs :
  this ≠ rhs → is_Some (vecs σ !! this) → valid σ rhs →
  ∃ σ', move_assign this rhs σ = (Ret tt, σ') ∧
        vecs σ' !! this = vecs σ !! rhs ∧
        vecs σ' !! rhs = Some (mkSimpleVector (mkArrayPtr nullptr) 0 0) ∧
        heap σ' = heap σ ∧
        contents σ' this = contents σ rhs ∧ valid σ' this ∧
        contents σ' rhs = [] ∧ valid σ' rhs.
Proof.
  intros Hne [svt Hvt] Hr.
  assert (∃ svr, vecs σ !! rhs = Some svr) as [svr Hvr].
  { unfold valid, validb in Hr. destruct (vecs σ !! rhs); [eauto|done]. }
  destruct σ as [h vs pl]. simpl in Hvt, Hvr.
  destruct (move_assign_run h vs pl this rhs svt svr)
    as (vs' & Hrun & Ht' & Hr' & _); [done..|].
  exists (mkState h vs' pl). split; [done|]. simpl.
  rewrite Ht', Hvr. split; [done|]. split; [done|]. split; [done|].
  destruct (same_object (mkState h vs pl) (mkState h vs' pl) this rhs)
    as [Hc Hv]; [simpl; congruence|done|].
  split; [done|]. split; [auto|].
  unfold contents, valid, validb. simpl. rewrite Hr'. done.
Qed.

(** X19. The move constructor builds a sequence with the source's former
    elements, size and capacity and leaves the source valid and empty; no
    array is allocated, copied or released. *)
Theorem move_constructor σ this other :
  this ≠ other → valid σ other →
  ∃ σ', SimpleVector_move this other σ = (Ret tt, σ') ∧
        vecs σ' !! this = vecs σ !! other ∧
        vecs σ' !! other = Some (mkSimpleVector (mkArrayPtr nullptr) 0 0) ∧
        heap σ' = heap σ ∧ plan σ' = plan σ ∧
        contents σ' this = contents σ other ∧ valid σ' this ∧
        contents σ' other = [] ∧ valid σ' other.
Proof.
  intros Hne Ho.
  assert (∃ svo, vecs σ !! other = Some svo) as [svo Hvo].
  { unfold valid, validb in Ho. destruct (vecs σ !! other); [eauto|done]. }
  destruct σ as [h vs pl]. simpl in Hvo.
  destruct (move_assign_run h
              (<[this := mkSimpleVector (mkArrayPtr nullptr) 0 0]> vs) pl
              this other (mkSimpleVector (mkArrayPtr nullptr) 0 0) svo)
    as (vs' & Hrun & Ht' & Ho' & _);
    [done|apply lookup_insert_eq|by rewrite lookup_insert_ne|].
  exists (mkState h vs' pl). split.
  { unfold SimpleVector_move. erewrite bind_Ret by done. exact Hrun. }
  simpl. rewrite Ht', Hvo. split; [done|]. split; [done|]. split; [done|].
  split; [done|].
  destruct (same_object (mkState h vs pl) (mkState h vs' pl) this other)
    as [Hc Hv]; [simpl; congruence|done|].
  split; [done|]. split; [auto|].
  unfold contents, valid, validb. simpl. rewrite Ho'. done.
Qed.
End transfers.

(** ** Copying *)

Section copying.
Context {T : Type} {E : Element T} {B : Build}.
Implicit Types (h : gmap loc (list T)) (vs : gmap vid SimpleVector).
Implicit Types (pl : list new_outcome) (buf : list T) (sv : SimpleVector).
Implicit Types (σ : state T).

Lemma ArrayPtr_ctor_0 σ : ArrayPtr_ctor 0 σ = (Ret (mkArrayPtr nullptr), σ).
Proof. done. Qed.

Lemma copy_ctor_holds h vs pl this other sz cap buf :
  this ≠ other →
  holds (mkState h vs pl) other sz cap buf →
  0 ≤ sz ≤ cap → cap = Z.of_nat (length buf) → cap ≤ max_slots →
  (sz ≠ 0 → will_allocate (mkState h vs pl) sz = true
            ∧ will_allocate (mkState h vs (tail pl)) sz = true) →
  ∃ σ' buf',
    SimpleVector_copy this other (mkState h vs pl) = (Ret tt, σ') ∧
    holds σ' this sz sz buf' ∧ Z.of_nat (length buf') = sz ∧
    take (Z.to_nat sz) buf' = take (Z.to_nat sz) buf ∧
    holds σ' other sz cap buf ∧
    (sz ≠ 0 → ∀ sv sv', vecs σ' !! this = Some sv → vecs σ' !! other = Some sv' →
                        items_ sv ≠ items_ sv').
Proof.
  intros Hne Hh Hsz Hcap Hmax Hal. unfold SimpleVector_copy, SimpleVector_sized.
  destruct (sized_ctor_run h vs pl this sz T_default)
    as (p & h1 & pl1 & Hrun1 & Hshape); [lia|intros; by apply Hal|].
  destruct (decide (sz = 0)) as [->|Hnz].
  - destruct Hshape as [(_ & -> & -> & ->)|[? _]]; [|done].
    destruct Hh as (a & Hv & Hb).
    step. erewrite bind_Ret by exact Hrun1.
    erewrite unwinding_Ret.
    2:{ erewrite bind_Ret by (apply get_size_ok; vlookup2). norm.
        erewrite bind_Ret by apply ArrayPtr_ctor_0.
        erewrite bind_Ret by (apply begin_ok; vlookup2).
        erewrite bind_Ret by (apply end_ok; vlookup2).
        norm. rewrite !decide_True by done.
        erewrite bind_Ret by apply std_copy_null.
        step. apply ArrayPtr_dtor_null. }
    eexists _, []. split; [done|]. split; [|split; [|split; [|split]]].
    + apply holds_null. apply lookup_insert_eq.
    + done.
    + by rewrite take_nil.
    + exists a. split; [|done]. simpl. by rewrite !lookup_insert_ne.
    + done.
  - destruct Hshape as [[? _]|(_ & l1 & -> & Hfresh1 & -> & ->)]; [done|].
    apply holds_inv in Hh as [[Hv ->]|(l0 & Hv & Hl0)]; [simpl in *; lia|].
    destruct Hal as [_ Hal2]; [done|].
    destruct (ArrayPtr_ctor_ok (<[l1 := replicate (Z.to_nat sz) T_default]> h)
                (<[this := mkSimpleVector (mkArrayPtr (Ptr (Some l1) 0)) sz sz]> vs)
                (tail pl) sz) as (l2 & Hfresh2 & Hctor2); [done|done|].
    assert (l1 ≠ l2) as Hne12.
    { intros ->. by rewrite lookup_insert_eq in Hfresh2. }
    rewrite lookup_insert_ne in Hfresh2 by done.
    assert (l0 ≠ l1) as Hne01 by (intros ->; by rewrite Hl0 in Hfresh1).
    assert (l0 ≠ l2) as Hne02 by (intros ->; by rewrite Hl0 in Hfresh2).
    step. erewrite bind_Ret by exact Hrun1.
    erewrite unwinding_Ret.
    2:{ erewrite bind_Ret by (apply get_size_ok; vlookup2). norm.
        erewrite bind_Ret by exact Hctor2.
        erewrite bind_Ret by (apply begin_ok; vlookup2).
        erewrite bind_Ret by (apply end_ok; vlookup2).
        norm. rewrite !decide_False by done.
        erewrite bind_Ret.
        2:{ apply (std_copy_blocks _ _ _ _ _ _ buf); [done|hlookup|hlookup|lia|].
            rewrite length_replicate. lia. }
        step. eapply ArrayPtr_dtor_block. hlookup. }
    eexists _, _. split; [done|]. split; [|split; [|split; [|split]]].
    + eapply holds_block; [apply lookup_insert_eq|]. hlookup.
    + rewrite length_blit, length_replicate. lia.
    + apply take_blit; [lia|rewrite length_replicate; lia].
    + eapply holds_block; [simpl; by rewrite !lookup_insert_ne|].
      simpl. hlookup.
    + intros _ sv sv'. simpl. rewrite lookup_insert_eq.
      rewrite !lookup_insert_ne by done. rewrite Hv.
      intros [= <-] [= <-]. simpl. congruence.
Qed.

(** X20. The copy constructor (given that its two allocations succeed)
    builds a sequence with the source's elements and a capacity equal to
    its size, in an array of its own; the source is unchanged. *)
Theorem copy_constructor σ this other sz :
  this ≠ other → valid σ other →
  GetSize other σ = (Ret sz, σ) →
  (sz ≠ 0 → will_allocate σ sz = true
            ∧ will_allocate (set_plan (tail (plan σ)) σ) sz = true) →
  ∃ σ', SimpleVector_copy this other σ = (Ret tt, σ') ∧
        contents σ' this = contents σ other ∧
        GetSize this σ' = (Ret sz, σ') ∧ GetCapacity this σ' = (Ret sz, σ') ∧
        slots σ' this = sz ∧ valid σ' this ∧
        contents σ' other = contents σ other ∧ valid σ' other ∧
        (sz ≠ 0 → ∀ a a', get_items this σ' = (Ret a, σ') →
                          get_items other σ' = (Ret a', σ') → a ≠ a').
Proof.
  intros Hne Hvalid Hsz Hal.
  apply valid_holds in Hvalid as (sz0 & cap & buf & Hh & Hb & Hcap & Hmax).
  rewrite (holds_GetSize _ _ _ _ _ Hh) in Hsz. injection Hsz as ->.
  destruct σ as [h vs pl].
  destruct (copy_ctor_holds h vs pl this other sz cap buf)
    as (σ' & buf' & Hrun & Hh' & Hlen & Htake & Hho & Hown); [done..|].
  exists σ'. split; [done|]. split.
  { by rewrite (holds_contents _ _ _ _ _ Hh), (holds_contents _ _ _ _ _ Hh'). }
  split; [by eapply holds_GetSize|]. split; [by eapply holds_GetCapacity|].
  split; [by rewrite (holds_slots _ _ _ _ _ Hh')|].
  split; [eapply valid_intro; [done|lia|done|lia]|].
  split.
  { by rewrite (holds_contents _ _ _ _ _ Hh), (holds_contents _ _ _ _ _ Hho). }
  split; [eapply valid_intro; [done|lia|done|lia]|].
  intros Hnz a a' Ha Ha'. destruct σ' as [h' vs' pl'].
  destruct Hh' as (at_ & Hvt & _), Hho as (ao & Hvo & _).
  erewrite get_items_ok in Ha, Ha' by done. simplify_eq/=.
  by apply (Hown Hnz _ _ Hvt Hvo).
Qed.

(** X21. When the first allocation of the copy constructor succeeds and the
    second fails, the exception leaves nothing behind: the half-built
    object is destroyed, its array is released, and the arrays and the
    objects are those of before the call. *)
Theorem copy_constructor_unwinds σ this other sz f rest :
  this ≠ other → valid σ other →
  GetSize other σ = (Ret sz, σ) → sz ≠ 0 →
  vecs σ !! this = None →
  plan σ = new_ok :: f :: rest → f ≠ new_ok →
  ∃ e, SimpleVector_copy this other σ
       = (Throw e, mkState (heap σ) (vecs σ) rest).
Proof.
  intros Hne Hvalid Hsz Hnz Hnew Hplan Hf.
  apply valid_holds in Hvalid as (sz0 & cap & buf & Hh & Hb & Hcap & Hmax).
  rewrite (holds_GetSize _ _ _ _ _ Hh) in Hsz. injection Hsz as ->.
  destruct σ as [h vs pl]. simpl in Hplan, Hnew. subst pl. simpl.
  unfold SimpleVector_copy, SimpleVector_sized.
  destruct (sized_ctor_run h vs (new_ok :: f :: rest) this sz T_default)
    as (p & h1 & pl1 & Hrun1 & [[? _]|(_ & l1 & -> & Hfresh1 & -> & ->)]);
    [lia| |done|].
  { intros _. unfold will_allocate. simpl.
    rewrite bool_decide_eq_true_2 by lia. done. }
  destruct Hh as (a & Hv & _).
  step. erewrite bind_Ret by exact Hrun1. simpl tail.
  assert (∃ e, ArrayPtr_ctor sz
                 (mkState (<[l1 := replicate (Z.to_nat sz) T_default]> h)
                    (<[this := mkSimpleVector (mkArrayPtr (Ptr (Some l1) 0)) sz sz]> vs)
                    (f :: rest))
               = (Throw e,
                  mkState (<[l1 := replicate (Z.to_nat sz) T_default]> h)
                    (<[this := mkSimpleVector (mkArrayPtr (Ptr (Some l1) 0)) sz sz]> vs)
                    rest)) as [e Hthrow].
  { unfold ArrayPtr_ctor. rewrite decide_False by done.
    unfold bind, new_array. simpl. rewrite bool_decide_eq_false_2 by lia.
    destruct f; [congruence|by eexists..]. }
  exists e. unfold unwinding.
  erewrite bind_Ret by (apply get_size_ok; vlookup2). norm.
  erewrite bind_Throw by exact Hthrow.
  unfold SimpleVector_dtor.
  erewrite bind_Ret by (apply get_items_ok; vlookup2). norm.
  erewrite bind_Ret by (eapply ArrayPtr_dtor_block; apply lookup_insert_eq).
  unfold set_vecs. cbn [heap vecs plan].
  by rewrite !delete_insert_id.
Qed.
End copying.

(** ** Copy-assignment, indexing, array ownership *)

Section assigning.
Context {T : Type} {E : Element T} {B : Build}.
Implicit Types (h : gmap loc (list T)) (vs : gmap vid SimpleVector).
Implicit Types (pl : list new_outcome) (buf : list T) (sv : SimpleVector).
Implicit Types (σ : state T).

(** Destroying the [ArrayPtr] that owns an array releases that array and no
    other. *)
Lemma ArrayPtr_dtor_owned h vs0 pl0 p sz cap buf :
  buffer_of (mkState h vs0 pl0) (mkSimpleVector (mkArrayPtr p) sz cap) = Some buf →
  ∃ h', (∀ vs pl, ArrayPtr_dtor (mkArrayPtr p) (mkState h vs pl)
                  = (Ret tt, mkState h' vs pl)) ∧
        (∀ l, blk p = Some l → h' !! l = None) ∧
        (∀ l, blk p ≠ Some l → h' !! l = h !! l).
Proof.
  unfold buffer_of. simpl. destruct p as [[l|] o]; simpl;
    case_bool_decide; try done; subst o.
  - intros Hl. exists (delete l h).
    split; [intros; by eapply ArrayPtr_dtor_block|].
    split.
    + intros l0 [= <-]. apply lookup_delete_eq.
    + intros l0 Hl0. apply lookup_delete_ne. congruence.
  - intros _. exists h. split; [intros; apply ArrayPtr_dtor_null|done].
Qed.

Lemma copy_assign_holds h vs pl this rhs pt st ct bt pr sz cap buf :
  this ≠ rhs →
  vs !! this = Some (mkSimpleVector (mkArrayPtr pt) st ct) →
  buffer_of (mkState h vs pl) (mkSimpleVector (mkArrayPtr pt) st ct) = Some bt →
  vs !! rhs = Some (mkSimpleVector (mkArrayPtr pr) sz cap) →
  buffer_of (mkState h vs pl) (mkSimpleVector (mkArrayPtr pr) sz cap) = Some buf →
  pt ≠ pr →
  0 ≤ sz ≤ cap → cap = Z.of_nat (length buf) → cap ≤ max_slots →
  (sz ≠ 0 → will_allocate (mkState h vs pl) sz = true) →
  ∃ σ' buf',
    copy_assign this rhs (mkState h vs pl) = (Ret tt, σ') ∧
    holds σ' this sz cap buf' ∧ Z.of_nat (length buf') = sz ∧
    take (Z.to_nat sz) buf' = take (Z.to_nat sz) buf ∧
    holds σ' rhs sz cap buf ∧
    (∀ l, blk pt = Some l → heap σ' !! l = None).
Proof.
  intros Hne Hvt Hbt Hvr Hbr Hptr Hsz Hcap Hmax Hal. unfold copy_assign.
  assert (off pt = 0 ∧ off pr = 0) as [Hot Hor].
  { unfold buffer_of in Hbt, Hbr. simpl in *. by repeat case_bool_decide. }
  destruct pt as [bt_ ot], pr as [br or]. simpl in Hot, Hor. subst ot or.
  assert (bt_ ≠ br) as Hblk by congruence.
  erewrite bind_Ret by (apply get_items_ok; vlookup2).
  erewrite bind_Ret by (apply get_items_ok; vlookup2). norm.
  erewrite bind_Ret.
  2:{ apply assert_ok, bool_decide_eq_true_2. congruence. }
  erewrite bind_Ret by (apply get_size_ok; vlookup2). norm.
  destruct (decide (sz = 0)) as [->|Hnz].
  - erewrite bind_Ret by apply ArrayPtr_ctor_0.
    erewrite bind_Ret by (apply begin_ok; vlookup2).
    erewrite bind_Ret by (apply end_ok; vlookup2).
    norm. rewrite !decide_True by done.
    erewrite bind_Ret by apply std_copy_null.
    erewrite bind_Ret by (apply ArrayPtr_swap_items_ok; vlookup2). norm.
    erewrite bind_Ret by (apply get_size_ok; vlookup2). norm.
    erewrite bind_Ret by (apply set_size_ok; vlookup2). norm.
    erewrite bind_Ret by (apply get_capacity_ok; vlookup2). norm.
    erewrite bind_Ret by (apply set_capacity_ok; vlookup2). norm.
    rewrite !insert_insert_eq.
    destruct (ArrayPtr_dtor_owned h vs pl (Ptr bt_ 0) st ct bt)
      as (h' & Hdtor & Hgone & Hkept); [exact Hbt|].
    rewrite Hdtor.
    eexists _, []. split; [done|]. split; [|split; [|split; [|split]]].
    + apply holds_null. apply lookup_insert_eq.
    + done.
    + by rewrite take_nil.
    + exists (mkArrayPtr (Ptr br 0)). split; [simpl; by rewrite lookup_insert_ne|].
      unfold buffer_of in *. simpl in *. destruct br as [l0|]; [|done].
      rewrite Hkept by congruence. done.
    + done.
  - assert (∃ l0, br = Some l0 ∧ h !! l0 = Some buf) as (l0 & -> & Hl0).
    { unfold buffer_of in Hbr. simpl in Hbr. destruct br as [l0|]; [by exists l0|].
      simplify_eq/=. lia. }
    destruct (ArrayPtr_ctor_ok h vs pl sz) as (l2 & Hfresh & Hctor); [done|by apply Hal|].
    assert (l0 ≠ l2) as Hne02 by (intros ->; by rewrite Hl0 in Hfresh).
    erewrite bind_Ret by exact Hctor.
    erewrite bind_Ret by (apply begin_ok; vlookup2).
    erewrite bind_Ret by (apply end_ok; vlookup2).
    norm. rewrite !decide_False by done.
    erewrite bind_Ret.
    2:{ apply (std_copy_blocks _ _ _ _ _ _ buf); [done|hlookup|hlookup|lia|].
        rewrite length_replicate. lia. }
    erewrite bind_Ret by (apply ArrayPtr_swap_items_ok; vlookup2). norm.
    erewrite bind_Ret by (apply get_size_ok; vlookup2). norm.
    erewrite bind_Ret by (apply set_size_ok; vlookup2). norm.
    erewrite bind_Ret by (apply get_capacity_ok; vlookup2). norm.
    erewrite bind_Ret by (apply set_capacity_ok; vlookup2). norm.
    rewrite !insert_insert_eq.
    set (buf' := blit buf 0 (replicate (Z.to_nat sz) T_default) 0 (Z.to_nat sz)).
    destruct (ArrayPtr_dtor_owned
                 (<[l2 := buf']> (<[l0 := buf]>
                    (<[l2 := replicate (Z.to_nat sz) T_default]> h))) vs pl
                 (Ptr bt_ 0) st ct bt)
      as (h' & Hdtor & Hgone & Hkept).
    { unfold buffer_of in *. simpl in *. destruct bt_ as [lt|]; [|exact Hbt].
      assert (lt ≠ l2) by (intros ->; by rewrite Hfresh in Hbt).
      rewrite !lookup_insert_ne by congruence. exact Hbt. }
    rewrite Hdtor.
    eexists _, buf'. split; [done|]. split; [|split; [|split; [|split]]].
    + eapply holds_block; [apply lookup_insert_eq|]. simpl.
      rewrite Hkept; [apply lookup_insert_eq|].
      simpl. intros [= ->]. unfold buffer_of in Hbt. simpl in Hbt.
      by rewrite Hfresh in Hbt.
    + unfold buf'. rewrite length_blit, length_replicate. lia.
    + apply take_blit; [lia|rewrite length_replicate; lia].
    + eapply holds_block; [simpl; by rewrite lookup_insert_ne|]. simpl.
      rewrite Hkept by (simpl; congruence). hlookup.
    + done.
Qed.

(** X22. Copy-assignment between two valid sequences with different buffers
    (given that the allocation succeeds) gives the destination the source's
    elements and size in a fresh array of exactly [size] slots, releases the
    destination's previous array and leaves the source unchanged; the
    destination's capacity becomes the source's capacity, so the destination
    is valid afterwards exactly when the source was full. *)
Theorem copy_assign_copies σ this rhs a ra sz c :
  this ≠ rhs → valid σ this → valid σ rhs →
  get_items this σ = (Ret a, σ) → get_items rhs σ = (Ret ra, σ) → a ≠ ra →
  GetSize rhs σ = (Ret sz, σ) → GetCapacity rhs σ = (Ret c, σ) →
  (sz ≠ 0 → will_allocate σ sz = true) →
  ∃ σ', copy_assign this rhs σ = (Ret tt, σ') ∧
        contents σ' this = contents σ rhs ∧
        GetSize this σ' = (Ret sz, σ') ∧ GetCapacity this σ' = (Ret c, σ') ∧
        slots σ' this = sz ∧
        (valid σ' this ↔ sz = c) ∧
        contents σ' rhs = contents σ rhs ∧ valid σ' rhs ∧
        (∀ l, blk (raw_ptr_ a) = Some l → heap σ' !! l = None).
Proof.
  intros Hne Hvt Hvr Ha Hra Hptr Hsz Hc Hal.
  apply valid_holds in Hvt as (st & ct & bt & (at_ & Hvt & Hbt) & _).
  apply valid_holds in Hvr as (sz0 & cap & buf & Hhr & Hb & Hcap & Hmax).
  rewrite (holds_GetSize _ _ _ _ _ Hhr) in Hsz.
  rewrite (holds_GetCapacity _ _ _ _ _ Hhr) in Hc. simplify_eq.
  destruct Hhr as (ar & Hvr & Hbr).
  destruct σ as [h vs pl]. simpl in Hvt, Hvr.
  erewrite get_items_ok in Ha, Hra by done. simplify_eq/=.
  destruct a as [pt], ra as [pr].
  destruct (copy_assign_holds h vs pl this rhs pt st ct bt pr sz
              (Z.of_nat (length buf)) buf)
    as (σ' & buf' & Hrun & Hh' & Hlen & Htake & Hhr' & Hgone);
    [done|done|done|done|done|congruence|done..|].
  assert (contents (mkState h vs pl) rhs = take (Z.to_nat sz) buf) as Hcr.
  { unfold contents. simpl. by rewrite Hvr, Hbr. }
  exists σ'. split; [done|]. split.
  { by rewrite Hcr, (holds_contents _ _ _ _ _ Hh'). }
  split; [by eapply holds_GetSize|]. split; [by eapply holds_GetCapacity|].
  split; [by rewrite (holds_slots _ _ _ _ _ Hh')|]. split.
  { split.
    - intros Hvalid. apply valid_holds in Hvalid
        as (sz1 & cap1 & buf1 & (a1 & Hv1 & Hb1) & _ & Hcap1 & _).
      destruct Hh' as (a2 & Hv2 & Hb2). rewrite Hv1 in Hv2.
      simplify_eq. lia.
    - intros Heq. eapply valid_intro; [done|lia|lia|lia]. }
  split; [by rewrite Hcr, (holds_contents _ _ _ _ _ Hhr')|].
  split; [eapply valid_intro; [done|lia|done|lia]|done].
Qed.

(** X23. With assertions on, copy-assignment aborts, before anything is
    touched, whenever the two buffer pointers are equal: on
    self-assignment, and also between two different sequences that have no
    buffer yet. *)
Theorem copy_assign_same_buffer_aborts σ this rhs a :
  NDEBUG = false →
  get_items this σ = (Ret a, σ) → get_items rhs σ = (Ret a, σ) →
  copy_assign this rhs σ = (Abort, σ).
Proof.
  intros Hnd Ha Hra. unfold copy_assign.
  erewrite bind_Ret by done. erewrite bind_Ret by done.
  unfold bind, assert_. rewrite Hnd. simpl.
  by rewrite bool_decide_eq_false_2 by (by intros []).
Qed.

(** X24. [operator[]] at an index below the size returns the address [At]
    returns, where the element is; at an index not below the size a build
    with assertions aborts and leaves the state untouched. *)
Theorem op_index_access σ this index sz :
  valid σ this → GetSize this σ = (Ret sz, σ) → 0 ≤ index →
  (index < sz →
     ∃ r x, op_index this index σ = (Ret r, σ) ∧ At this index σ = (Ret r, σ) ∧
            load r σ = (Ret x, σ) ∧
            contents σ this !! Z.to_nat index = Some x) ∧
  (sz ≤ index → NDEBUG = false → op_index this index σ = (Abort, σ)).
Proof.
  intros Hvalid Hsz Hidx.
  apply valid_holds in Hvalid as (sz0 & cap & buf & Hh & Hb & Hcap & Hmax).
  rewrite (holds_GetSize _ _ _ _ _ Hh) in Hsz. injection Hsz as ->.
  rewrite (holds_contents _ _ _ _ _ Hh).
  destruct σ as [h vs pl]. split.
  - intros Hlt.
    apply holds_inv in Hh as [[Hv ->]|(l & Hv & Hl)]; [simpl in *; lia|].
    destruct (lookup_lt_is_Some_2 buf (Z.to_nat index)) as [x Hx]; [lia|].
    exists (Ptr (Some l) index), x. split; [|split; [|split]].
    + unfold op_index. step.
      erewrite bind_Ret by (apply assert_ok, bool_decide_eq_true_2; lia).
      step. done.
    + erewrite At_ok by (done || (simpl; lia)). norm. done.
    + by eapply load_ok.
    + by rewrite lookup_take_lt by lia.
  - intros Hge Hnd. destruct Hh as (a & Hv & _). unfold op_index. step.
    unfold bind, assert_. rewrite Hnd. simpl.
    by rewrite bool_decide_eq_false_2 by lia.
Qed.

(** X25. [new[]] then [delete[]]: an [ArrayPtr] built for a non-zero
    length owns a fresh array of that many default values, destroying it
    gives back the arrays of before, and destroying it a second time is
    undefined; built for length 0 it is null, without asking for memory. *)
Theorem ArrayPtr_lifecycle σ n :
  0 ≤ n →
  (n = 0 → ArrayPtr_ctor n σ = (Ret (mkArrayPtr nullptr), σ) ∧
           ArrayPtr_dtor (mkArrayPtr nullptr) σ = (Ret tt, σ)) ∧
  (n ≠ 0 → will_allocate σ n = true →
     ∃ l σ1 σ2,
       ArrayPtr_ctor n σ = (Ret (mkArrayPtr (Ptr (Some l) 0)), σ1) ∧
       heap σ !! l = None ∧
       heap σ1 !! l = Some (replicate (Z.to_nat n) T_default) ∧
       ArrayPtr_dtor (mkArrayPtr (Ptr (Some l) 0)) σ1 = (Ret tt, σ2) ∧
       heap σ2 = heap σ ∧
       fst (ArrayPtr_dtor (mkArrayPtr (Ptr (Some l) 0)) σ2) = UB).
Proof.
  intros Hn. split; [by intros ->|]. intros Hnz Hal. destruct σ as [h vs pl].
  destruct (ArrayPtr_ctor_ok h vs pl n) as (l & Hfresh & Hctor); [done..|].
  eexists l, _, _. split; [done|]. split; [done|].
  split; [apply lookup_insert_eq|].
  split; [eapply ArrayPtr_dtor_block, lookup_insert_eq|]. simpl.
  rewrite delete_insert_id by done. split; [done|].
  unfold ArrayPtr_dtor, delete_array. simpl. by rewrite Hfresh.
Qed.
End assigning.

(** ** Failure, misuse, order *)

Section relations.
Context {T : Type} {E : Element T} {B : Build}.
Implicit Types (h : gmap loc (list T)) (vs : gmap vid SimpleVector).
Implicit Types (pl : list new_outcome) (buf : list T) (sv : SimpleVector).
Implicit Types (σ : state T).

(** X26. Copy-and-swap gives copy-assignment the strong guarantee: when it
    ends with an exception no array and no vector object has changed, so
    both sequences have the sizes, capacities and elements they had. *)
Theorem copy_assign_failure_atomic σ this rhs e σ' :
  copy_assign this rhs σ = (Throw e, σ') →
  heap σ' = heap σ ∧ vecs σ' = vecs σ ∧
  contents σ' this = contents σ this ∧ contents σ' rhs = contents σ rhs ∧
  (valid σ this → valid σ' this) ∧ (valid σ rhs → valid σ' rhs).
Proof.
  intros Hrun. apply atomic_copy_assign in Hrun as [Hheap Hvecs].
  split; [done|]. split; [done|].
  unfold contents, valid, validb, buffer_of. by rewrite Hheap, Hvecs.
Qed.

(** X27. [Erase(end())] is outside the contract: with assertions on the
    program aborts with the state untouched; with assertions compiled out
    the range handed to [std::copy] starts one past its own end, which is
    undefined. *)
Theorem Erase_at_end σ this e :
  end_ this σ = (Ret e, σ) →
  (NDEBUG = false → Erase this e σ = (Abort, σ)) ∧
  (NDEBUG = true → Erase this e σ = (UB, σ)).
Proof.
  destruct σ as [h vs pl]. intros Hend.
  destruct (vs !! this) as [[[[b o]] sz cap]|] eqn:Hv.
  2:{ unfold end_, get_size, get_vec, bind in Hend. simpl in Hend.
      by rewrite Hv in Hend. }
  erewrite end_ok in Hend by done. simpl in Hend.
  unfold Erase. erewrite bind_Ret by by apply begin_ok.
  erewrite bind_Ret by by apply end_ok. simpl.
  injection Hend as <-.
  destruct (decide (sz = 0)) as [->|Hnz].
  - split; intros Hnd.
    + unfold bind, assert_. by rewrite Hnd.
    + unfold bind at 1, assert_. rewrite Hnd. simpl.
      unfold nullptr. erewrite bind_Ret by apply ptr_diff_ok.
      unfold bind, std_copy, distance, ptr_add. by simpl.
  - unfold ptr_add. simpl. split; intros Hnd.
    + unfold bind, assert_. rewrite Hnd. unfold ptr_leb, ptr_ltb. simpl.
      by rewrite Z.ltb_irrefl, !andb_false_r.
    + unfold bind at 1, assert_. rewrite Hnd. simpl.
      erewrite bind_Ret by apply ptr_diff_ok.
      unfold bind, std_copy, distance, ptr_add. simpl.
      by rewrite bool_decide_eq_false_2 by lia.
Qed.

(** What the two algorithms return on the elements of valid sequences. *)
Lemma op_eq_run σ lhs rhs :
  valid σ lhs → valid σ rhs →
  op_eq lhs rhs σ
  = (Ret (bool_decide (length (contents σ lhs) = length (contents σ rhs))
          && equal_lists (contents σ lhs) (contents σ rhs)), σ).
Proof.
  intros Hl Hr.
  destruct (valid_range σ lhs Hl) as (b1 & e1 & Hb1 & He1 & Hd1 & Hr1 & Hn1).
  destruct (valid_range σ rhs Hr) as (b2 & e2 & Hb2 & He2 & Hd2 & Hr2 & Hn2).
  unfold op_eq. erewrite !bind_Ret by done. case_decide as Hlen.
  - apply Nat2Z.inj in Hlen. rewrite bool_decide_eq_true_2 by done.
    unfold std_equal. erewrite !bind_Ret by done.
    by apply equal_loop_reads.
  - rewrite bool_decide_eq_false_2 by congruence. done.
Qed.

Lemma op_lt_run σ lhs rhs :
  valid σ lhs → valid σ rhs →
  op_lt lhs rhs σ = (Ret (lex_lists (contents σ lhs) (contents σ rhs)), σ).
Proof.
  intros Hl Hr.
  destruct (valid_range σ lhs Hl) as (b1 & e1 & Hb1 & He1 & Hd1 & Hr1 & Hn1).
  destruct (valid_range σ rhs Hr) as (b2 & e2 & Hb2 & He2 & Hd2 & Hr2 & Hn2).
  unfold op_lt, std_lexicographical_compare.
  erewrite !bind_Ret by done. by apply lexicographical_loop_reads.
Qed.

Lemma equal_lists_refl (l : list T) :
  (∀ x, T_eqb x x = true) → equal_lists l l = true.
Proof. intros Hrefl. induction l as [|x l IH]; [done|]. simpl. by rewrite Hrefl. Qed.

Lemma equal_lists_sym (l1 : list T) : ∀ l2,
  (∀ x y, T_eqb x y = T_eqb y x) → equal_lists l1 l2 = equal_lists l2 l1.
Proof.
  induction l1 as [|x l1 IH]; intros [|y l2] Hsym; try done.
  simpl. rewrite (Hsym x y). destruct (T_eqb y x); [by apply IH|done].
Qed.

Lemma equal_lists_trans (l1 : list T) : ∀ l2 l3,
  (∀ x y z, T_eqb x y = true → T_eqb y z = true → T_eqb x z = true) →
  length l1 = length l2 →
  equal_lists l1 l2 = true → equal_lists l2 l3 = true → equal_lists l1 l3 = true.
Proof.
  induction l1 as [|x l1 IH]; intros [|y l2] [|z l3] Htrans Hlen; try done.
  simpl in *. destruct (T_eqb x y) eqn:Hxy; [|done].
  destruct (T_eqb y z) eqn:Hyz; [|done].
  rewrite (Htrans x y z Hxy Hyz). apply IH; [done|lia].
Qed.

Lemma lex_lists_asym (l1 : list T) : ∀ l2,
  (∀ x y, T_ltb x y = true → T_ltb y x = false) →
  lex_lists l1 l2 = true → lex_lists l2 l1 = false.
Proof.
  induction l1 as [|x l1 IH]; intros [|y l2] Hasym; try done.
  simpl. destruct (T_ltb x y) eqn:Hxy.
  - by rewrite (Hasym x y Hxy).
  - destruct (T_ltb y x); [done|]. by apply IH.
Qed.

(** X28. When [==] on the elements is an equivalence, so is [==] on valid
    sequences: every sequence equals itself, the two argument orders give
    the same answer, and equality carries over a middle sequence. *)
Theorem op_eq_equivalence σ u v w :
  (∀ x, T_eqb x x = true) →
  (∀ x y, T_eqb x y = T_eqb y x) →
  (∀ x y z, T_eqb x y = true → T_eqb y z = true → T_eqb x z = true) →
  valid σ u → valid σ v → valid σ w →
  op_eq u u σ = (Ret true, σ) ∧
  (∃ r, op_eq u v σ = (Ret r, σ) ∧ op_eq v u σ = (Ret r, σ)) ∧
  (op_eq u v σ = (Ret true, σ) → op_eq v w σ = (Ret true, σ) →
   op_eq u w σ = (Ret true, σ)).
Proof.
  intros Hrefl Hsym Htrans Hu Hv Hw.
  rewrite !op_eq_run by done. split; [|split].
  - by rewrite bool_decide_eq_true_2, equal_lists_refl.
  - eexists. split; [done|]. do 2 f_equal.
    rewrite (equal_lists_sym _ _ Hsym). f_equal.
    apply bool_decide_ext. split; congruence.
  - intros [= Huv] [= Hvw]. do 2 f_equal.
    apply andb_true_iff in Huv as [Hl1 He1], Hvw as [Hl2 He2].
    apply bool_decide_eq_true in Hl1, Hl2.
    apply andb_true_iff. split; [apply bool_decide_eq_true; congruence|].
    by eapply equal_lists_trans.
Qed.

(** X29. When [<] on the elements is asymmetric, [<] on valid sequences is
    irreflexive and asymmetric, and [<=] is reflexive and total: of two
    sequences at least one is [<=] the other. *)
Theorem op_lt_strict σ u v :
  (∀ x y, T_ltb x y = true → T_ltb y x = false) →
  valid σ u → valid σ v →
  op_lt u u σ = (Ret false, σ) ∧ op_le u u σ = (Ret true, σ) ∧
  (op_lt u v σ = (Ret true, σ) → op_lt v u σ = (Ret false, σ)) ∧
  (op_le u v σ = (Ret true, σ) ∨ op_le v u σ = (Ret true, σ)).
Proof.
  intros Hasym Hu Hv. unfold op_le.
  erewrite !bind_Ret by by apply op_lt_run.
  rewrite !op_lt_run by done.
  assert (lex_lists (contents σ u) (contents σ u) = false) as Hirr.
  { destruct (lex_lists _ _) eqn:Hlt; [|done].
    by rewrite (lex_lists_asym _ _ Hasym Hlt) in Hlt. }
  rewrite Hirr. split; [done|]. split; [done|]. split.
  - intros [= Hlt]. by rewrite (lex_lists_asym _ _ Hasym Hlt).
  - destruct (lex_lists (contents σ v) (contents σ u)) eqn:Hlt; [|by left].
    right. by rewrite (lex_lists_asym _ _ Hasym Hlt).
Qed.

(** X30. On a valid sequence [IsEmpty] is true exactly when there is no
    element, which is exactly when [begin] and [end] coincide. *)
Theorem IsEmpty_no_elements σ v :
  valid σ v →
  ∃ r b e, IsEmpty v σ = (Ret r, σ) ∧
           begin v σ = (Ret b, σ) ∧ end_ v σ = (Ret e, σ) ∧
           (r = true ↔ contents σ v = []) ∧ (r = true ↔ b = e).
Proof.
  intros Hvalid.
  apply valid_holds in Hvalid as (sz & cap & buf & Hh & Hsz & Hcap & Hmax).
  rewrite (holds_contents _ _ _ _ _ Hh).
  destruct σ as [h vs pl]. destruct Hh as ([[b o]] & Hv & Hb).
  unfold IsEmpty. erewrite bind_Ret by by apply get_size_ok.
  erewrite begin_ok, end_ok by done. simpl.
  eexists _, _, _. split; [done|]. split; [done|]. split; [done|].
  rewrite bool_decide_eq_true. split.
  - split; [by intros ->|]. intros Hnil.
    apply (f_equal length) in Hnil. rewrite length_take in Hnil. simpl in Hnil. lia.
  - case_decide; [done|]. split; [done|].
    unfold ptr_add. simpl. intros [=]. lia.
Qed.
End relations.

(** ** The operations on sample states *)

(** C1. Copy-assignment allocates as many slots as the source has elements
    but takes over the source's capacity: copying a sequence of size 3 and
    capacity 4 leaves the destination with capacity 4 over an array of 3
    slots, no longer a valid sequence, and the next [PushBack] writes past
    the end of that array.  The copy constructor, in contrast, makes the
    capacity the size. *)
Theorem copy_assign_capacity_exceeds_buffer :
  valid two_vectors 1%positive ∧ valid two_vectors 2%positive ∧
  ∃ σ', copy_assign (B:=debug_build) 2%positive 1%positive two_vectors = (Ret tt, σ') ∧
        GetSize 2%positive σ' = (Ret 3, σ') ∧
        GetCapacity 2%positive σ' = (Ret 4, σ') ∧
        slots σ' 2%positive = 3 ∧
        validb σ' 2%positive = false ∧
        fst (PushBack 2%positive 7 σ') = UB ∧
        ∃ σ'', SimpleVector_copy 3%positive 1%positive two_vectors = (Ret tt, σ'') ∧
               GetCapacity 3%positive σ'' = (Ret 3, σ'') ∧
               slots σ'' 3%positive = 3.
Proof.
  split; [done|]. split; [done|].
  eexists. split; [vm_compute; reflexivity|].
  repeat split; try (vm_compute; reflexivity).
  eexists. split; [vm_compute; reflexivity|].
  split; vm_compute; reflexivity.
Qed.

(** C2. Growing within the capacity only raises the size: after [{1, 2, 3}]
    was shrunk to size 1, [Resize(3)] (size 1 < 3 ≤ capacity 3) brings back
    2 and 3, not two default values.  Growing beyond the capacity does give
    default values: [Resize(5)] on [SimpleVector(3, 7)] yields
    [{7, 7, 7, 0, 0}]. *)
Theorem Resize_within_capacity_keeps_old_values :
  ∃ σ σ' σ'',
    (SimpleVector_init 1%positive [1; 2; 3] ;; Resize 1%positive 1) no_objects
    = (Ret tt, σ) ∧
    valid σ 1%positive ∧
    GetSize 1%positive σ = (Ret 1, σ) ∧ GetCapacity 1%positive σ = (Ret 3, σ) ∧
    Resize 1%positive 3 σ = (Ret tt, σ') ∧
    contents σ' 1%positive = [1; 2; 3] ∧
    contents σ' 1%positive ≠ [1; T_default; T_default] ∧
    (SimpleVector_filled 1%positive 3 7 ;; Resize 1%positive 5) no_objects
    = (Ret tt, σ'') ∧
    contents σ'' 1%positive = [7; 7; 7; 0; 0].
Proof.
  eexists _, _, _. split; [vm_compute; reflexivity|].
  split; [vm_compute; reflexivity|].
  split; [vm_compute; reflexivity|].
  split; [vm_compute; reflexivity|].
  split; [vm_compute; reflexivity|].
  split; [vm_compute; reflexivity|].
  split; [vm_compute; discriminate|].
  split; vm_compute; reflexivity.
Qed.

Lemma PushBack_appends_witness :
  valid full_of_three 1%positive ∧
  ∃ σ', PushBack 1%positive 9 full_of_three = (Ret tt, σ') ∧
        GetSize 1%positive σ' = (Ret 4, σ') ∧
        read_at 1%positive 3 σ' = (Ret 9, σ').
Proof.
  split; [reflexivity|].
  destruct (PushBack_appends full_of_three 1%positive 9 3 3)
    as (σ' & Hrun & Hsize & Hlast & _);
    [reflexivity|reflexivity|reflexivity|intros _; reflexivity|].
  exists σ'. repeat split; assumption.
Defined.

Lemma Insert_then_Erase_witness :
  valid full_of_three 1%positive ∧
  ∃ σ1 σ2 it it',
    Insert (B:=debug_build) 1%positive (Ptr (Some 1%positive) 0 +ₚ 1) 9 full_of_three
    = (Ret it, σ1) ∧
    Erase (B:=debug_build) 1%positive it σ1 = (Ret it', σ2) ∧
    contents σ2 1%positive = [1; 2; 3].
Proof.
  split; [reflexivity|].
  destruct (Insert_then_Erase (B:=debug_build) full_of_three 1%positive 1 9 3 3
              (Ptr (Some 1%positive) 0))
    as (σ1 & σ2 & it & it' & b1 & Hins & _ & _ & Hera & _ & Hcont);
    [reflexivity|reflexivity|reflexivity|reflexivity|lia|intros _; reflexivity|].
  exists σ1, σ2, it, it'. repeat split; assumption.
Defined.

Lemma growth_failure_atomic_witness :
  run_growth (B:=debug_build) 1%positive (grow_PushBack 4) out_of_memory
  = (Throw bad_alloc, full_of_three) ∧
  contents full_of_three 1%positive = contents out_of_memory 1%positive.
Proof.
  split; [reflexivity|].
  apply (growth_failure_atomic (B:=debug_build) out_of_memory 1%positive
           (grow_PushBack 4) bad_alloc full_of_three).
  reflexivity.
Defined.

Lemma Reserve_frame_witness :
  valid two_vectors 2%positive ∧
  ∃ σ' c', Reserve 2%positive 5 two_vectors = (Ret tt, σ') ∧
           GetCapacity 2%positive σ' = (Ret c', σ') ∧
           contents σ' 2%positive = [1; 5].
Proof.
  split; [reflexivity|].
  destruct (Reserve_frame two_vectors 2%positive 5 2 2)
    as (σ' & c' & Hrun & Hcap & _ & _ & Hcont & _);
    [reflexivity|reflexivity|reflexivity|intros _; reflexivity|].
  exists σ', c'. repeat split; assumption.
Defined.

Lemma At_checked_witness :
  GetSize 1%positive two_vectors = (Ret 3, two_vectors) ∧
  At 1%positive 10 two_vectors
  = (Throw (out_of_range "Method At(index): index >= size"), two_vectors).
Proof.
  split; [reflexivity|].
  apply (At_checked (B:=release_build) two_vectors 1%positive 10 3);
    [reflexivity|lia|lia].
Defined.

Lemma comparison_operators_witness :
  valid two_vectors 1%positive ∧ valid two_vectors 2%positive ∧
  ∃ beq blt bgt,
    op_eq 1%positive 2%positive two_vectors = (Ret beq, two_vectors) ∧
    op_lt 1%positive 2%positive two_vectors = (Ret blt, two_vectors) ∧
    op_lt 2%positive 1%positive two_vectors = (Ret bgt, two_vectors).
Proof.
  split; [reflexivity|]. split; [reflexivity|].
  destruct (comparison_operators two_vectors 1%positive 2%positive)
    as (beq & blt & bgt & Heq & _ & Hlt & _ & Hgt & _);
    [reflexivity|reflexivity|].
  exists beq, blt, bgt. repeat split; assumption.
Defined.

Lemma begin_end_range_witness :
  valid cleared 1%positive ∧
  GetCapacity 1%positive cleared = (Ret 4, cleared) ∧
  ∃ b e, begin 1%positive cleared = (Ret b, cleared) ∧
         end_ 1%positive cleared = (Ret e, cleared) ∧
         (0 = 0 → b = nullptr ∧ e = nullptr).
Proof.
  split; [reflexivity|]. split; [reflexivity|].
  destruct (begin_end_range cleared 1%positive 0)
    as (b & e & Hb & He & _ & _ & Hnull & _); [reflexivity|reflexivity|].
  exists b, e. repeat split; try assumption; by apply Hnull.
Defined.

Lemma move_assign_self_witness :
  move_assign 1%positive 1%positive two_vectors = (Ret tt, two_vectors).
Proof.
  apply (move_assign_self two_vectors 1%positive
           (mkSimpleVector (mkArrayPtr (Ptr (Some 1%positive) 0)) 3 4)).
  reflexivity.
Defined.

Lemma Resize_truncates_witness :
  valid full_of_three 1%positive ∧
  ∃ σ', Resize 1%positive 2 full_of_three = (Ret tt, σ') ∧
        contents σ' 1%positive = take 2 (contents full_of_three 1%positive).
Proof.
  split; [reflexivity|].
  destruct (Resize_truncates full_of_three 1%positive 2 3 3)
    as (σ' & Hrun & _ & _ & Hcont & _);
    [reflexivity|reflexivity|reflexivity|lia|].
  exists σ'. split; assumption.
Defined.

Lemma Resize_truncates_twice_witness :
  valid full_of_three 1%positive ∧
  ∃ σ1 σ2, Resize 1%positive 2 full_of_three = (Ret tt, σ1) ∧
           Resize 1%positive 1 σ1 = (Ret tt, σ2) ∧
           GetSize 1%positive σ2 = (Ret 1, σ2).
Proof.
  split; [reflexivity|].
  destruct (Resize_truncates_twice full_of_three 1%positive 2 1 3)
    as (σ1 & σ2 & Hrun1 & Hrun2 & Hsz & _);
    [reflexivity|reflexivity|lia|lia|].
  exists σ1, σ2. repeat split; assumption.
Defined.

Lemma Resize_grows_in_place_witness :
  valid cleared 1%positive ∧
  ∃ σ', Resize 1%positive 2 cleared = (Ret tt, σ') ∧
        heap σ' = heap cleared ∧ plan σ' = plan cleared.
Proof.
  split; [reflexivity|].
  destruct (Resize_grows_in_place cleared 1%positive 2 0 4)
    as (σ' & Hrun & _ & _ & _ & Hheap & Hplan & _);
    [reflexivity|reflexivity|reflexivity|lia|].
  exists σ'. repeat split; assumption.
Defined.

Lemma Resize_reallocates_witness :
  valid full_of_three 1%positive ∧
  ∃ σ', Resize 1%positive 5 full_of_three = (Ret tt, σ') ∧
        GetCapacity 1%positive σ' = (Ret 6, σ') ∧
        contents σ' 1%positive = contents full_of_three 1%positive ++ [0; 0].
Proof.
  split; [reflexivity|].
  destruct (Resize_reallocates full_of_three 1%positive 5 3 3)
    as (σ' & Hrun & _ & Hcap & _ & Hcont & _);
    [reflexivity|reflexivity|reflexivity|lia|reflexivity|].
  exists σ'. repeat split; assumption.
Defined.

Lemma Clear_empties_witness :
  valid full_of_three 1%positive ∧
  ∃ σ', Clear 1%positive full_of_three = (Ret tt, σ') ∧
        GetCapacity 1%positive σ' = (Ret 3, σ') ∧ contents σ' 1%positive = [].
Proof.
  split; [reflexivity|].
  destruct (Clear_empties full_of_three 1%positive 3)
    as (σ' & Hrun & _ & _ & Hcap & Hcont & _); [reflexivity|reflexivity|].
  exists σ'. repeat split; assumption.
Defined.

Lemma PopBack_drops_last_witness :
  valid full_of_three 1%positive ∧
  ∃ σ' x, PopBack (B:=debug_build) 1%positive full_of_three = (Ret tt, σ') ∧
          contents full_of_three 1%positive = contents σ' 1%positive ++ [x].
Proof.
  split; [reflexivity|].
  destruct (PopBack_drops_last (B:=debug_build) full_of_three 1%positive 3 3)
    as (σ' & x & Hrun & _ & _ & Hcont & _);
    [reflexivity|reflexivity|reflexivity|lia|].
  exists σ', x. split; assumption.
Defined.

Lemma PopBack_on_empty_witness :
  GetSize 1%positive cleared = (Ret 0, cleared) ∧
  PopBack (B:=debug_build) 1%positive cleared = (Abort, cleared) ∧
  ∃ σ', PopBack (B:=release_build) 1%positive cleared = (Ret tt, σ') ∧
        ¬ valid σ' 1%positive.
Proof.
  split; [reflexivity|]. split.
  - destruct (PopBack_on_empty (B:=debug_build) cleared 1%positive) as [Hdebug _];
      [reflexivity|].
    apply Hdebug. reflexivity.
  - destruct (PopBack_on_empty (B:=release_build) cleared 1%positive) as [_ Hrelease];
      [reflexivity|].
    destruct Hrelease as (σ' & Hrun & _ & Hinvalid); [reflexivity|].
    exists σ'. split; assumption.
Defined.

Lemma PushBack_then_PopBack_witness :
  valid full_of_three 1%positive ∧
  ∃ σ1 σ2, PushBack 1%positive 9 full_of_three = (Ret tt, σ1) ∧
           PopBack (B:=debug_build) 1%positive σ1 = (Ret tt, σ2) ∧
           contents σ2 1%positive = contents full_of_three 1%positive.
Proof.
  split; [reflexivity|].
  destruct (PushBack_then_PopBack (B:=debug_build) full_of_three 1%positive 9 3 3)
    as (σ1 & σ2 & Hrun1 & Hrun2 & _ & Hcont & _);
    [reflexivity|reflexivity|reflexivity|intros _; reflexivity|].
  exists σ1, σ2. repeat split; assumption.
Defined.

Lemma Insert_places_witness :
  valid full_of_three 1%positive ∧
  ∃ σ' it,
    Insert (B:=debug_build) 1%positive (Ptr (Some 1%positive) 0 +ₚ 1) 9 full_of_three
    = (Ret it, σ') ∧
    load it σ' = (Ret 9, σ') ∧
    contents σ' 1%positive
    = take 1 (contents full_of_three 1%positive)
      ++ 9 :: drop 1 (contents full_of_three 1%positive).
Proof.
  split; [reflexivity|].
  destruct (Insert_places (B:=debug_build) full_of_three 1%positive 1 9 3 3
              (Ptr (Some 1%positive) 0))
    as (σ' & it & Hrun & Hit & _ & Hcont & _);
    [reflexivity|reflexivity|reflexivity|reflexivity|lia|intros _; reflexivity|].
  exists σ', it. repeat split; assumption.
Defined.

Lemma Erase_removes_witness :
  valid full_of_three 1%positive ∧
  ∃ σ' it,
    Erase (B:=debug_build) 1%positive (Ptr (Some 1%positive) 0 +ₚ 1) full_of_three
    = (Ret it, σ') ∧
    contents σ' 1%positive
    = take 1 (contents full_of_three 1%positive)
      ++ drop 2 (contents full_of_three 1%positive).
Proof.
  split; [reflexivity|].
  destruct (Erase_removes (B:=debug_build) full_of_three 1%positive 1 3 3
              (Ptr (Some 1%positive) 0))
    as (σ' & b' & Hrun & _ & _ & _ & _ & Hcont & _);
    [reflexivity|reflexivity|reflexivity|reflexivity|lia|].
  exists σ', (b' +ₚ 1). split; assumption.
Defined.

Lemma PushBack_in_place_witness :
  valid two_vectors 1%positive ∧
  ∃ σ', PushBack 1%positive 9 two_vectors = (Ret tt, σ') ∧
        plan σ' = plan two_vectors ∧
        contents σ' 1%positive = contents two_vectors 1%positive ++ [9].
Proof.
  split; [reflexivity|].
  destruct (PushBack_in_place two_vectors 1%positive 9 3 4
              (mkArrayPtr (Ptr (Some 1%positive) 0)))
    as (σ' & Hrun & _ & _ & Hplan & Hcont & _);
    [reflexivity|reflexivity|reflexivity|reflexivity|lia|].
  exists σ'. repeat split; assumption.
Defined.

Lemma PushBack_doubles_witness :
  valid full_of_three 1%positive ∧
  ∃ σ', PushBack 1%positive 9 full_of_three = (Ret tt, σ') ∧
        GetCapacity 1%positive σ' = (Ret 6, σ') ∧
        heap σ' !! 1%positive = None.
Proof.
  split; [reflexivity|].
  destruct (PushBack_doubles full_of_three 1%positive 9 3
              (mkArrayPtr (Ptr (Some 1%positive) 0)))
    as (σ' & Hrun & Hcap & _ & _ & Hgone & _);
    [reflexivity|reflexivity|reflexivity|reflexivity|reflexivity|].
  exists σ'. repeat split; [assumption..|]. apply Hgone. reflexivity.
Defined.

Lemma sized_constructors_witness :
  (∃ σ', SimpleVector_sized 1%positive 3 no_objects = (Ret tt, σ') ∧
         contents σ' 1%positive = [0; 0; 0]) ∧
  (∃ σ', SimpleVector_filled 1%positive 3 7 no_objects = (Ret tt, σ') ∧
         contents σ' 1%positive = [7; 7; 7]).
Proof.
  destruct (sized_constructors no_objects 1%positive 3 7)
    as [(σ1 & Hrun1 & Hcont1 & _) (σ2 & Hrun2 & Hcont2 & _)];
    [unfold max_slots; lia|intros _; reflexivity|].
  split; [exists σ1|exists σ2]; split; assumption.
Defined.


Lemma reserving_constructor_witness :
  ∃ σ', SimpleVector_reserved 1%positive (Reserve_request 4) no_objects = (Ret tt, σ') ∧
        GetSize 1%positive σ' = (Ret 0, σ') ∧ GetCapacity 1%positive σ' = (Ret 4, σ').
Proof.
  destruct (reserving_constructor no_objects 1%positive 4)
    as (σ' & Hrun & Hsz & Hcap & _); [lia|intros _; reflexivity|].
  exists σ'. repeat split; assumption.
Defined.

Lemma swap_exchanges_witness :
  valid two_vectors 1%positive ∧ valid two_vectors 2%positive ∧
  ∃ σ', swap 1%positive 2%positive two_vectors = (Ret tt, σ') ∧
        contents σ' 1%positive = contents two_vectors 2%positive ∧
        contents σ' 2%positive = contents two_vectors 1%positive.
Proof.
  split; [reflexivity|]. split; [reflexivity|].
  destruct (swap_exchanges two_vectors 1%positive 2%positive)
    as (σ' & Hrun & _ & _ & _ & _ & Hc1 & Hc2 & _); [reflexivity|reflexivity|].
  exists σ'. repeat split; assumption.
Defined.

Lemma swap_twice_witness :
  ∃ σ', swap 1%positive 2%positive two_vectors = (Ret tt, σ') ∧
        swap 1%positive 2%positive σ' = (Ret tt, two_vectors).
Proof.
  apply (swap_twice two_vectors 1%positive 2%positive);
    eexists; reflexivity.
Defined.

Lemma move_assign_transfers_witness :
  valid two_vectors 2%positive ∧
  ∃ σ', move_assign 1%positive 2%positive two_vectors = (Ret tt, σ') ∧
        contents σ' 1%positive = contents two_vectors 2%positive ∧
        contents σ' 2%positive = [] ∧ heap σ' = heap two_vectors.
Proof.
  split; [reflexivity|].
  destruct (move_assign_transfers two_vectors 1%positive 2%positive)
    as (σ' & Hrun & _ & _ & Hheap & Hc1 & _ & Hc2 & _);
    [discriminate|eexists; reflexivity|reflexivity|].
  exists σ'. repeat split; assumption.
Defined.

Lemma move_constructor_witness :
  valid two_vectors 1%positive ∧
  ∃ σ', SimpleVector_move 3%positive 1%positive two_vectors = (Ret tt, σ') ∧
        contents σ' 3%positive = contents two_vectors 1%positive ∧
        contents σ' 1%positive = [].
Proof.
  split; [reflexivity|].
  destruct (move_constructor two_vectors 3%positive 1%positive)
    as (σ' & Hrun & _ & _ & _ & _ & Hc1 & _ & Hc2 & _);
    [discriminate|reflexivity|].
  exists σ'. repeat split; assumption.
Defined.

Lemma copy_constructor_witness :
  valid two_vectors 1%positive ∧
  ∃ σ', SimpleVector_copy 3%positive 1%positive two_vectors = (Ret tt, σ') ∧
        contents σ' 3%positive = contents two_vectors 1%positive ∧
        GetCapacity 3%positive σ' = (Ret 3, σ').
Proof.
  split; [reflexivity|].
  destruct (copy_constructor two_vectors 3%positive 1%positive 3)
    as (σ' & Hrun & Hcont & _ & Hcap & _);
    [discriminate|reflexivity|reflexivity|intros _; split; reflexivity|].
  exists σ'. repeat split; assumption.
Defined.

Lemma copy_constructor_unwinds_witness :
  valid (mkState (heap full_of_three) (vecs full_of_three) [new_ok; new_no_memory])
    1%positive ∧
  ∃ e, SimpleVector_copy 2%positive 1%positive
         (mkState (heap full_of_three) (vecs full_of_three) [new_ok; new_no_memory])
       = (Throw e, full_of_three).
Proof.
  split; [reflexivity|].
  apply (copy_constructor_unwinds
           (mkState (heap full_of_three) (vecs full_of_three) [new_ok; new_no_memory])
           2%positive 1%positive 3 new_no_memory []);
    [discriminate|reflexivity|reflexivity|lia|reflexivity|reflexivity|discriminate].
Defined.

Lemma copy_assign_copies_witness :
  valid two_vectors 1%positive ∧ valid two_vectors 2%positive ∧
  ∃ σ', copy_assign (B:=debug_build) 2%positive 1%positive two_vectors = (Ret tt, σ') ∧
        contents σ' 2%positive = contents two_vectors 1%positive ∧
        GetCapacity 2%positive σ' = (Ret 4, σ') ∧ slots σ' 2%positive = 3 ∧
        ¬ valid σ' 2%positive.
Proof.
  split; [reflexivity|]. split; [reflexivity|].
  destruct (copy_assign_copies (B:=debug_build) two_vectors 2%positive 1%positive
              (mkArrayPtr (Ptr (Some 2%positive) 0))
              (mkArrayPtr (Ptr (Some 1%positive) 0)) 3 4)
    as (σ' & Hrun & Hcont & _ & Hcap & Hslots & Hvalid & _);
    [discriminate|reflexivity|reflexivity|reflexivity|reflexivity|discriminate
    |reflexivity|reflexivity|intros _; reflexivity|].
  exists σ'. repeat split; try assumption.
  intros Hv. apply Hvalid in Hv. lia.
Defined.

Lemma copy_assign_same_buffer_aborts_witness :
  copy_assign (B:=debug_build) 1%positive 2%positive
    (mkState (T:=Z) ∅
       {[ 1%positive := mkSimpleVector (mkArrayPtr nullptr) 0 0;
          2%positive := mkSimpleVector (mkArrayPtr nullptr) 0 0 ]} [])
  = (Abort,
     mkState ∅
       {[ 1%positive := mkSimpleVector (mkArrayPtr nullptr) 0 0;
          2%positive := mkSimpleVector (mkArrayPtr nullptr) 0 0 ]} []).
Proof.
  apply (copy_assign_same_buffer_aborts (B:=debug_build) _ 1%positive 2%positive
           (mkArrayPtr nullptr)); reflexivity.
Defined.

Lemma op_index_access_witness :
  valid two_vectors 1%positive ∧
  (∃ r, op_index (B:=debug_build) 1%positive 1 two_vectors = (Ret r, two_vectors) ∧
        load r two_vectors = (Ret 2, two_vectors)) ∧
  op_index (B:=debug_build) 1%positive 3 two_vectors = (Abort, two_vectors).
Proof.
  split; [reflexivity|]. split.
  - destruct (op_index_access (B:=debug_build) two_vectors 1%positive 1 3)
      as [Hin _]; [reflexivity|reflexivity|lia|].
    destruct Hin as (r & x & Hrun & _ & Hload & Hx); [lia|].
    exists r. split; [assumption|].
    injection Hx as <-. assumption.
  - destruct (op_index_access (B:=debug_build) two_vectors 1%positive 3 3)
      as [_ Hout]; [reflexivity|reflexivity|lia|].
    apply Hout; [lia|reflexivity].
Defined.

Lemma ArrayPtr_lifecycle_witness :
  ∃ l σ1 σ2,
    ArrayPtr_ctor 3 no_objects = (Ret (mkArrayPtr (Ptr (Some l) 0)), σ1) ∧
    heap σ1 !! l = Some [0; 0; 0] ∧
    ArrayPtr_dtor (mkArrayPtr (Ptr (Some l) 0)) σ1 = (Ret tt, σ2) ∧
    heap σ2 = heap no_objects.
Proof.
  destruct (ArrayPtr_lifecycle no_objects 3) as [_ Hlive]; [lia|].
  destruct Hlive as (l & σ1 & σ2 & Hctor & _ & Hblock & Hdtor & Hheap & _);
    [lia|reflexivity|].
  exists l, σ1, σ2. repeat split; assumption.
Defined.

Lemma copy_assign_failure_atomic_witness :
  copy_assign (B:=debug_build) 2%positive 1%positive
    (mkState (heap two_vectors) (vecs two_vectors) [new_no_memory])
  = (Throw bad_alloc, two_vectors) ∧
  contents two_vectors 2%positive
  = contents (mkState (heap two_vectors) (vecs two_vectors) [new_no_memory]) 2%positive.
Proof.
  split; [reflexivity|].
  destruct (copy_assign_failure_atomic (B:=debug_build)
              (mkState (heap two_vectors) (vecs two_vectors) [new_no_memory])
              2%positive 1%positive bad_alloc two_vectors)
    as (_ & _ & Hcont & _); [reflexivity|].
  assumption.
Defined.

Lemma Erase_at_end_witness :
  end_ 1%positive full_of_three = (Ret (Ptr (Some 1%positive) 3), full_of_three) ∧
  Erase (B:=debug_build) 1%positive (Ptr (Some 1%positive) 3) full_of_three
  = (Abort, full_of_three) ∧
  Erase (B:=release_build) 1%positive (Ptr (Some 1%positive) 3) full_of_three
  = (UB, full_of_three).
Proof.
  split; [reflexivity|]. split.
  - destruct (Erase_at_end (B:=debug_build) full_of_three 1%positive
                (Ptr (Some 1%positive) 3)) as [Hdebug _]; [reflexivity|].
    apply Hdebug. reflexivity.
  - destruct (Erase_at_end (B:=release_build) full_of_three 1%positive
                (Ptr (Some 1%positive) 3)) as [_ Hrelease]; [reflexivity|].
    apply Hrelease. reflexivity.
Defined.

Lemma op_eq_equivalence_witness :
  valid two_vectors 1%positive ∧ valid two_vectors 2%positive ∧
  op_eq 1%positive 1%positive two_vectors = (Ret true, two_vectors) ∧
  ∃ r, op_eq 1%positive 2%positive two_vectors = (Ret r, two_vectors) ∧
       op_eq 2%positive 1%positive two_vectors = (Ret r, two_vectors).
Proof.
  split; [reflexivity|]. split; [reflexivity|].
  destruct (op_eq_equivalence two_vectors 1%positive 2%positive 1%positive)
    as (Hrefl & Hsym & _);
    [apply Z.eqb_refl|apply Z.eqb_sym
    |intros x y z Hxy Hyz; simpl in *; lia
    |reflexivity|reflexivity|reflexivity|].
  split; assumption.
Defined.

Lemma op_lt_strict_witness :
  valid two_vectors 1%positive ∧ valid two_vectors 2%positive ∧
  op_lt 1%positive 1%positive two_vectors = (Ret false, two_vectors) ∧
  (op_le 1%positive 2%positive two_vectors = (Ret true, two_vectors) ∨
   op_le 2%positive 1%positive two_vectors = (Ret true, two_vectors)).
Proof.
  split; [reflexivity|]. split; [reflexivity|].
  destruct (op_lt_strict two_vectors 1%positive 2%positive)
    as (Hirr & _ & _ & Htotal);
    [intros x y Hxy; simpl in *; lia|reflexivity|reflexivity|].
  split; assumption.
Defined.

Lemma IsEmpty_no_elements_witness :
  valid cleared 1%positive ∧
  ∃ r b e, IsEmpty 1%positive cleared = (Ret r, cleared) ∧
           begin 1%positive cleared = (Ret b, cleared) ∧
           end_ 1%positive cleared = (Ret e, cleared) ∧
           (r = true ↔ b = e).
Proof.
  split; [reflexivity|].
  destruct (IsEmpty_no_elements cleared 1%positive)
    as (r & b & e & Hrun & Hb & He & _ & Hiff); [reflexivity|].
  exists r, b, e. repeat split; try assumption; apply Hiff.
Defined.
